(** * Greenbriar Scribe: the cleaning and segmentation core

    A shallow embedding of the pure functions of [greenbriar_scribe]
    ([utils.py], [clean.py], [layout.py], [segment.py], [extract.py]), of the
    mode selection and the loops of [Scribe.process_pdf] ([core.py]) and of
    the result handling of the two OCR backends ([ocr.py], [simpletex.py]),
    with the properties the design document states about them and further
    properties of the code.

    Python values are modelled as follows.
    - A [str] is a list of Unicode code points ([N]).
    - A [float] is a binary64 number ([PrimFloat.float]), with the
      operations of IEEE 754 that CPython uses.
    - An operation that can raise returns [option]; [None] stands for the
      exception.
    - The character classes of the regular-expression engines and of
      [str.strip] are Unicode tables that are no part of the repository.
      They are taken as a parameter ([CharTables]). *)

From Stdlib Require Import ZArith NArith List Bool Lia Floats Uint63.
From Stdlib Require Import Sorted Permutation Ascii String.
From Stdlib Require DecimalNat.
From stdpp Require Import base option list strings gmap.

#[local] Set Warnings "-inexact-float".
#[local] Open Scope N_scope.

(** ** Python strings *)

Module Py.

Abbreviation char := N (only parsing).
Abbreviation str := (list N) (only parsing).

(** The code point of an ASCII character, and a [str] literal. *)
Definition chr (a : ascii) : char := N_of_ascii a.
Definition lit (s : string) : str := map N_of_ascii (list_ascii_of_string s).

Definition nl : char := 10.
Definition tab : char := 9.
Definition space : char := 32.

(** The Unicode tables of the Python runtime. [isspace] is [str.isspace]
    (the characters [str.strip] removes), [re_s] and [re_d] are the classes
    [\s] and [\d] of module [re] (used by [utils.py]), and [rx_s], [rx_d] and
    [rx_w] are [\s], [\d] and [\w] of module [regex] (used by [clean.py] and
    [segment.py]). *)
Record CharTables : Type := {
  isspace : char -> bool;
  re_s : char -> bool;
  re_d : char -> bool;
  rx_s : char -> bool;
  rx_d : char -> bool;
  rx_w : char -> bool
}.

Definition in_range (lo hi c : char) : bool := (lo <=? c) && (c <=? hi).

Definition ascii_lower (c : char) : bool := in_range 97 122 c.
Definition ascii_upper (c : char) : bool := in_range 65 90 c.
Definition ascii_alpha (c : char) : bool := ascii_lower c || ascii_upper c.
Definition ascii_digit (c : char) : bool := in_range 48 57 c.
Definition ascii_alnum (c : char) : bool := ascii_alpha c || ascii_digit c.

(** [str.isspace] of CPython: the characters of bidirectional type WS, B or
    S and of category Zs. *)
Definition unicode_isspace (c : char) : bool :=
  in_range 9 13 c || in_range 28 32 c || (c =? 133) || (c =? 160)
  || (c =? 5760) || in_range 8192 8202 c || (c =? 8232) || (c =? 8233)
  || (c =? 8239) || (c =? 8287) || (c =? 12288).

(** Tables to evaluate the functions on ASCII text: the whitespace of
    [str.isspace], and the ASCII digits and word characters. They agree with
    the runtime's on the printable ASCII characters and on tab, newline,
    vertical tab, form feed and carriage return. *)
Definition basic_tables : CharTables := {|
  isspace := unicode_isspace;
  re_s := unicode_isspace;
  re_d := ascii_digit;
  rx_s := unicode_isspace;
  rx_d := ascii_digit;
  rx_w := fun c => ascii_alnum c || (c =? 95)
|}.

(** [s.lstrip()], [s.rstrip()] and [s.strip()]. *)
Fixpoint lstrip (sp : char -> bool) (s : str) : str :=
  match s with
  | c :: t => if sp c then lstrip sp t else s
  | [] => []
  end.

Fixpoint rstrip (sp : char -> bool) (s : str) : str :=
  match s with
  | [] => []
  | c :: t =>
      match rstrip sp t with
      | [] => if sp c then [] else [c]
      | r => c :: r
      end
  end.

Definition strip (sp : char -> bool) (s : str) : str := rstrip sp (lstrip sp s).

(** [s.split("\n")]: never empty, one more piece than there are newlines. *)
Fixpoint split_nl (s : str) : list str :=
  match s with
  | [] => [[]]
  | c :: t =>
      if c =? nl then [] :: split_nl t
      else match split_nl t with
           | l :: ls => (c :: l) :: ls
           | [] => [[c]]
           end
  end.

(** [sep.join(parts)]. *)
Fixpoint join (sep : str) (parts : list str) : str :=
  match parts with
  | [] => []
  | [x] => x
  | x :: rest => x ++ sep ++ join sep rest
  end.

(** [needle in s] for a two-character needle, and [s.count(c)]. *)
Fixpoint contains2 (a b : char) (s : str) : bool :=
  match s with
  | x :: ((y :: _) as t) => ((x =? a) && (y =? b)) || contains2 a b t
  | _ => false
  end.

Definition count_char (c : char) (s : str) : nat :=
  length (filter (fun x => x = c) s).

End Py.

Export Py.

(** ** Regular expressions

    The fragment of the pattern language the repository uses, with the
    backtracking semantics of the engines: [ends r cur] lists the positions
    where a match of [r] that starts at [cur] can end, in the order in which
    the engine tries them. A position is the character before it (for [^]
    and [\b]) and the text after it. Repetition ([Rep]) is over a character
    class, which is the only way the patterns of the repository repeat. *)

Module Re.

Abbreviation cursor := (option N * list N)%type (only parsing).

Inductive regex : Type :=
| Chr (c : char)                                   (* a literal character *)
| Cls (p : char -> bool)                           (* a class: [..], \s, \d *)
| Seq (r1 r2 : regex)                              (* r1 r2 *)
| Alt (r1 r2 : regex)                              (* r1|r2 *)
| Opt (r : regex)                                  (* (r)? *)
| Rep (p : char -> bool) (lo : nat) (hi : option nat)  (* [p]{lo,hi}, greedy *)
| Bol                                              (* ^ *)
| Eol                                              (* $ *)
| Wordb (w : char -> bool).                        (* \b *)

Definition plus (p : char -> bool) : regex := Rep p 1 None.
Definition star (p : char -> bool) : regex := Rep p 0 None.

(** Greedy repetition: the longest run first, then shorter ones, never
    fewer than [lo] characters. *)
Fixpoint rep_ends (p : char -> bool) (lo : nat) (hi : option nat)
    (prev : option char) (s : str) : list cursor :=
  let stop := match lo with O => [(prev, s)] | S _ => [] end in
  match hi with
  | Some O => stop
  | _ =>
      match s with
      | c :: t =>
          if p c then rep_ends p (pred lo) (pred <$> hi) (Some c) t ++ stop
          else stop
      | [] => stop
      end
  end.

Definition is_word (w : char -> bool) (c : option char) : bool :=
  match c with Some x => w x | None => false end.

Fixpoint ends (r : regex) (cur : cursor) : list cursor :=
  match r with
  | Chr c =>
      match cur.2 with
      | x :: t => if x =? c then [(Some x, t)] else []
      | [] => []
      end
  | Cls p =>
      match cur.2 with
      | x :: t => if p x then [(Some x, t)] else []
      | [] => []
      end
  | Seq r1 r2 => flat_map (ends r2) (ends r1 cur)
  | Alt r1 r2 => ends r1 cur ++ ends r2 cur
  | Opt r1 => ends r1 cur ++ [cur]
  | Rep p lo hi => rep_ends p lo hi cur.1 cur.2
  | Bol => match cur.1 with None => [cur] | Some _ => [] end
  | Eol =>
      match cur.2 with
      | [] => [cur]
      | [c] => if c =? nl then [cur] else []
      | _ => []
      end
  | Wordb w => if xorb (is_word w cur.1) (is_word w (head cur.2)) then [cur] else []
  end.

(** [re.match(r, s)] as a truth value. *)
Definition matches (r : regex) (s : str) : bool :=
  match ends r (None, s) with [] => false | _ :: _ => true end.

(** [re.fullmatch(r, s)] as a truth value. *)
Definition fullmatch (r : regex) (s : str) : bool :=
  existsb (fun c : cursor => match c.2 with [] => true | _ => false end)
          (ends r (None, s)).

(** [re.search(r, s)] as a truth value: the first position with a match. *)
Fixpoint search_from (r : regex) (prev : option char) (s : str) : bool :=
  match ends r (prev, s) with
  | _ :: _ => true
  | [] =>
      match s with
      | [] => false
      | c :: t => search_from r (Some c) t
      end
  end.

Definition search (r : regex) (s : str) : bool := search_from r None s.

(** [re.sub(r, repl, s)]: the leftmost matches, not overlapping, each
    replaced by [repl] of the matched text. [skip] counts the characters of
    the last match that are still to be passed over; an empty match is
    replaced and the scan moves on by one character. *)
Fixpoint sub_go (r : regex) (repl : str -> str) (skip : nat)
    (prev : option char) (s : str) : str :=
  match s with
  | [] =>
      match ends r (prev, []) with
      | _ :: _ => repl []
      | [] => []
      end
  | c :: t =>
      match skip with
      | S k => sub_go r repl k (Some c) t
      | O =>
          match ends r (prev, s) with
          | [] => c :: sub_go r repl 0 (Some c) t
          | (_, rest) :: _ =>
              match (length s - length rest)%nat with
              | O => repl [] ++ c :: sub_go r repl 0 (Some c) t
              | S k => repl (take (S k) s) ++ sub_go r repl k (Some c) t
              end
          end
      end
  end.

Definition sub (r : regex) (repl : str -> str) (s : str) : str :=
  sub_go r repl 0 None s.

End Re.

Export Re.

(** ** utils.py *)

Section Utils.

Variable T : CharTables.

(** [re.sub(r"\s+", " ", text or "").strip()] *)
Definition normalize_line (text : str) : str :=
  strip (isspace T) (sub (plus (re_s T)) (fun _ => [space]) text).

(** [re.sub(r"\s+", "", text or "")] *)
Definition remove_whitespace (text : str) : str :=
  sub (plus (re_s T)) (fun _ => []) text.

(** A letter under [(?i)]: none of p, a, g, e has a case variant outside
    ASCII. *)
Definition ci (lower upper : ascii) : regex :=
  Cls (fun c => (c =? chr lower) || (c =? chr upper)).

(** [\d{1,4}] *)
Definition re_short_number : regex := Rep (re_d T) 1 (Some 4%nat).

(** [(?i)page\s+\d+(\s*/\s*\d+)?] *)
Definition re_page_label : regex :=
  Seq (ci "p" "P") (Seq (ci "a" "A") (Seq (ci "g" "G") (Seq (ci "e" "E")
  (Seq (plus (re_s T)) (Seq (plus (re_d T))
  (Opt (Seq (star (re_s T)) (Seq (Chr (chr "/"))
       (Seq (star (re_s T)) (plus (re_d T))))))))))).

Definition is_page_number (text : str) : bool :=
  let stripped := normalize_line text in
  match stripped with
  | [] => false
  | _ =>
      if fullmatch re_short_number stripped then true
      else if fullmatch re_page_label stripped then true
      else false
  end.

End Utils.

(** ** clean.py: text normalization and paragraph merging *)

(** [([A-Za-z0-9])-\n([A-Za-z])] *)
Definition re_hyphen_break : regex :=
  Seq (Cls ascii_alnum) (Seq (Chr (chr "-")) (Seq (Chr nl) (Cls ascii_alpha))).

(** The replacement [\1\2]: the first and the last character of the four
    the pattern matches. *)
Definition keep_groups (m : str) : str :=
  match m with
  | [a; _; _; b] => [a; b]
  | _ => m
  end.

Definition dehyphenate_text (text : str) : str :=
  sub re_hyphen_break keep_groups text.

Definition space_or_tab (c : char) : bool := (c =? space) || (c =? tab).

(** The characters of [[。！？.!?]]. *)
Definition sentence_end (c : char) : bool :=
  (c =? 12290) || (c =? 65281) || (c =? 65311)
  || (c =? chr ".") || (c =? chr "!") || (c =? chr "?").

(** The characters of [[\-*•]]. *)
Definition bullet (c : char) : bool :=
  (c =? chr "-") || (c =? chr "*") || (c =? 8226).

(** The state of the loop of [merge_lines_into_paragraphs]: the paragraphs
    emitted so far and the buffer of pending lines. *)
Abbreviation merge_state := (list (list N) * list (list N))%type (only parsing).

Section Clean.

Variable T : CharTables.

Definition normalize_whitespace (text : str) : str :=
  let text := sub (plus space_or_tab) (fun _ => [space]) text in
  let text := sub (Seq (plus (rx_s T)) (Chr nl)) (fun _ => [nl]) text in
  let text := sub (Seq (Chr nl) (plus (rx_s T))) (fun _ => [nl]) text in
  strip (isspace T) text.

(** [re.search(r"[。！？.!?]\s*$", line)] *)
Definition _ends_sentence (line : str) : bool :=
  search (Seq (Cls sentence_end) (Seq (star (rx_s T)) Eol)) line.

(** [re.match(r"^([\-*•]|\d+\.|\d+\)|[a-zA-Z]\))\s+", text)] *)
Definition re_list_item : regex :=
  Seq Bol
    (Seq (Alt (Cls bullet)
         (Alt (Seq (plus (rx_d T)) (Chr (chr ".")))
         (Alt (Seq (plus (rx_d T)) (Chr (chr ")")))
              (Seq (Cls ascii_alpha) (Chr (chr ")"))))))
         (plus (rx_s T))).

Definition _is_list_item (text : str) : bool := matches re_list_item text.

(** [" ".join(buffer).strip()] *)
Definition buffer_text (buffer : list str) : str :=
  strip (isspace T) (join [space] buffer).

(** [if buffer: paragraphs.append(...); buffer = []] *)
Definition flush (st : merge_state) : merge_state :=
  match st.2 with
  | [] => st
  | _ :: _ => (st.1 ++ [buffer_text st.2], [])
  end.

Definition merge_step (st : merge_state) (line : str) : merge_state :=
  let stripped := strip (isspace T) line in
  match stripped with
  | [] => flush st
  | _ :: _ =>
      if _is_list_item stripped then ((flush st).1 ++ [stripped], [])
      else
        match last st.2 with
        | Some prev =>
            if _ends_sentence prev then (st.1 ++ [buffer_text st.2], [stripped])
            else (st.1, st.2 ++ [stripped])
        | None => (st.1, st.2 ++ [stripped])
        end
  end.

Definition nonempty (p : str) : bool :=
  match p with [] => false | _ :: _ => true end.

Definition merge_lines_into_paragraphs (lines : list str) : list str :=
  let st := flush (fold_left merge_step lines ([], [])) in
  List.filter nonempty st.1.

(** [remove_headers_footers] and [remove_page_number_lines] *)
Definition remove_headers_footers (lines : list str) (repeated : gset str) : list str :=
  List.filter (fun line => negb (bool_decide (normalize_line T line ∈ repeated))) lines.

Definition remove_page_number_lines (lines : list str) : list str :=
  List.filter (fun line => negb (is_page_number T line)) lines.

End Clean.

(** ** Python numbers *)

Module PyFloat.

(** [float(n)] for a non-negative [int]: exact below 2^53. *)
Definition float_of_nat (n : nat) : float :=
  PrimFloat.of_uint63 (Uint63.of_Z (Z.of_nat n)).

Definition is_zero (x : float) : bool := PrimFloat.eqb x 0%float.

Definition is_finite (x : float) : bool :=
  match Prim2SF x with
  | S754_zero _ | S754_finite _ _ _ => true
  | _ => false
  end.

(** [a / b]: [ZeroDivisionError] when [b] is zero. *)
Definition py_div (a b : float) : option float :=
  if is_zero b then None else Some (PrimFloat.div a b).

(** [x ** 2]: [OverflowError] when the square of a finite number is not
    finite ([float.__pow__] turns the range error of [pow] into the
    exception); the square of an infinity or of a NaN is returned. The
    square is taken as the correctly rounded product. The [pow] of the C
    library returns that product where the square is exact, and raises the
    range error where it overflows; where the square has to be rounded the
    two may differ in the last place. The evaluations below square only
    numbers of the first two kinds, and the general properties of
    [choose_column_count] and [order_blocks] hold of any inertias. *)
Definition py_sq (x : float) : option float :=
  let y := PrimFloat.mul x x in
  if is_finite x && negb (is_finite y) then None else Some y.

(** [int(x)]: truncation toward zero; [ValueError] on a NaN and
    [OverflowError] on an infinity. *)
Definition int_of_float (x : float) : option Z :=
  match Prim2SF x with
  | S754_zero _ => Some 0%Z
  | S754_finite sign m e =>
      let mag := if (0 <=? e)%Z then Z.shiftl (Z.pos m) e
                 else Z.shiftr (Z.pos m) (- e) in
      Some (if sign then (- mag)%Z else mag)
  | _ => None
  end.

(** [round(x)] of a float: to the nearest integer, ties to the even one. *)
Definition round_of_float (x : float) : option Z :=
  match Prim2SF x with
  | S754_zero _ => Some 0%Z
  | S754_finite sign m e =>
      let mag :=
        if (0 <=? e)%Z then Z.shiftl (Z.pos m) e
        else
          let d := Z.shiftl 1 (- e) in
          let q := (Z.pos m / d)%Z in
          let r := (Z.pos m mod d)%Z in
          match (2 * r ?= d)%Z with
          | Lt => q
          | Gt => (q + 1)%Z
          | Eq => if Z.even q then q else (q + 1)%Z
          end in
      Some (if sign then (- mag)%Z else mag)
  | _ => None
  end.

(** [sum(values)]: the additions from left to right, from 0. (CPython 3.12
    and later compensate the rounding errors of the partial sums; the two
    agree whenever the partial sums are exact.) *)
Definition fsum (values : list float) : float :=
  fold_left PrimFloat.add values 0%float.

(** The truth value of an [Optional[float]]: [None] and zero are false. *)
Definition truthy (x : option float) : bool :=
  match x with
  | Some v => negb (is_zero v)
  | None => false
  end.

(** [sorted(items, key=...)] on items already paired with their keys: the
    stable sort by [<] on the keys. (This is the order of [list.sort] for
    keys that [<] orders totally, that is when no key is a NaN.) *)
Fixpoint insert_keyed {A : Type} (x : float * A) (l : list (float * A))
    : list (float * A) :=
  match l with
  | [] => [x]
  | y :: l' =>
      if PrimFloat.ltb y.1 x.1 then y :: insert_keyed x l' else x :: l
  end.

Definition sort_keyed {A : Type} (l : list (float * A)) : list (float * A) :=
  foldr insert_keyed [] l.

Definition sorted_by {A : Type} (key : A -> float) (l : list A) : list A :=
  map snd (sort_keyed (map (fun a => (key a, a)) l)).

(** The same when computing a key can raise: the keys are computed first. *)
Definition sorted_by_opt {A : Type} (key : A -> option float) (l : list A)
    : option (list A) :=
  keys ← mapM key l;
  Some (map snd (sort_keyed (zip keys l))).

End PyFloat.

Export PyFloat.

(** ** The data model *)

Record bbox : Type := { x0 : float; y0 : float; x1 : float; y1 : float }.

Record line : Type := { line_text : str; line_bbox : option bbox }.

Inductive block_kind : Type := KText | KOcr.

Record block : Type := {
  block_bbox : option bbox;
  block_text : str;
  avg_size : option float;
  block_type : block_kind;
  math_hint : bool
}.

(** [(x.get("bbox") or [0, 0, 0, 0])[1]] *)
Definition top_or_zero (b : option bbox) : float :=
  match b with
  | Some bb => y0 bb
  | None => 0%float
  end.


(** ** layout.py: reading-order reconstruction *)

(** [l[i]] for an [int] index: a negative index counts from the end, and an
    index out of range raises [IndexError]. *)
Definition py_index {A : Type} (l : list A) (i : Z) : option A :=
  if (0 <=? i)%Z then l !! Z.to_nat i
  else if (- Z.of_nat (length l) <=? i)%Z then l !! Z.to_nat (Z.of_nat (length l) + i)
  else None.

(** [abs(v - centroids[i])] *)
Definition dist (centroids : list float) (v : float) (i : nat) : option float :=
  c ← centroids !! i;
  Some (PrimFloat.abs (PrimFloat.sub v c)).

(** [min(range(k), key=lambda i: abs(v - centroids[i]))]: the first index
    whose key is the least; [ValueError] on an empty range. *)
Fixpoint nearest_from (centroids : list float) (v : float)
    (best : nat) (best_d : float) (rest : list nat) : option nat :=
  match rest with
  | [] => Some best
  | i :: rest' =>
      d ← dist centroids v i;
      if PrimFloat.ltb d best_d then nearest_from centroids v i d rest'
      else nearest_from centroids v best best_d rest'
  end.

Definition nearest (centroids : list float) (k : nat) (v : float) : option nat :=
  match seq 0 k with
  | [] => None
  | i0 :: rest =>
      d0 ← dist centroids v i0;
      nearest_from centroids v i0 d0 rest
  end.

(** [[sorted_vals[int(i * (len(sorted_vals) - 1) / (k - 1))] for i in range(k)]]:
    the quotient of two [int]s is the float nearest to it, which for
    operands below 2^53 is the quotient of their conversions. *)
Definition initial_centroids (sorted_vals : list float) (k : nat)
    : option (list float) :=
  mapM (fun i : nat =>
          q ← py_div (float_of_nat (i * (length sorted_vals - 1)))
                     (float_of_nat (k - 1));
          idx ← int_of_float q;
          py_index sorted_vals idx)
       (seq 0 k).

(** [clusters[idx].append(v)] for every value in turn. *)
Fixpoint assign_clusters (centroids : list float) (k : nat)
    (clusters : list (list float)) (values : list float)
    : option (list (list float)) :=
  match values with
  | [] => Some clusters
  | v :: vs =>
      idx ← nearest centroids k v;
      c ← clusters !! idx;
      assign_clusters centroids k (<[idx := c ++ [v]]> clusters) vs
  end.

Definition update_centroids (centroids : list float)
    (clusters : list (list float)) (k : nat) : option (list float) :=
  mapM (fun i : nat =>
          cl ← clusters !! i;
          match cl with
          | [] => centroids !! i
          | _ :: _ => py_div (fsum cl) (float_of_nat (length cl))
          end)
       (seq 0 k).

(** [new_centroids == centroids] *)
Fixpoint floats_eq (a b : list float) : bool :=
  match a, b with
  | [], [] => true
  | x :: a', y :: b' => PrimFloat.eqb x y && floats_eq a' b'
  | _, _ => false
  end.

Fixpoint iterate (iterations : nat) (values : list float) (k : nat)
    (centroids : list float) : option (list float) :=
  match iterations with
  | O => Some centroids
  | S n =>
      clusters ← assign_clusters centroids k (replicate k []) values;
      new_centroids ← update_centroids centroids clusters k;
      if floats_eq new_centroids centroids then Some centroids
      else iterate n values k new_centroids
  end.

Definition _kmeans_1d (values : list float) (k : nat) (iterations : nat)
    : option (list nat * list float) :=
  match values with
  | [] => Some ([], [])
  | _ :: _ =>
      let sorted_vals := sorted_by (fun v => v) values in
      if (k =? 1)%nat then
        centroid ← py_div (fsum values) (float_of_nat (length values));
        Some (replicate (length values) 0%nat, [centroid])
      else
        centroids ← initial_centroids sorted_vals k;
        centroids ← iterate iterations values k centroids;
        assignments ← mapM (nearest centroids k) values;
        Some (assignments, centroids)
  end.

(** [total += (v - centroids[idx]) ** 2] over [zip(values, assignments)]. *)
Fixpoint inertia_go (total : float) (pairs : list (float * nat))
    (centroids : list float) : option float :=
  match pairs with
  | [] => Some total
  | (v, idx) :: rest =>
      c ← centroids !! idx;
      sq ← py_sq (PrimFloat.sub v c);
      inertia_go (PrimFloat.add total sq) rest centroids
  end.

Definition _inertia (values : list float) (assignments : list nat)
    (centroids : list float) : option float :=
  match values with
  | [] => Some 0%float
  | _ :: _ => inertia_go 0%float (zip values assignments) centroids
  end.

(** The elbow loop of [choose_column_count]. *)
Fixpoint elbow (inertias : list float) (chosen : nat) (ks : list nat)
    : option nat :=
  match ks with
  | [] => Some chosen
  | k :: rest =>
      base ← inertias !! (k - 1)%nat;
      next_val ← inertias !! k;
      improvement ←
        (if PrimFloat.ltb 0%float base
         then py_div (PrimFloat.sub base next_val) base
         else Some 0%float);
      if PrimFloat.leb 0.2%float improvement
      then elbow inertias (k + 1)%nat rest
      else Some chosen
  end.

Definition choose_column_count (x0s : list float) (max_k : nat) : option nat :=
  if (length x0s <? 4)%nat then Some 1%nat
  else
    inertias ← mapM (fun k : nat =>
                       r ← _kmeans_1d x0s k 12;
                       _inertia x0s r.1 r.2)
                    (seq 1 max_k);
    elbow inertias 1%nat (seq 1 (max_k - 1)).

(** The first loop of [order_blocks]: full-width blocks apart. *)
Definition is_full_width (page_width : float) (b : block) : option bool :=
  match block_bbox b with
  | Some bb =>
      let width := PrimFloat.sub (x1 bb) (x0 bb) in
      if PrimFloat.ltb 0%float page_width then
        q ← py_div width page_width;
        Some (PrimFloat.leb 0.7%float q)
      else Some false
  | None => Some false
  end.

Fixpoint split_titles (page_width : float) (blocks : list block)
    (title_blocks regular_blocks : list block)
    : option (list block * list block) :=
  match blocks with
  | [] => Some (title_blocks, regular_blocks)
  | b :: rest =>
      t ← is_full_width page_width b;
      if t : bool then split_titles page_width rest (title_blocks ++ [b]) regular_blocks
      else split_titles page_width rest title_blocks (regular_blocks ++ [b])
  end.

(** The loop that fills the columns: a block without a bounding box is
    passed over. *)
Fixpoint fill_columns (columns : list (list block)) (assignments : list nat)
    (idx : nat) (blocks : list block) : option (list (list block)) :=
  match blocks with
  | [] => Some columns
  | b :: rest =>
      match block_bbox b with
      | None => fill_columns columns assignments idx rest
      | Some _ =>
          a ← assignments !! idx;
          col ← columns !! a;
          fill_columns (<[a := col ++ [b]]> columns) assignments (S idx) rest
      end
  end.

Definition order_blocks (blocks : list block) (page_width : float)
    : option (list block) :=
  match blocks with
  | [] => Some []
  | _ :: _ =>
      parts ← split_titles page_width blocks [] [];
      let title_blocks := sorted_by (fun b => top_or_zero (block_bbox b)) parts.1 in
      let regular_blocks := parts.2 in
      let x0s := omap (fun b => x0 <$> block_bbox b) regular_blocks in
      match x0s with
      | [] => Some (title_blocks ++ regular_blocks)
      | _ :: _ =>
          k ← choose_column_count x0s 3;
          r ← _kmeans_1d x0s k 12;
          let assignments := r.1 in
          let centroids := r.2 in
          columns ← fill_columns (replicate k []) assignments 0 regular_blocks;
          columns ← mapM (sorted_by_opt (fun b => y0 <$> block_bbox b)) columns;
          ordered_columns ←
            sorted_by_opt (fun item : nat * list block => centroids !! item.1)
                          (zip (seq 0 k) columns);
          Some (title_blocks ++ concat (map snd ordered_columns))
      end
  end.


(** ** segment.py: role classification *)

Inductive role : Type :=
| Unknown | Header | MathComplex | Math | ListItem | TableLike | Title | Paragraph.

(** The label the code returns for each role. *)
Definition role_name (r : role) : string :=
  match r with
  | Unknown => "unknown"
  | Header => "header"
  | MathComplex => "math_complex"
  | Math => "math"
  | ListItem => "list_item"
  | TableLike => "table_like"
  | Title => "title"
  | Paragraph => "paragraph"
  end.

(** The characters of [[=<>±×÷∑∫√∞≈≠≤≥πθλμΩαβγδΔΣ∏∂]]. *)
Definition math_symbol (c : char) : bool :=
  existsb (N.eqb c)
    [61; 60; 62; 177; 215; 247; 8721; 8747; 8730; 8734; 8776; 8800; 8804;
     8805; 960; 952; 955; 956; 937; 945; 946; 947; 948; 916; 931; 8719; 8706].

(** A literal word as a pattern. *)
Fixpoint word (s : str) : regex :=
  match s with
  | [] => Opt (Cls (fun _ => false))
  | [c] => Chr c
  | c :: t => Seq (Chr c) (word t)
  end.

Section Segment.

Variable T : CharTables.

(** [re.search(r"\d+\s+\d+\s+\d+", text)] *)
Definition re_three_numbers : regex :=
  Seq (plus (rx_d T)) (Seq (plus (rx_s T)) (Seq (plus (rx_d T))
  (Seq (plus (rx_s T)) (plus (rx_d T))))).

Definition _is_table_like (text : str) : bool :=
  if contains2 space space text then true
  else if search re_three_numbers text then true
  else if (2 <=? count_char (chr "|") text)%nat then true
  else false.

(** [[_^]\{], [\b(sin|cos|tan|log|ln|exp)\b] and [\d+/\d+] *)
Definition re_script : regex :=
  Seq (Cls (fun c => (c =? chr "_") || (c =? chr "^"))) (Chr (chr "{")).

Definition re_function_name : regex :=
  Seq (Wordb (rx_w T))
    (Seq (Alt (word (lit "sin")) (Alt (word (lit "cos")) (Alt (word (lit "tan"))
         (Alt (word (lit "log")) (Alt (word (lit "ln")) (word (lit "exp")))))))
         (Wordb (rx_w T))).

Definition re_fraction : regex :=
  Seq (plus (rx_d T)) (Seq (Chr (chr "/")) (plus (rx_d T))).

Definition _math_score (text : str) : nat :=
  let score := 0%nat in
  let score := if search re_script text then (score + 2)%nat else score in
  let score := if search (Cls math_symbol) text then (score + 2)%nat else score in
  let score := if search re_function_name text then (score + 1)%nat else score in
  let score := if search re_fraction text then (score + 1)%nat else score in
  score.

Definition classify_role (text : str) (avg_size page_median_size : option float)
    (page_width : float) (bbox : option bbox)
    (repeated_headers_footers : gset str) (math_hint : bool) : option role :=
  let norm := normalize_line T text in
  match norm with
  | [] => Some Unknown
  | _ :: _ =>
      if bool_decide (norm ∈ repeated_headers_footers) then Some Header
      else
        let math_score := _math_score norm in
        if math_hint || (2 <=? math_score)%nat then
          if (4 <=? math_score)%nat then Some MathComplex else Some Math
        else if _is_list_item T norm then Some ListItem
        else if _is_table_like norm then Some TableLike
        else
          let big :=
            match avg_size, page_median_size with
            | Some a, Some m =>
                truthy avg_size && truthy page_median_size
                && PrimFloat.ltb (PrimFloat.mul m 1.3%float) a
            | _, _ => false
            end in
          if big && (length norm <=? 80)%nat then Some Title
          else
            match bbox with
            | Some bb =>
                if PrimFloat.ltb 0%float page_width then
                  let width := PrimFloat.sub (x1 bb) (x0 bb) in
                  q ← py_div width page_width;
                  if PrimFloat.leb 0.7%float q && (length norm <=? 120)%nat
                  then Some Title
                  else Some Paragraph
                else Some Paragraph
            | None => Some Paragraph
            end
  end.

(** [merge_lines_into_paragraphs(text.split("\n"))] *)
Definition split_block_to_paragraphs (text : str) : list str :=
  merge_lines_into_paragraphs T (split_nl text).

End Segment.


(** ** clean.py: repeated headers and footers *)

(** [l[:n]] and, for a positive [n], [l[-n:]]. *)
Definition py_take {A : Type} (n : Z) (l : list A) : list A :=
  if (0 <=? n)%Z then take (Z.to_nat n) l
  else take (length l - Z.to_nat (- n)) l.

Definition py_last {A : Type} (n : Z) (l : list A) : list A :=
  drop (length l - Z.to_nat n) l.

Section Detect.

Variable T : CharTables.

(** The header and footer lines of one page: [header_lines + footer_lines],
    or nothing when the page is skipped. *)
Definition page_candidates (header_max_lines footer_max_lines : Z)
    (lines : list line) : list line :=
  match lines with
  | [] => []
  | _ :: _ =>
      let sorted_lines := sorted_by (fun l => top_or_zero (line_bbox l)) lines in
      if (Z.of_nat (length sorted_lines) <=? header_max_lines + footer_max_lines)%Z
      then []
      else
        let header_lines := py_take header_max_lines sorted_lines in
        let footer_lines :=
          if (0 <? footer_max_lines)%Z then py_last footer_max_lines sorted_lines
          else [] in
        header_lines ++ footer_lines
  end.

(** [counts[text] = counts.get(text, 0) + 1], unless [text] is empty. *)
Definition count_line (counts : gmap str nat) (l : line) : gmap str nat :=
  let text := normalize_line T (line_text l) in
  match text with
  | [] => counts
  | _ :: _ => <[text := (default 0%nat (counts !! text) + 1)%nat]> counts
  end.

Definition count_page (header_max_lines footer_max_lines : Z)
    (counts : gmap str nat) (lines : list line) : gmap str nat :=
  fold_left count_line (page_candidates header_max_lines footer_max_lines lines) counts.

(** [max(2, int(total_pages * min_repetition_ratio + 0.5))] *)
Definition repetition_threshold (total_pages : nat) (min_repetition_ratio : float)
    : option Z :=
  t ← int_of_float
        (PrimFloat.add (PrimFloat.mul (float_of_nat total_pages) min_repetition_ratio)
                       0.5%float);
  Some (Z.max 2 t).

Definition detect_header_footer_lines (pages_lines : list (list line))
    (header_max_lines footer_max_lines : Z) (min_repetition_ratio : float)
    : option (gset str) :=
  let total_pages := length pages_lines in
  if (total_pages =? 0)%nat then Some ∅
  else
    let counts :=
      fold_left (count_page header_max_lines footer_max_lines) pages_lines ∅ in
    threshold ← repetition_threshold total_pages min_repetition_ratio;
    if (total_pages <? 2)%nat then Some ∅
    else
      Some (dom (filter (fun kv : str * nat => (threshold <= Z.of_nat kv.2)%Z) counts)).

End Detect.

(** ** utils.py and core.py: segment identifiers and the segment loop *)

Fixpoint uint_str (d : Decimal.uint) : str :=
  match d with
  | Decimal.Nil => []
  | Decimal.D0 d => 48 :: uint_str d
  | Decimal.D1 d => 49 :: uint_str d
  | Decimal.D2 d => 50 :: uint_str d
  | Decimal.D3 d => 51 :: uint_str d
  | Decimal.D4 d => 52 :: uint_str d
  | Decimal.D5 d => 53 :: uint_str d
  | Decimal.D6 d => 54 :: uint_str d
  | Decimal.D7 d => 55 :: uint_str d
  | Decimal.D8 d => 56 :: uint_str d
  | Decimal.D9 d => 57 :: uint_str d
  end.

(** [str(n)] for a non-negative [int]. *)
Definition decimal (n : nat) : str := uint_str (Nat.to_uint n).

(** [f"{n:03d}"] for a non-negative [int]: at least three digits. *)
Definition format_03d (n : nat) : str :=
  let digits := decimal n in
  replicate (3 - length digits) (chr "0") ++ digits.

(** [f"{doc_id}-p{page:03d}-s{index:03d}"] *)
Definition segment_id (doc_id : str) (page index : nat) : str :=
  doc_id ++ lit "-p" ++ format_03d page ++ lit "-s" ++ format_03d index.

Module ScribeOptions.
Record t : Type := {
  multicolumn : bool;
  remove_headers_footers : bool;
  header_max_lines : Z;
  footer_max_lines : Z;
  min_repetition_ratio : float;
  remove_page_numbers : bool;
  dehyphenate : bool;
  normalize_whitespace : bool;
  merge_paragraphs : bool
}.
End ScribeOptions.

(** An entry of [pages_data]. *)
Record page : Type := {
  page_num : nat;
  page_width : float;
  page_blocks : list block;
  page_lines : list line;
  source_mode : str;
  confidence : option float
}.

(** A segment record. *)
Record segment : Type := {
  seg_doc_id : str;
  seg_page : nat;
  seg_segment_id : str;
  seg_role : role;
  seg_bbox : option bbox;
  seg_text : str;
  seg_source_mode : str;
  seg_confidence : option float
}.

(** A fold whose step can raise. *)
Fixpoint foldM {A S : Type} (f : S -> A -> option S) (l : list A) (s : S)
    : option S :=
  match l with
  | [] => Some s
  | a :: l' => s' ← f s a; foldM f l' s'
  end.

(** The variables the loops of [process_pdf] update: the segments of the
    document, the paragraphs of the page and the next index on the page. *)
Record emit_state : Type := {
  segments : list segment;
  page_paragraphs : list str;
  segment_index : nat
}.

Section Core.

Variable T : CharTables.
Variable opts : ScribeOptions.t.
Variable doc_id : str.
Variable repeated_lines : gset str.

(** The body of [for paragraph in paragraphs]. *)
Definition emit_paragraph (pg : page) (median_size : option float) (blk : block)
    (st : emit_state) (paragraph : str) : option emit_state :=
  let paragraph :=
    if ScribeOptions.normalize_whitespace opts
    then normalize_whitespace T paragraph else paragraph in
  match paragraph with
  | [] => Some st
  | _ :: _ =>
      r ← classify_role T paragraph (avg_size blk) median_size (page_width pg)
            (block_bbox blk) repeated_lines (math_hint blk);
      Some {| segments :=
                segments st ++
                [{| seg_doc_id := doc_id;
                    seg_page := page_num pg;
                    seg_segment_id := segment_id doc_id (page_num pg) (segment_index st);
                    seg_role := r;
                    seg_bbox := block_bbox blk;
                    seg_text := paragraph;
                    seg_source_mode := source_mode pg;
                    seg_confidence := confidence pg |}];
              page_paragraphs := page_paragraphs st ++ [paragraph];
              segment_index := S (segment_index st) |}
  end.

(** The lines of a block that are kept. *)
Definition kept_lines (text : str) : list str :=
  let lines := split_nl text in
  let lines :=
    if ScribeOptions.remove_headers_footers opts
       && negb (bool_decide (repeated_lines = ∅))
    then List.filter
           (fun l => negb (bool_decide (normalize_line T l ∈ repeated_lines))) lines
    else lines in
  if ScribeOptions.remove_page_numbers opts
  then List.filter (fun l => negb (is_page_number T (normalize_line T l))) lines
  else lines.

(** The body of [for block in blocks]. *)
Definition emit_block (pg : page) (median_size : option float)
    (st : emit_state) (blk : block) : option emit_state :=
  match block_text blk with
  | [] => Some st
  | _ :: _ =>
      let text := join [nl] (kept_lines (block_text blk)) in
      match strip (isspace T) text with
      | [] => Some st
      | _ :: _ =>
          let text := if ScribeOptions.dehyphenate opts then dehyphenate_text text else text in
          let paragraphs :=
            if ScribeOptions.merge_paragraphs opts
            then split_block_to_paragraphs T text else [text] in
          foldM (emit_paragraph pg median_size blk) paragraphs st
      end
  end.

(** [font_sizes_sorted[len(font_sizes_sorted) // 2]], or [None]. *)
Definition median_font_size (blocks : list block) : option float :=
  let font_sizes :=
    omap (fun b => if truthy (avg_size b) then avg_size b else None) blocks in
  let font_sizes_sorted := sorted_by (fun v => v) font_sizes in
  font_sizes_sorted !! (length font_sizes_sorted / 2)%nat.

(** The body of [for page in pages_data]; the segments of the document
    are carried through, the page's paragraphs and index start afresh. *)
Definition emit_page (segs : list segment) (pg : page) : option (list segment) :=
  blocks ←
    (if ScribeOptions.multicolumn opts
        && existsb (fun b => bool_decide (is_Some (block_bbox b))) (page_blocks pg)
     then order_blocks (page_blocks pg) (page_width pg)
     else Some (page_blocks pg));
  let median_size := median_font_size blocks in
  st ← foldM (emit_block pg median_size) blocks
        {| segments := segs; page_paragraphs := []; segment_index := 1 |};
  Some (segments st).

End Core.

(** The two passes of [Scribe.process_pdf] in local mode, from the
    extracted [pages_data] on: the repeated lines of the document, then the
    segments page by page. (Opening the file, OCR and the output files are
    outside the model.) *)
Definition repeated_of (T : CharTables) (opts : ScribeOptions.t)
    (pages_data : list page) : option (gset str) :=
  if ScribeOptions.remove_headers_footers opts then
    detect_header_footer_lines T
      (map (fun pg => List.filter (fun l => bool_decide (is_Some (line_bbox l)))
                        (page_lines pg)) pages_data)
      (ScribeOptions.header_max_lines opts)
      (ScribeOptions.footer_max_lines opts)
      (ScribeOptions.min_repetition_ratio opts)
  else Some ∅.

Definition process_pdf (T : CharTables) (opts : ScribeOptions.t)
    (doc_id : str) (pages_data : list page) : option (list segment) :=
  repeated_lines ← repeated_of T opts pages_data;
  foldM (emit_page T opts doc_id repeated_lines) pages_data [].

(** ** extract.py: blocks, lines and text of a PyMuPDF page *)

(** The page dictionary of [page.get_text("dict")], as far as the code
    reads it. A span without a ["text"] has the empty text; a block whose
    ["type"] is missing has a type that is neither 0 nor 1. *)
Record span : Type := {
  span_text : str;
  span_bbox : option bbox;
  span_size : option float
}.

Record pdf_line : Type := {
  line_spans : list span;
  pdf_line_bbox : option bbox
}.

Record pdf_block : Type := {
  pdf_type : Z;
  pdf_lines : list pdf_line;
  pdf_bbox : option bbox
}.

(** [x.get("bbox") or [0, 0, 0, 0]] *)
Definition bbox_or_zero (b : option bbox) : bbox :=
  match b with
  | Some bb => bb
  | None => {| x0 := 0; y0 := 0; x1 := 0; y1 := 0 |}
  end.

(** [(b[1] + b[3]) / 2 if b[3] > b[1] else b[1]] *)
Definition center (b : bbox) : float :=
  if PrimFloat.ltb (y0 b) (y1 b)
  then PrimFloat.div (PrimFloat.add (y0 b) (y1 b)) 2
  else y0 b.

(** [max(1.0, x)]: the first of the two unless the second is greater. *)
Definition max_one (x : float) : float :=
  if PrimFloat.ltb 1 x then x else 1%float.

(** What a span adds to [parts] and to [has_script]; nothing when its text
    is empty. *)
Definition span_part (line_center line_height : float) (s : span)
    : option (str * bool) :=
  match span_text s with
  | [] => Some ([], false)
  | text =>
      let span_center := center (bbox_or_zero (span_bbox s)) in
      offset ← py_div (PrimFloat.sub line_center span_center) line_height;
      if PrimFloat.ltb 0.25 offset
      then Some (lit "^{" ++ text ++ lit "}", true)
      else if PrimFloat.ltb offset (-0.25)
      then Some (lit "_{" ++ text ++ lit "}", true)
      else Some (text, false)
  end.

Definition _reconstruct_line (l : pdf_line) : option (str * bool) :=
  match line_spans l with
  | [] => Some ([], false)
  | spans =>
      let line_bbox := bbox_or_zero (pdf_line_bbox l) in
      let line_center := center line_bbox in
      let line_height := max_one (PrimFloat.sub (y1 line_bbox) (y0 line_bbox)) in
      parts ← mapM (span_part line_center line_height) spans;
      Some (concat (map fst parts), existsb snd parts)
  end.

(** The sizes of the spans that have one. *)
Definition line_sizes (l : pdf_line) : list float := omap span_size (line_spans l).

Section Extract.

Variable T : CharTables.

(** The body of the loop of [extract_blocks] for a text block: the block
    it appends, if any. *)
Definition extract_block (b : pdf_block) : option (option block) :=
  recs ← mapM _reconstruct_line (pdf_lines b);
  let lines := List.filter nonempty (map fst recs) in
  let has_script := existsb snd recs in
  let font_sizes := concat (map line_sizes (pdf_lines b)) in
  let text := strip (isspace T) (join [nl] lines) in
  match text with
  | [] => Some None
  | _ :: _ =>
      avg ← match font_sizes with
            | [] => Some None
            | _ :: _ => Some <$> py_div (fsum font_sizes)
                                        (float_of_nat (length font_sizes))
            end;
      let math_hint := if has_script then true else search (Cls math_symbol) text in
      Some (Some {| block_bbox := pdf_bbox b; block_text := text; avg_size := avg;
                    block_type := KText; math_hint := math_hint |})
  end.

(** [extract_blocks]: the blocks, and the counts of [stats]. *)
Record block_stats : Type := { text_blocks : nat; image_blocks : nat }.

Fixpoint extract_blocks_from (page_blocks : list pdf_block)
    (blocks : list block) (stats : block_stats) : option (list block * block_stats) :=
  match page_blocks with
  | [] => Some (blocks, stats)
  | b :: rest =>
      if (pdf_type b =? 0)%Z then
        r ← extract_block b;
        extract_blocks_from rest
          (match r with Some blk => blocks ++ [blk] | None => blocks end)
          {| text_blocks := S (text_blocks stats); image_blocks := image_blocks stats |}
      else if (pdf_type b =? 1)%Z then
        extract_blocks_from rest blocks
          {| text_blocks := text_blocks stats; image_blocks := S (image_blocks stats) |}
      else extract_blocks_from rest blocks stats
  end.

Definition extract_blocks (page_blocks : list pdf_block)
    : option (list block * block_stats) :=
  extract_blocks_from page_blocks [] {| text_blocks := 0; image_blocks := 0 |}.

(** [extract_lines] *)
Definition extract_line (b : pdf_block) (l : pdf_line) : option (list line) :=
  r ← _reconstruct_line l;
  match r.1 with
  | [] => Some []
  | line_text =>
      Some [{| line_text := normalize_line T line_text;
               line_bbox := match pdf_line_bbox l with
                            | Some bb => Some bb
                            | None => pdf_bbox b
                            end |}]
  end.

Definition extract_lines (page_blocks : list pdf_block) : option (list line) :=
  per_block ← mapM (fun b : pdf_block =>
                      if (pdf_type b =? 0)%Z
                      then per_line ← mapM (extract_line b) (pdf_lines b);
                           Some (concat per_line)
                      else Some [])
                   page_blocks;
  Some (concat per_block).

End Extract.

(** [extract_page_text]: the lines that are joined, and the text. *)
Definition plain_line (l : pdf_line) : str := concat (map span_text (line_spans l)).

Definition page_text_lines (page_blocks : list pdf_block) : list str :=
  flat_map (fun b : pdf_block =>
              if (pdf_type b =? 0)%Z
              then List.filter nonempty (map plain_line (pdf_lines b))
              else [])
           page_blocks.

Definition extract_page_text (page_blocks : list pdf_block) : str :=
  join [nl] (page_text_lines page_blocks).

(** ** ocr.py: the result of an image *)

(** A line that PaddleOCR reports: its text and its confidence, [None]
    when [safe_float] makes no number of it. *)
Record ocr_line : Type := { ocr_text : str; ocr_conf : option float }.

Definition ocr_block (text : str) : block :=
  {| block_bbox := None; block_text := text; avg_size := None;
     block_type := KOcr; math_hint := false |}.

Definition _ocr_image_array (results : list ocr_line)
    : option (str * option float * list block) :=
  let lines := List.filter nonempty (map ocr_text results) in
  let confs := omap ocr_conf results in
  let blocks := map (fun l => ocr_block (ocr_text l)) results in
  confidence ← match confs with
               | [] => Some None
               | _ :: _ => Some <$> py_div (fsum confs) (float_of_nat (length confs))
               end;
  Some (join [nl] lines, confidence, blocks).

(** [ocr_images_parallel]: an image is given by what the engine reads in
    it. *)
Definition ocr_images_parallel (images : list (list ocr_line))
    : option (list (str * option float * list block)) :=
  mapM _ocr_image_array images.

(** ** core.py: the mode, the page scan and the OCR pass of [process_pdf] *)

(** The options these steps read. *)
Module RunOptions.
Record t : Type := {
  mode : str;
  simpletex_token : option str;
  enable_ocr : bool;
  max_ocr_pages : option Z;
  max_pages_ocr : option Z
}.
End RunOptions.

(** What the steps find outside the program: whether the input file is
    there and opens, and whether the optional packages can be imported. *)
Record environment : Type := {
  path_exists : bool;
  simpletex_available : bool;
  ocr_available : bool;
  pdf_opens : bool
}.

Inductive failure : Type :=
| FileNotFound             (* FileNotFoundError: Input PDF not found *)
| SimpleTexDepsMissing     (* RuntimeError: SimpleTex dependencies missing *)
| SimpleTexTokenMissing    (* RuntimeError: SimpleTex token missing *)
| OpenFailed.              (* RuntimeError: Failed to open PDF *)

(** The truth value of an [Optional[str]]. *)
Definition truthy_str (s : option str) : bool :=
  match s with
  | Some (_ :: _) => true
  | _ => false
  end.

Definition mode_local : str := lit "local".
Definition mode_simpletex : str := lit "simpletex_markdown".
Definition mode_auto : str := lit "auto".

(** The variables the first part of [process_pdf] sets. *)
Record plan : Type := {
  plan_mode : str;
  plan_ocr_enabled : bool;
  plan_warnings : list str
}.

(** [opts.mode or "local"] *)
Definition mode_or_local (mode : str) : str :=
  match mode with
  | [] => mode_local
  | _ :: _ => mode
  end.

Definition resolve_mode (env : environment) (opts : RunOptions.t) : failure + plan :=
  if negb (path_exists env) then inl FileNotFound
  else
    let warnings : list str := [] in
    let mode := mode_or_local (RunOptions.mode opts) in
    let '(mode, warnings) :=
      if bool_decide (mode = mode_local) || bool_decide (mode = mode_simpletex)
         || bool_decide (mode = mode_auto)
      then (mode, warnings)
      else (mode_local,
            warnings ++ [lit "Unknown mode " ++ mode ++ lit ", falling back to local."]) in
    if bool_decide (mode = mode_simpletex) && negb (simpletex_available env)
    then inl SimpleTexDepsMissing
    else if bool_decide (mode = mode_simpletex)
            && negb (truthy_str (RunOptions.simpletex_token opts))
    then inl SimpleTexTokenMissing
    else
      let '(mode, warnings) :=
        if bool_decide (mode = mode_auto) && negb (simpletex_available env)
        then (mode_local,
              warnings ++ [lit "SimpleTex dependencies missing; falling back to local."])
        else (mode, warnings) in
      let '(mode, warnings) :=
        if bool_decide (mode = mode_auto)
           && negb (truthy_str (RunOptions.simpletex_token opts))
        then (mode_local,
              warnings ++ [lit "SimpleTex token missing; falling back to local."])
        else (mode, warnings) in
      let '(ocr_enabled, warnings) :=
        if RunOptions.enable_ocr opts && negb (ocr_available env)
        then (false, warnings ++ [lit "PaddleOCR not available; OCR disabled."])
        else (RunOptions.enable_ocr opts, warnings) in
      if negb (pdf_opens env) then inl OpenFailed
      else
        let '(mode, warnings) :=
          if bool_decide (mode = mode_auto)
             && truthy_str (RunOptions.simpletex_token opts)
             && simpletex_available env && negb ocr_enabled
          then (mode_simpletex,
                warnings ++ [lit "Auto mode switched to SimpleTex because OCR is disabled."])
          else (mode, warnings) in
        inr {| plan_mode := mode; plan_ocr_enabled := ocr_enabled;
               plan_warnings := warnings |}.

(** The guards of [_process_simpletex]. *)
Definition simpletex_guards (env : environment) (opts : RunOptions.t) : option failure :=
  if negb (simpletex_available env) then Some SimpleTexDepsMissing
  else if negb (truthy_str (RunOptions.simpletex_token opts))
  then Some SimpleTexTokenMissing
  else None.

(** A page of the document: its width, its dictionary, and what becomes of
    rendering it for OCR: the exception's message, or the lines the engine
    reads in the image. *)
Record raw_page : Type := {
  raw_width : float;
  raw_dict : list pdf_block;
  rendering : str + list ocr_line
}.

Definition mode_text : str := lit "extract:text".
Definition mode_pending : str := lit "ocr:pending".
Definition mode_failed : str := lit "extract:failed_ocr".
Definition mode_paddle : str := lit "ocr:paddle".

(** The variables of the page loop. *)
Record scan_state : Type := {
  pages_data : list page;
  ocr_images : list (list ocr_line);
  ocr_indices : list nat;
  ocr_pages_used : nat;
  warnings : list str
}.

Section Scan.

Variable T : CharTables.
Variable ocr_enabled : bool.
Variable max_ocr_pages : option Z.

Definition is_scanned (page_text : str) (stats : block_stats) : bool :=
  (length (remove_whitespace T page_text) <? 15)%nat
  || ((text_blocks stats <=? 1)%nat && (0 <? image_blocks stats)%nat).

(** The body of [for page_index in range(doc.page_count)]. *)
Definition scan_page (st : scan_state) (page_index : nat) (rp : raw_page)
    : option scan_state :=
  let page_text := extract_page_text (raw_dict rp) in
  r ← extract_blocks T (raw_dict rp);
  lines ← extract_lines T (raw_dict rp);
  let scanned := is_scanned page_text r.2 in
  let number := decimal (page_index + 1) in
  let record (source_mode : str) : page :=
    {| page_num := (page_index + 1)%nat; page_width := raw_width rp;
       page_blocks := r.1; page_lines := lines;
       source_mode := source_mode; confidence := None |} in
  if scanned && ocr_enabled then
    if match max_ocr_pages with
       | None => true
       | Some m => (Z.of_nat (ocr_pages_used st) <? m)%Z
       end
    then
      match rendering rp with
      | inr image =>
          Some {| pages_data := pages_data st ++ [record mode_pending];
                  ocr_images := ocr_images st ++ [image];
                  ocr_indices := ocr_indices st ++ [page_index];
                  ocr_pages_used := S (ocr_pages_used st);
                  warnings := warnings st |}
      | inl exc =>
          Some {| pages_data := pages_data st ++ [record mode_failed];
                  ocr_images := ocr_images st;
                  ocr_indices := ocr_indices st;
                  ocr_pages_used := ocr_pages_used st;
                  warnings := warnings st
                    ++ [lit "OCR render failed on page " ++ number ++ lit ": " ++ exc] |}
      end
    else
      Some {| pages_data := pages_data st ++ [record mode_failed];
              ocr_images := ocr_images st;
              ocr_indices := ocr_indices st;
              ocr_pages_used := ocr_pages_used st;
              warnings := warnings st
                ++ [lit "OCR skipped after max_ocr_pages on page " ++ number ++ lit "."] |}
  else if scanned && negb ocr_enabled then
    Some {| pages_data := pages_data st ++ [record mode_failed];
            ocr_images := ocr_images st;
            ocr_indices := ocr_indices st;
            ocr_pages_used := ocr_pages_used st;
            warnings := warnings st
              ++ [lit "OCR disabled; scanned page " ++ number
                  ++ lit " extracted as text."] |}
  else
    Some {| pages_data := pages_data st ++ [record mode_text];
            ocr_images := ocr_images st;
            ocr_indices := ocr_indices st;
            ocr_pages_used := ocr_pages_used st;
            warnings := warnings st |}.

Fixpoint scan_from (page_index : nat) (doc : list raw_page) (st : scan_state)
    : option scan_state :=
  match doc with
  | [] => Some st
  | rp :: rest => st' ← scan_page st page_index rp; scan_from (S page_index) rest st'
  end.

End Scan.

(** [opts.max_ocr_pages if opts.max_ocr_pages is not None else opts.max_pages_ocr] *)
Definition ocr_page_limit (opts : RunOptions.t) : option Z :=
  match RunOptions.max_ocr_pages opts with
  | Some m => Some m
  | None => RunOptions.max_pages_ocr opts
  end.

Definition scan_pages (T : CharTables) (ocr_enabled : bool) (opts : RunOptions.t)
    (warnings : list str) (doc : list raw_page) : option scan_state :=
  scan_from T ocr_enabled (ocr_page_limit opts) 0 doc
    {| pages_data := []; ocr_images := []; ocr_indices := [];
       ocr_pages_used := 0; warnings := warnings |}.

(** The assignments to [pages_data[page_index]] after a successful OCR. *)
Definition ocr_page (pg : page) (res : str * option float * list block) : page :=
  {| page_num := page_num pg; page_width := page_width pg;
     page_blocks := res.2;
     page_lines := map (fun l => {| line_text := l; line_bbox := None |})
                       (List.filter nonempty (split_nl res.1.1));
     source_mode := mode_paddle;
     confidence := res.1.2 |}.

Definition failed_page (pg : page) : page :=
  {| page_num := page_num pg; page_width := page_width pg;
     page_blocks := page_blocks pg; page_lines := page_lines pg;
     source_mode := mode_failed; confidence := confidence pg |}.

(** The loop over [zip(results, ocr_indices)]: the pages as the loop leaves
    them, and whether an index was out of range. *)
Fixpoint store_results (pages_data : list page)
    (pairs : list ((str * option float * list block) * nat)) : list page * bool :=
  match pairs with
  | [] => (pages_data, false)
  | (res, page_index) :: rest =>
      match pages_data !! page_index with
      | Some pg => store_results (<[page_index := ocr_page pg res]> pages_data) rest
      | None => (pages_data, true)
      end
  end.

(** The loop of the handler: an index out of range is not caught. *)
Fixpoint mark_failed (pages_data : list page) (indices : list nat) : option (list page) :=
  match indices with
  | [] => Some pages_data
  | page_index :: rest =>
      pg ← pages_data !! page_index;
      mark_failed (<[page_index := failed_page pg]> pages_data) rest
  end.

(** [if ocr_images: try: ... except Exception as exc: ...]: [engine_error]
    is the message of the exception the OCR engine raises, if it does.
    [attempt] is the pages as the [try] block leaves them, and the message
    of the exception that ends it, if one does. *)
Definition apply_ocr (engine_error : option str) (st : scan_state)
    : option (list page * list str) :=
  match ocr_images st with
  | [] => Some (pages_data st, warnings st)
  | _ :: _ =>
      let attempt : list page * option str :=
        match engine_error with
        | Some exc => (pages_data st, Some exc)
        | None =>
            match ocr_images_parallel (ocr_images st) with
            | None => (pages_data st, Some (lit "float division by zero"))
            | Some results =>
                let r := store_results (pages_data st) (zip results (ocr_indices st)) in
                (r.1, if r.2 then Some (lit "list index out of range") else None)
            end
        end in
      match attempt.2 with
      | None => Some (attempt.1, warnings st)
      | Some exc =>
          pages ← mark_failed attempt.1 (ocr_indices st);
          Some (pages, warnings st ++ [lit "OCR parallel failed: " ++ exc])
      end
  end.

(** [process_pdf] in local mode, from the opened document on. *)
Definition process_local (T : CharTables) (cleaning : ScribeOptions.t)
    (opts : RunOptions.t) (p : plan) (engine_error : option str)
    (doc_id : str) (doc : list raw_page) : option (list segment * list page * list str) :=
  st ← scan_pages T (plan_ocr_enabled p) opts (plan_warnings p) doc;
  r ← apply_ocr engine_error st;
  segs ← process_pdf T cleaning doc_id r.1;
  Some (segs, r.1, r.2).

(** ** simpletex.py: the retry loop of [pdf_to_markdown] *)

(** What a request for a page comes to: the message of the exception
    (of the request, of a false status or of a missing content), or the
    content and the request id. *)
Abbreviation reply := (list N + (list N * option (list N)))%type (only parsing).

Record page_md : Type := {
  md_page : nat;
  md_markdown : str;
  md_request_id : option str
}.

Record page_error : Type := { err_page : nat; err_error : option str }.

Record markdown_result : Type := {
  res_pages : nat;
  res_pages_md : list page_md;
  res_full_markdown : str;
  res_errors : list page_error
}.

(** [while attempt <= max_retries and not ok]: [budget] is the number of
    values of [attempt] from the present one to [max_retries]. The result
    is the content if a request succeeded, [last_err] and [attempt]. *)
Fixpoint ocr_attempts (replies : nat -> reply) (budget attempt : nat)
    (last_err : option str) : option (str * option str) * option str * nat :=
  match budget with
  | O => (None, last_err, attempt)
  | S budget' =>
      match replies attempt with
      | inr content => (Some content, last_err, attempt)
      | inl exc => ocr_attempts replies budget' (S attempt) (Some exc)
      end
  end.

Definition md_part (p : page_md) : str :=
  lit "<!-- PAGE " ++ decimal (md_page p) ++ lit " -->" ++ [nl]
  ++ md_markdown p ++ [nl; nl] ++ lit "---" ++ [nl].

Section SimpleTex.

Variable T : CharTables.
Variable max_retries : Z.
(** The reply to each request, by page index and attempt. *)
Variable replies : nat -> nat -> reply.

(** The body of [for i in range(doc.page_count)]. *)
Definition ocr_one_page (acc : list page_md * list page_error) (i : nat)
    : list page_md * list page_error :=
  let r := ocr_attempts (replies i) (Z.to_nat (max_retries + 1)) 0 None in
  match r.1.1 with
  | Some content =>
      (acc.1 ++ [{| md_page := (i + 1)%nat; md_markdown := content.1;
                    md_request_id := content.2 |}], acc.2)
  | None => (acc.1, acc.2 ++ [{| err_page := (i + 1)%nat; err_error := r.1.2 |}])
  end.

Definition pdf_to_markdown (page_count : nat) : markdown_result :=
  let r := fold_left ocr_one_page (seq 0 page_count) ([], []) in
  {| res_pages := page_count;
     res_pages_md := r.1;
     res_full_markdown := strip (isspace T) (join [nl] (map md_part r.1));
     res_errors := r.2 |}.

End SimpleTex.


(** * Properties *)

(** ** The regular-expression engine *)

(** The text a pattern without [^], [$] and [\b] can match. *)
Fixpoint lang (r : regex) (m : str) : Prop :=
  match r with
  | Chr c => m = [c]
  | Cls p => exists x, m = [x] /\ p x = true
  | Seq a b => exists m1 m2, m = m1 ++ m2 /\ lang a m1 /\ lang b m2
  | Alt a b => lang a m \/ lang b m
  | Opt a => lang a m \/ m = []
  | Rep p lo hi =>
      Forall (fun x => p x = true) m /\ (lo <= length m)%nat
      /\ match hi with Some h => (length m <= h)%nat | None => True end
  | Bol | Eol | Wordb _ => False
  end.

Fixpoint context_free (r : regex) : bool :=
  match r with
  | Chr _ | Cls _ | Rep _ _ _ => true
  | Seq a b | Alt a b => context_free a && context_free b
  | Opt a => context_free a
  | Bol | Eol | Wordb _ => false
  end.

(** The character before the position reached after reading [m]. *)
Definition last_or (prev : option char) (m : str) : option char :=
  match last m with
  | Some c => Some c
  | None => prev
  end.

Lemma last_or_nil prev : last_or prev [] = prev.
Proof. reflexivity. Qed.

Lemma last_or_cons prev c m : last_or prev (c :: m) = last_or (Some c) m.
Proof.
  unfold last_or. destruct m as [|d m]; [reflexivity|].
  rewrite last_cons. destruct (last (d :: m)) eqn:E; [reflexivity|].
  apply last_None in E. discriminate.
Qed.

Lemma last_or_app prev m1 m2 :
  last_or prev (m1 ++ m2) = last_or (last_or prev m1) m2.
Proof.
  revert prev. induction m1 as [|c m1 IH]; intros prev; [reflexivity|].
  simpl app. rewrite !last_or_cons. apply IH.
Qed.

Lemma rep_ends_spec p lo hi prev s prev' t :
  In (prev', t) (rep_ends p lo hi prev s) <->
  exists m, s = m ++ t /\ lang (Rep p lo hi) m /\ prev' = last_or prev m.
Proof.
  revert lo hi prev. induction s as [|c s IH]; intros lo hi prev.
  - assert (Hstop : In (prev', t) (match lo with O => [(prev, @nil char)] | S _ => [] end)
              <-> exists m, [] = m ++ t /\ lang (Rep p lo hi) m /\ prev' = last_or prev m).
    { split.
      - destruct lo; simpl; [|tauto]. intros [E|[]]. inversion E; subst.
        exists []. simpl. repeat split; auto; try lia. destruct hi; [lia|exact I].
      - intros (m & E & (Hp & Hlo & Hhi) & ->).
        symmetry in E. apply app_eq_nil in E as [-> ->].
        simpl in Hlo. destruct lo; [|lia]. left. reflexivity. }
    simpl. destruct hi as [[|h]|]; exact Hstop.
  - assert (Hstop : forall lo, In (prev', t) (match lo with O => [(prev, c :: s)] | S _ => [] end)
              <-> (t = c :: s /\ lo = O /\ prev' = prev)).
    { intros [|l]; simpl; split.
      - intros [E|[]]. inversion E. auto.
      - intros (-> & _ & ->). auto.
      - tauto.
      - intros (_ & ? & _). discriminate. }
    assert (Hnil : (t = c :: s /\ lo = O /\ prev' = prev) <->
              exists m, c :: s = m ++ t /\ lang (Rep p lo hi) m /\ prev' = last_or prev m
                        /\ m = []).
    { split.
      - intros (-> & -> & ->). exists []. simpl. repeat split; auto.
        destruct hi; [lia|exact I].
      - intros (m & E & (Hp & Hlo & Hhi) & -> & ->). simpl in *.
        repeat split; auto. lia. }
    assert (Hcons : forall hi',
              (exists m, s = m ++ t /\ lang (Rep p (pred lo) hi') m
                         /\ prev' = last_or (Some c) m) ->
              p c = true ->
              match hi with Some h => hi' = Some (pred h) /\ h <> O | None => hi' = None end ->
              exists m, c :: s = m ++ t /\ lang (Rep p lo hi) m /\ prev' = last_or prev m).
    { intros hi' (m & -> & (Hp & Hlo & Hhi) & ->) Hc Hh.
      exists (c :: m). rewrite last_or_cons. simpl. repeat split; auto.
      - lia.
      - destruct hi as [h|]; [|exact I]. destruct Hh as [-> Hh]. lia. }
    simpl. destruct hi as [[|h]|].
    + rewrite Hstop, Hnil. split.
      * intros (m & ? & ? & ? & ?). eauto.
      * intros (m & E & (Hp & Hlo & Hhi) & Hl). exists m.
        assert (m = []) as -> by (destruct m; [reflexivity|simpl in Hhi; lia]).
        repeat split; auto.
    + destruct (p c) eqn:Hc.
      * rewrite in_app_iff, IH, Hstop, Hnil. split.
        -- intros [H|(m & ? & ? & ? & ?)]; [|eauto].
           apply (Hcons (Some h)); auto.
        -- intros (m & E & (Hp & Hlo & Hhi) & Hl). destruct m as [|d m].
           ++ right. exists []. repeat split; auto.
           ++ left. simpl in E. inversion E; subst d s. exists m.
              rewrite last_or_cons in Hl. inversion Hp; subst.
              simpl in *. repeat split; auto; lia.
      * rewrite Hstop, Hnil. split.
        -- intros (m & ? & ? & ? & ?). eauto.
        -- intros (m & E & (Hp & Hlo & Hhi) & Hl). exists m.
           destruct m as [|d m]; [repeat split; auto|].
           simpl in E. inversion E; subst d. inversion Hp; subst. congruence.
    + destruct (p c) eqn:Hc.
      * rewrite in_app_iff, IH, Hstop, Hnil. split.
        -- intros [H|(m & ? & ? & ? & ?)]; [|eauto].
           apply (Hcons None); auto.
        -- intros (m & E & (Hp & Hlo & Hhi) & Hl). destruct m as [|d m].
           ++ right. exists []. repeat split; auto.
           ++ left. simpl in E. inversion E; subst d s. exists m.
              rewrite last_or_cons in Hl. inversion Hp; subst.
              simpl in *. repeat split; auto; lia.
      * rewrite Hstop, Hnil. split.
        -- intros (m & ? & ? & ? & ?). eauto.
        -- intros (m & E & (Hp & Hlo & Hhi) & Hl). exists m.
           destruct m as [|d m]; [repeat split; auto|].
           simpl in E. inversion E; subst d. inversion Hp; subst. congruence.
Qed.

Lemma ends_lang r :
  context_free r = true ->
  forall prev s prev' t,
    In (prev', t) (ends r (prev, s)) <->
    exists m, s = m ++ t /\ lang r m /\ prev' = last_or prev m.
Proof.
  induction r as [c|p|a IHa b IHb|a IHa b IHb|a IHa|p lo hi| | |w];
    simpl context_free; intros Hcf prev s prev' t; try discriminate.
  - simpl. destruct s as [|x s]; simpl.
    + split; [tauto|]. intros (m & E & -> & _). discriminate.
    + destruct (N.eqb_spec x c) as [->|Hne]; simpl.
      * split.
        -- intros [E|[]]. inversion E; subst. exists [c]. auto.
        -- intros (m & E & -> & ->). inversion E; subst. auto.
      * split; [tauto|]. intros (m & E & -> & _). inversion E. congruence.
  - simpl. destruct s as [|x s]; simpl.
    + split; [tauto|]. intros (m & E & (y & -> & _) & _). discriminate.
    + destruct (p x) eqn:Hp; simpl.
      * split.
        -- intros [E|[]]. inversion E; subst. exists [x]. eauto.
        -- intros (m & E & (y & -> & _) & ->). inversion E; subst. auto.
      * split; [tauto|]. intros (m & E & (y & -> & Hy) & _).
        inversion E. congruence.
  - apply andb_true_iff in Hcf as [Ha Hb]. simpl. rewrite in_flat_map. split.
    + intros ([pv1 t1] & H1 & H2).
      apply (IHa Ha) in H1 as (m1 & -> & L1 & ->).
      apply (IHb Hb) in H2 as (m2 & -> & L2 & ->).
      exists (m1 ++ m2). rewrite <- app_assoc, last_or_app. eauto 10.
    + intros (m & -> & (m1 & m2 & -> & L1 & L2) & ->).
      exists (last_or prev m1, m2 ++ t). split.
      * apply (IHa Ha). exists m1. rewrite <- app_assoc. auto.
      * apply (IHb Hb). exists m2. rewrite last_or_app. auto.
  - apply andb_true_iff in Hcf as [Ha Hb]. simpl.
    rewrite in_app_iff, (IHa Ha), (IHb Hb). split.
    + intros [(m & ? & ? & ?)|(m & ? & ? & ?)]; exists m; auto.
    + intros (m & ? & [?|?] & ?); [left|right]; exists m; auto.
  - simpl. rewrite in_app_iff, (IHa Hcf). simpl. split.
    + intros [(m & ? & ? & ?)|[E|[]]].
      * exists m. auto.
      * inversion E; subst. exists []. auto.
    + intros (m & E & [L| ->] & ->).
      * left. exists m. auto.
      * right. left. simpl in E. subst. reflexivity.
  - apply rep_ends_spec.
Qed.

(** [re.fullmatch] decides the language of the pattern. *)
Lemma fullmatch_lang r s :
  context_free r = true -> fullmatch r s = true <-> lang r s.
Proof.
  intros Hcf. unfold fullmatch. rewrite existsb_exists. split.
  - intros ([pv t] & Hin & Ht). simpl in Ht. destruct t; [|discriminate].
    apply (ends_lang r Hcf) in Hin as (m & -> & L & _).
    rewrite app_nil_r. exact L.
  - intros L. exists (last_or None s, []). split; [|reflexivity].
    apply (ends_lang r Hcf). exists s. rewrite app_nil_r. auto.
Qed.

(** ** Page numbers *)

(** The ASCII lower-case form of a character. *)
Definition ascii_fold (c : char) : char := if ascii_upper c then c + 32 else c.

Section PageNumber.

Variable T : CharTables.

(** A decimal integer: one or more digits. *)
Definition digits (m : str) : Prop :=
  m <> [] /\ Forall (fun c => re_d T c = true) m.

(** Whitespace, possibly none. *)
Definition blanks (m : str) : Prop := Forall (fun c => re_s T c = true) m.

(** The word "page" in any case. *)
Definition page_word (m : str) : Prop := map ascii_fold m = lit "page".

(** The three shapes: an integer of one to four digits, "page N" and
    "page N / M". *)
Definition page_number_shaped (n : str) : Prop :=
  (digits n /\ (length n <= 4)%nat)
  \/ (exists w sp num,
        n = w ++ sp ++ num
        /\ page_word w /\ blanks sp /\ sp <> [] /\ digits num)
  \/ (exists w sp num sp1 sp2 den,
        n = w ++ sp ++ num ++ sp1 ++ [chr "/"] ++ sp2 ++ den
        /\ page_word w /\ blanks sp /\ sp <> [] /\ digits num
        /\ blanks sp1 /\ blanks sp2 /\ digits den).

Lemma lang_ci lower upper m :
  lang (ci lower upper) m <-> exists x, m = [x] /\ (x = chr lower \/ x = chr upper).
Proof.
  simpl. split; intros (x & -> & H); exists x; split; auto.
  - apply orb_true_iff in H as [H|H]; apply N.eqb_eq in H; auto.
  - apply orb_true_iff. destruct H as [->| ->]; rewrite N.eqb_refl; auto.
Qed.

Lemma ascii_fold_eq (x : char) (lower upper : ascii) :
  ascii_lower (chr lower) = true -> chr upper + 32 = chr lower ->
  ascii_fold x = chr lower <-> (x = chr lower \/ x = chr upper).
Proof.
  intros Hl Hu. unfold ascii_fold. split.
  - destruct (ascii_upper x) eqn:E; [|auto]. intros H. right.
    apply (N.add_cancel_r _ _ 32). congruence.
  - intros [->| ->].
    + replace (ascii_upper (chr lower)) with false; [reflexivity|].
      unfold ascii_lower, ascii_upper, in_range in *.
      apply andb_true_iff in Hl as [H1 H2].
      apply N.leb_le in H1, H2. symmetry. apply andb_false_iff. right.
      apply N.leb_gt. lia.
    + replace (ascii_upper (chr upper)) with true; [exact Hu|].
      unfold ascii_lower, ascii_upper, in_range in *. rewrite <- Hu in Hl.
      apply andb_true_iff in Hl as [H1 H2].
      apply N.leb_le in H1, H2. symmetry. apply andb_true_iff.
      split; apply N.leb_le; lia.
Qed.

Lemma page_word_spec m :
  page_word m <->
  exists p a g e, m = [p] ++ [a] ++ [g] ++ [e]
    /\ lang (ci "p" "P") [p] /\ lang (ci "a" "A") [a]
    /\ lang (ci "g" "G") [g] /\ lang (ci "e" "E") [e].
Proof.
  unfold page_word. setoid_rewrite lang_ci. split.
  - destruct m as [|p [|a [|g [|e [|]]]]]; try discriminate.
    intros H. injection H as Hp Ha Hg He.
    change (ascii_fold p = chr "p") in Hp. change (ascii_fold a = chr "a") in Ha.
    change (ascii_fold g = chr "g") in Hg. change (ascii_fold e = chr "e") in He.
    apply (ascii_fold_eq p "p" "P") in Hp; try reflexivity.
    apply (ascii_fold_eq a "a" "A") in Ha; try reflexivity.
    apply (ascii_fold_eq g "g" "G") in Hg; try reflexivity.
    apply (ascii_fold_eq e "e" "E") in He; try reflexivity.
    exists p, a, g, e. split; [reflexivity|]. repeat split; eexists; eauto.
  - intros (p & a & g & e & -> & (? & [= <-] & Hp) & (? & [= <-] & Ha)
            & (? & [= <-] & Hg) & (? & [= <-] & He)).
    change (lit "page") with [chr "p"; chr "a"; chr "g"; chr "e"].
    apply (ascii_fold_eq p "p" "P") in Hp; try reflexivity.
    apply (ascii_fold_eq a "a" "A") in Ha; try reflexivity.
    apply (ascii_fold_eq g "g" "G") in Hg; try reflexivity.
    apply (ascii_fold_eq e "e" "E") in He; try reflexivity.
    cbn [map app]. rewrite Hp, Ha, Hg, He. reflexivity.
Qed.

Lemma lang_plus p m :
  lang (plus p) m <-> m <> [] /\ Forall (fun c => p c = true) m.
Proof.
  simpl. split.
  - intros (H & Hl & _). split; [|exact H]. intros ->. simpl in Hl. lia.
  - intros (Hn & H). repeat split; auto. destruct m; [congruence|simpl; lia].
Qed.

Lemma lang_star p m : lang (star p) m <-> Forall (fun c => p c = true) m.
Proof. simpl. split; [tauto|]. intros H. repeat split; auto. lia. Qed.

Lemma fullmatch_short_number n :
  fullmatch (re_short_number T) n = true <-> digits n /\ (length n <= 4)%nat.
Proof.
  rewrite fullmatch_lang by reflexivity. unfold re_short_number, digits. simpl.
  split.
  - intros (H & Hl & Hh). repeat split; auto. intros ->. simpl in Hl. lia.
  - intros ((Hn & H) & Hh). repeat split; auto. destruct n; [congruence|simpl; lia].
Qed.

Lemma fullmatch_page_label n :
  fullmatch (re_page_label T) n = true <->
  (exists w sp num,
      n = w ++ sp ++ num /\ page_word w /\ blanks sp /\ sp <> [] /\ digits num)
  \/ (exists w sp num sp1 sp2 den,
        n = w ++ sp ++ num ++ sp1 ++ [chr "/"] ++ sp2 ++ den
        /\ page_word w /\ blanks sp /\ sp <> [] /\ digits num
        /\ blanks sp1 /\ blanks sp2 /\ digits den).
Proof.
  rewrite fullmatch_lang by reflexivity. unfold re_page_label.
  split.
  - intros (p & r1 & -> & Lp & a & r2 & -> & La & g & r3 & -> & Lg & e & r4 & ->
            & Le & sp & r5 & -> & Lsp & num & r6 & -> & Lnum & Lopt).
    apply lang_plus in Lsp as [Hsp1 Hsp2]. apply lang_plus in Lnum.
    assert (Hw : page_word (p ++ a ++ g ++ e)).
    { pose proof Lp as Lp'. pose proof La as La'. pose proof Lg as Lg'.
      pose proof Le as Le'.
      apply lang_ci in Lp' as (? & -> & _). apply lang_ci in La' as (? & -> & _).
      apply lang_ci in Lg' as (? & -> & _). apply lang_ci in Le' as (? & -> & _).
      apply page_word_spec. eauto 10. }
    destruct Lopt as [(sp1 & r7 & -> & Lsp1 & sl & r8 & -> & Lsl & sp2 & den & ->
                       & Lsp2 & Lden)| ->].
    + right. apply lang_star in Lsp1, Lsp2. apply lang_plus in Lden.
      simpl in Lsl. subst sl.
      exists (p ++ a ++ g ++ e), sp, num, sp1, sp2, den.
      rewrite <- !app_assoc. repeat split; auto; tauto.
    + left. exists (p ++ a ++ g ++ e), sp, num.
      rewrite <- !app_assoc, app_nil_r. repeat split; auto; tauto.
  - intros [(w & sp & num & -> & Hw & Hsp & Hsp' & Hnum)
           |(w & sp & num & sp1 & sp2 & den & -> & Hw & Hsp & Hsp' & Hnum
             & Hsp1 & Hsp2 & Hden)];
      apply page_word_spec in Hw as (p & a & g & e & -> & Lp & La & Lg & Le).
    + exists [p], ([a] ++ [g] ++ [e] ++ sp ++ num). split; [reflexivity|]. split; [exact Lp|].
      exists [a], ([g] ++ [e] ++ sp ++ num). split; [reflexivity|]. split; [exact La|].
      exists [g], ([e] ++ sp ++ num). split; [reflexivity|]. split; [exact Lg|].
      exists [e], (sp ++ num). split; [reflexivity|]. split; [exact Le|].
      exists sp, num. split; [reflexivity|]. split; [apply lang_plus; auto|].
      exists num, []. split; [now rewrite app_nil_r|]. split; [apply lang_plus; auto|].
      right. reflexivity.
    + exists [p], ([a] ++ [g] ++ [e] ++ sp ++ num ++ sp1 ++ [chr "/"] ++ sp2 ++ den).
      split; [reflexivity|]. split; [exact Lp|].
      exists [a], ([g] ++ [e] ++ sp ++ num ++ sp1 ++ [chr "/"] ++ sp2 ++ den).
      split; [reflexivity|]. split; [exact La|].
      exists [g], ([e] ++ sp ++ num ++ sp1 ++ [chr "/"] ++ sp2 ++ den).
      split; [reflexivity|]. split; [exact Lg|].
      exists [e], (sp ++ num ++ sp1 ++ [chr "/"] ++ sp2 ++ den).
      split; [reflexivity|]. split; [exact Le|].
      exists sp, (num ++ sp1 ++ [chr "/"] ++ sp2 ++ den).
      split; [reflexivity|]. split; [apply lang_plus; auto|].
      exists num, (sp1 ++ [chr "/"] ++ sp2 ++ den).
      split; [reflexivity|]. split; [apply lang_plus; auto|].
      left. exists sp1, ([chr "/"] ++ sp2 ++ den).
      split; [reflexivity|]. split; [apply lang_star; auto|].
      exists [chr "/"], (sp2 ++ den).
      split; [reflexivity|]. split; [reflexivity|].
      exists sp2, den. split; [reflexivity|]. split; [apply lang_star; auto|].
      apply lang_plus; auto.
Qed.

Lemma is_page_number_shaped text :
  is_page_number T text = true <-> page_number_shaped (normalize_line T text).
Proof.
  unfold is_page_number, page_number_shaped.
  pose proof (fullmatch_short_number (normalize_line T text)) as H1.
  pose proof (fullmatch_page_label (normalize_line T text)) as H2.
  destruct (normalize_line T text) as [|c n] eqn:E.
  - split; [discriminate|].
    intros [[[Hn _] _]|[(w & sp & num & E' & _ & _ & _ & [Hn _])
                       |(w & sp & num & sp1 & sp2 & den & E' & _ & _ & _ & _ & _ & _ & [Hn _])]].
    + congruence.
    + symmetry in E'. apply app_eq_nil in E' as [_ E']. apply app_eq_nil in E' as [_ E'].
      congruence.
    + symmetry in E'. repeat (apply app_eq_nil in E' as [_ E']). congruence.
  - destruct (fullmatch (re_short_number T) (c :: n)).
    + split; [|reflexivity]. intros _. left. apply H1. reflexivity.
    + destruct (fullmatch (re_page_label T) (c :: n)).
      * split; [|reflexivity]. intros _. right. apply H2. reflexivity.
      * split; [discriminate|]. intros [H|H].
        -- apply H1 in H. discriminate.
        -- apply H2 in H. discriminate.
Qed.

End PageNumber.

(** ** Substitution *)

(** A pattern without [^], [$] and [\b] matches the same text whatever
    precedes it. *)
Lemma rep_ends_prev p lo hi prev1 prev2 s :
  map snd (rep_ends p lo hi prev1 s) = map snd (rep_ends p lo hi prev2 s).
Proof.
  revert lo hi prev1 prev2. induction s as [|c s IH]; intros lo hi prev1 prev2.
  - simpl. destruct hi as [[|h]|], lo; reflexivity.
  - simpl. destruct hi as [[|h]|]; try (destruct lo; reflexivity);
      destruct (p c); try (destruct lo; reflexivity);
      rewrite !map_app; f_equal; try apply IH; destruct lo; reflexivity.
Qed.

Lemma flat_map_snd (f : cursor -> list cursor) (l1 l2 : list cursor) :
  (forall pv1 pv2 s, map snd (f (pv1, s)) = map snd (f (pv2, s))) ->
  map snd l1 = map snd l2 ->
  map snd (flat_map f l1) = map snd (flat_map f l2).
Proof.
  intros Hf. revert l2. induction l1 as [|[pv1 s1] l1 IH]; intros [|[pv2 s2] l2] H;
    try discriminate; [reflexivity|].
  simpl in *. injection H as -> H. rewrite !map_app. f_equal; auto.
Qed.

Lemma ends_prev r :
  context_free r = true ->
  forall prev1 prev2 s, map snd (ends r (prev1, s)) = map snd (ends r (prev2, s)).
Proof.
  induction r as [c|p|a IHa b IHb|a IHa b IHb|a IHa|p lo hi| | |w];
    simpl context_free; intros Hcf prev1 prev2 s; try discriminate.
  - reflexivity.
  - reflexivity.
  - apply andb_true_iff in Hcf as [Ha Hb]. simpl.
    apply flat_map_snd; auto.
  - apply andb_true_iff in Hcf as [Ha Hb]. simpl.
    rewrite !map_app. f_equal; auto.
  - simpl. rewrite !map_app. f_equal; auto.
  - apply rep_ends_prev.
Qed.

Lemma sub_go_prev r repl :
  context_free r = true ->
  forall s skip prev1 prev2, sub_go r repl skip prev1 s = sub_go r repl skip prev2 s.
Proof.
  intros Hcf. induction s as [|c s IH]; intros skip prev1 prev2.
  - assert (H : forall l1 l2 : list cursor, map snd l1 = map snd l2 ->
                match l1 with _ :: _ => repl [] | [] => [] end
                = match l2 with _ :: _ => repl [] | [] => [] end).
    { intros [|? ?] [|? ?]; simpl; intros; try discriminate; reflexivity. }
    apply H, ends_prev, Hcf.
  - simpl. destruct skip as [|k]; [|apply IH].
    assert (H : forall l1 l2 : list cursor, map snd l1 = map snd l2 ->
                forall a b,
                match l1 with
                | [] => c :: a
                | (_, rest) :: _ =>
                    match (length (c :: s) - length rest)%nat with
                    | O => repl [] ++ c :: a
                    | S k => repl (take (S k) (c :: s)) ++ b k
                    end
                end
                = match l2 with
                  | [] => c :: a
                  | (_, rest) :: _ =>
                      match (length (c :: s) - length rest)%nat with
                      | O => repl [] ++ c :: a
                      | S k => repl (take (S k) (c :: s)) ++ b k
                      end
                  end).
    { intros [|[? ?] ?] [|[? ?] ?]; simpl; intros E a b; try discriminate;
        [reflexivity|]. injection E as -> _. reflexivity. }
    apply (H _ _ (ends_prev r Hcf prev1 prev2 (c :: s))
             (sub_go r repl 0 (Some c) s) (fun k => sub_go r repl k (Some c) s)).
Qed.

Lemma sub_go_skip r repl m :
  forall prev rest,
    sub_go r repl (length m) prev (m ++ rest)
    = sub_go r repl 0 (last_or prev m) rest.
Proof.
  induction m as [|c m IH]; intros prev rest; [reflexivity|].
  simpl. rewrite IH, last_or_cons. reflexivity.
Qed.

Section Sub.

Variable r : regex.
Variable repl : str -> str.
Hypothesis Hcf : context_free r = true.

Lemma sub_nil : ends r (None, []) = [] -> sub r repl [] = [].
Proof. unfold sub. simpl. intros ->. reflexivity. Qed.

(** No match at the first character: it is copied. *)
Lemma sub_cons c t :
  ends r (None, c :: t) = [] -> sub r repl (c :: t) = c :: sub r repl t.
Proof using Hcf.
  unfold sub. simpl. intros ->. f_equal. apply sub_go_prev, Hcf.
Qed.

(** A match of [m] at the start: it is replaced, and the scan goes on
    after it. *)
Lemma sub_match m rest prev' tl :
  m <> [] -> ends r (None, m ++ rest) = (prev', rest) :: tl ->
  sub r repl (m ++ rest) = repl m ++ sub r repl rest.
Proof using Hcf.
  intros Hm He. destruct m as [|c m]; [congruence|].
  unfold sub. simpl in *. rewrite He.
  rewrite length_app.
  replace (S (length m + length rest) - length rest)%nat with (S (length m)) by lia.
  rewrite firstn_app, Nat.sub_diag, firstn_all, firstn_O, app_nil_r.
  f_equal. rewrite sub_go_skip. apply sub_go_prev, Hcf.
Qed.

End Sub.

(** ** Runs of characters *)

(** The longest prefix in a class; what follows it is [lstrip]. *)
Fixpoint run (p : char -> bool) (s : str) : str :=
  match s with
  | c :: t => if p c then c :: run p t else []
  | [] => []
  end.

(** The text does not start with a character of the class. *)
Definition not_head (p : char -> bool) (s : str) : Prop :=
  match s with
  | c :: _ => p c = false
  | [] => True
  end.

Lemma run_lstrip p s : run p s ++ lstrip p s = s.
Proof.
  induction s as [|c s IH]; [reflexivity|]. simpl.
  destruct (p c); simpl; congruence.
Qed.

Lemma run_Forall p s : Forall (fun c => p c = true) (run p s).
Proof.
  induction s as [|c s IH]; simpl; [constructor|].
  destruct (p c) eqn:E; auto.
Qed.

Lemma lstrip_not_head p s : not_head p (lstrip p s).
Proof.
  induction s as [|c s IH]; simpl; [exact I|].
  destruct (p c) eqn:E; [exact IH|exact E].
Qed.

Lemma lstrip_length p s : (length (lstrip p s) <= length s)%nat.
Proof.
  induction s as [|c s IH]; simpl; [lia|]. destruct (p c); simpl; lia.
Qed.

(** The greedy repetition first tries the whole run. *)
Lemma rep_ends_head p m :
  forall lo prev rest,
    Forall (fun c => p c = true) m -> (lo <= length m)%nat -> not_head p rest ->
    exists tl, rep_ends p lo None prev (m ++ rest) = (last_or prev m, rest) :: tl.
Proof.
  induction m as [|c m IH]; intros lo prev rest Hm Hlo Hr.
  - simpl in Hlo. assert (lo = O) as -> by lia. exists [].
    destruct rest as [|x rest]; simpl; [reflexivity|].
    simpl in Hr. rewrite Hr. reflexivity.
  - inversion Hm as [|? ? Hc Hm']; subst. simpl. rewrite Hc.
    destruct (IH (pred lo) (Some c) rest Hm') as [tl Htl]; [simpl in Hlo; lia|exact Hr|].
    rewrite Htl, last_or_cons. eexists. reflexivity.
Qed.

Lemma rep_ends_none p lo hi prev s :
  (0 < lo)%nat -> not_head p s -> rep_ends p lo hi prev s = [].
Proof.
  intros Hlo Hs. destruct lo as [|lo]; [lia|].
  destruct s as [|c s]; simpl.
  - destruct hi as [[|h]|]; reflexivity.
  - simpl in Hs. rewrite Hs. destruct hi as [[|h]|]; reflexivity.
Qed.

(** [re.sub("[p]+", x, s)] as a function by recursion on the text: a
    character of the class is dropped when another follows it, and the last
    of a run becomes [x]. *)
Fixpoint collapse (p : char -> bool) (x : char) (s : str) : str :=
  match s with
  | [] => []
  | c :: t =>
      if p c then
        match t with
        | c' :: _ => if p c' then collapse p x t else x :: collapse p x t
        | [] => [x]
        end
      else c :: collapse p x t
  end.

Lemma collapse_run p x m rest :
  Forall (fun c => p c = true) m -> m <> [] -> not_head p rest ->
  collapse p x (m ++ rest) = x :: collapse p x rest.
Proof.
  induction m as [|c m IH]; intros Hm Hn Hr; [congruence|].
  inversion Hm as [|? ? Hc Hm']; subst.
  destruct m as [|d m].
  - simpl. rewrite Hc. destruct rest as [|e rest]; [reflexivity|].
    simpl in Hr. rewrite Hr. reflexivity.
  - change ((c :: d :: m) ++ rest) with (c :: (d :: m) ++ rest).
    assert (Hd : p d = true) by (inversion Hm'; auto).
    cbn [collapse]. rewrite Hc. cbn [app]. rewrite Hd.
    apply (IH Hm'); [discriminate|exact Hr].
Qed.

Lemma sub_plus_collapse p x s :
  sub (plus p) (fun _ => [x]) s = collapse p x s.
Proof.
  remember (length s) as n eqn:Hn. revert s Hn.
  induction n as [n IH] using lt_wf_ind. intros s Hn.
  destruct s as [|c t].
  - reflexivity.
  - destruct (p c) eqn:Hc.
    + pose proof (run_lstrip p (c :: t)) as Hs.
      pose proof (run_Forall p (c :: t)) as Hf.
      pose proof (lstrip_not_head p (c :: t)) as Hh.
      pose proof (lstrip_length p t) as Hl.
      simpl in Hs, Hf, Hh. rewrite Hc in Hs, Hf, Hh.
      rewrite <- Hs.
      destruct (rep_ends_head p (c :: run p t) 1 None (lstrip p t) Hf) as [tl Htl];
        [simpl; lia|exact Hh|].
      rewrite (sub_match (plus p) (fun _ => [x]) eq_refl (c :: run p t) (lstrip p t)
                 _ tl ltac:(discriminate) Htl).
      rewrite collapse_run by (auto; discriminate).
      simpl. f_equal. apply (IH (length (lstrip p t))); [simpl in Hn; lia|reflexivity].
    + rewrite sub_cons; [|reflexivity|].
      * simpl. rewrite Hc. f_equal. apply (IH (length t)); [simpl in Hn; lia|reflexivity].
      * simpl. rewrite Hc. reflexivity.
Qed.

(** ** Line normalization *)

(** Every character of the class is [x] and stands alone. *)
Fixpoint tidy (p : char -> bool) (x : char) (s : str) : Prop :=
  match s with
  | [] => True
  | c :: t => (p c = true -> c = x /\ not_head p t) /\ tidy p x t
  end.

Lemma collapse_tidy p x s : tidy p x (collapse p x s).
Proof.
  induction s as [|c t IH]; simpl; [exact I|].
  destruct (p c) eqn:Hc.
  - destruct t as [|c' t']; [simpl; auto|].
    destruct (p c') eqn:Hc'; [exact IH|].
    split; [|exact IH]. intros _. split; [reflexivity|].
    simpl. rewrite Hc'. simpl. exact Hc'.
  - split; [|exact IH]. congruence.
Qed.

Lemma tidy_collapse p x s : tidy p x s -> collapse p x s = s.
Proof.
  induction s as [|c t IH]; simpl; [reflexivity|]. intros [Hc Ht].
  destruct (p c) eqn:E.
  - destruct (Hc eq_refl) as [-> Hh]. destruct t as [|c' t']; [reflexivity|].
    simpl in Hh. rewrite Hh. f_equal. apply IH, Ht.
  - f_equal. apply IH, Ht.
Qed.

Lemma tidy_lstrip p x q s : tidy p x s -> tidy p x (lstrip q s).
Proof.
  induction s as [|c t IH]; simpl; [auto|]. intros [Hc Ht].
  destruct (q c); [apply IH, Ht|]. simpl. auto.
Qed.

Lemma rstrip_prefix q s : exists t, s = rstrip q s ++ t.
Proof.
  induction s as [|c s [t IH]]; simpl; [exists []; reflexivity|].
  destruct (rstrip q s) as [|d r] eqn:E.
  - destruct (q c); [exists (c :: s)|exists s]; reflexivity.
  - exists t. simpl in *. congruence.
Qed.

Lemma tidy_rstrip p x q s : tidy p x s -> tidy p x (rstrip q s).
Proof.
  induction s as [|c t IH]; simpl; [auto|]. intros [Hc Ht].
  destruct (rstrip_prefix q t) as [u Hu].
  destruct (rstrip q t) as [|d r] eqn:E.
  - destruct (q c); simpl; [exact I|]. split; [|exact I].
    intros H. destruct (Hc H) as [-> _]. split; [reflexivity|exact I].
  - split; [|apply IH, Ht]. intros H. destruct (Hc H) as [-> Hh].
    split; [reflexivity|]. rewrite Hu in Hh. exact Hh.
Qed.

Lemma normalize_line_collapse T text :
  normalize_line T text = strip (isspace T) (collapse (re_s T) space text).
Proof. unfold normalize_line. rewrite sub_plus_collapse. reflexivity. Qed.

Lemma rstrip_idem q s : rstrip q (rstrip q s) = rstrip q s.
Proof.
  induction s as [|c s IH]; simpl; [reflexivity|].
  destruct (rstrip q s) as [|d r] eqn:E.
  - destruct (q c) eqn:Hc; simpl; [reflexivity|]. rewrite Hc. reflexivity.
  - simpl in *. rewrite IH. reflexivity.
Qed.

Lemma rstrip_head q s :
  not_head q s -> not_head q (rstrip q s) /\ lstrip q (rstrip q s) = rstrip q s.
Proof.
  destruct s as [|c s]; simpl; [auto|]. intros Hc.
  destruct (rstrip q s); rewrite ?Hc; simpl; rewrite ?Hc; auto.
Qed.

Lemma strip_idem q s : strip q (strip q s) = strip q s.
Proof.
  unfold strip.
  destruct (rstrip_head q (lstrip q s) (lstrip_not_head q s)) as [_ ->].
  apply rstrip_idem.
Qed.

(** Normalizing a normalized line changes nothing. *)
Lemma normalize_line_idem T text :
  normalize_line T (normalize_line T text) = normalize_line T text.
Proof.
  rewrite (normalize_line_collapse T (normalize_line T text)).
  rewrite tidy_collapse; [apply strip_idem|].
  rewrite normalize_line_collapse. unfold strip.
  apply tidy_rstrip, tidy_lstrip, collapse_tidy.
Qed.

Lemma short_number_length T n :
  fullmatch (re_short_number T) n = true -> (length n <= 4)%nat.
Proof. intros H. apply fullmatch_short_number in H. tauto. Qed.

(** C10: a line is page-number-shaped exactly when its normalized form is
    an integer of one to four digits, "page N" or "page N / M" (in any case,
    with optional blanks around the slash). This is the test the segment
    loop applies to the lines of a block; an integer of five or more digits
    and "12 of 30" do not pass it. *)
Theorem is_page_number_spec (T : CharTables) (text : str) :
  (is_page_number T text = true <-> page_number_shaped T (normalize_line T text))
  /\ is_page_number T (normalize_line T text) = is_page_number T text
  /\ (Forall (fun c => ascii_digit c = true) (normalize_line T text) ->
      (5 <= length (normalize_line T text))%nat ->
      is_page_number T text = false)
  /\ (normalize_line T text = lit "12 of 30" -> is_page_number T text = false).
Proof.
  split; [apply is_page_number_shaped|]. split.
  { unfold is_page_number. rewrite normalize_line_idem. reflexivity. }
  assert (Hno : forall c n, normalize_line T text = c :: n ->
                 ascii_fold c <> chr "p" -> (5 <= length (c :: n))%nat ->
                 is_page_number T text = false).
  { intros c n E Hc Hlen. destruct (is_page_number T text) eqn:Hp; [|reflexivity].
    exfalso. apply is_page_number_shaped in Hp. rewrite E in Hp.
    destruct Hp as [[_ Hl]|[(w & sp & num & E' & Hw & _)
                           |(w & sp & num & sp1 & sp2 & den & E' & Hw & _)]].
    - lia.
    - unfold page_word in Hw. destruct w as [|p w]; [discriminate|].
      injection E' as -> _. injection Hw as Hw _. exact (Hc Hw).
    - unfold page_word in Hw. destruct w as [|p w]; [discriminate|].
      injection E' as -> _. injection Hw as Hw _. exact (Hc Hw). }
  split.
  - intros Hd Hlen. destruct (normalize_line T text) as [|c n] eqn:E;
      [simpl in Hlen; lia|].
    apply (Hno c n eq_refl); [|exact Hlen].
    inversion Hd as [|? ? Hc _]; subst.
    unfold ascii_fold, ascii_digit, ascii_upper, in_range in *.
    apply andb_true_iff in Hc as [H1 H2]. apply N.leb_le in H1, H2.
    destruct ((65 <=? c) && (c <=? 90)) eqn:Hu.
    + apply andb_true_iff in Hu as [H3 H4]. apply N.leb_le in H3, H4. lia.
    + change (chr "p") with 112. lia.
  - intros E. apply (Hno 49 (lit "2 of 30") E); [|simpl; lia].
    vm_compute. discriminate.
Qed.

Example is_page_number_examples :
  is_page_number basic_tables (lit "42") = true
  /\ is_page_number basic_tables (lit "  Page 1/20 ") = true
  /\ is_page_number basic_tables (lit "PAGE 3 / 4") = true
  /\ is_page_number basic_tables (lit "12345") = false
  /\ is_page_number basic_tables (lit "12 of 30") = false
  /\ is_page_number basic_tables (lit "page") = false.
Proof. vm_compute. repeat split. Qed.

(** ** Dehyphenation *)

Lemma hyphen_break_needs_newline c t :
  Forall (fun x => x <> nl) t -> ends re_hyphen_break (None, c :: t) = [].
Proof.
  intros Ht. unfold re_hyphen_break. cbn [ends fst snd flat_map].
  destruct (ascii_alnum c); [|reflexivity]. cbn [flat_map app fst snd].
  destruct t as [|d t]; [reflexivity|].
  destruct (d =? chr "-"); [|reflexivity]. cbn [flat_map app fst snd].
  destruct t as [|e t]; [reflexivity|].
  inversion Ht as [|? ? _ Ht']; subst. inversion Ht' as [|? ? He _]; subst.
  apply N.eqb_neq in He. rewrite He. reflexivity.
Qed.

(** Text without a line break is left as it is: in particular a last line
    that ends in a hyphen. *)
Lemma dehyphenate_no_newline text :
  Forall (fun x => x <> nl) text -> dehyphenate_text text = text.
Proof.
  unfold dehyphenate_text. induction text as [|c t IH]; intros H.
  - reflexivity.
  - inversion H as [|? ? Hc Ht]; subst.
    rewrite sub_cons; [|reflexivity|apply hyphen_break_needs_newline, Ht].
    f_equal. apply IH, Ht.
Qed.

Example dehyphenate_examples :
  dehyphenate_text (lit "demon-" ++ nl :: lit "stration") = lit "demonstration"
  /\ dehyphenate_text (lit "well-" ++ nl :: lit "known") = lit "wellknown"
  /\ dehyphenate_text (lit "see -" ++ nl :: lit "that") = lit "see -" ++ nl :: lit "that"
  /\ dehyphenate_text (lit "pages 3-" ++ nl :: lit "4") = lit "pages 3-" ++ nl :: lit "4"
  /\ dehyphenate_text (lit "the end-") = lit "the end-".
Proof. vm_compute. repeat split. Qed.

(** C4: dehyphenation is not idempotent. In "a-\nb-\nc" the letter [b]
    belongs to the first match, so the second break is left in place by one
    application and joined by the next. *)
Theorem dehyphenate_text_chain :
  let text := lit "a-" ++ nl :: lit "b-" ++ nl :: lit "c" in
  dehyphenate_text text = lit "ab-" ++ nl :: lit "c"
  /\ dehyphenate_text (dehyphenate_text text) = lit "abc"
  /\ dehyphenate_text (dehyphenate_text text) <> dehyphenate_text text.
Proof. vm_compute. repeat split. discriminate. Qed.

(** ** Paragraph merging *)

Lemma join_app_cons sep (a : list str) x (b : list str) :
  exists u v, join sep (a ++ x :: b) = u ++ x ++ v
              /\ (b = [] -> v = [])
              /\ (a = [] -> u = []).
Proof.
  induction a as [|y a (u & v & E & Hv & Hu)].
  - destruct b as [|z b].
    + exists [], []. simpl. rewrite app_nil_r. auto.
    + exists [], (sep ++ join sep (z :: b)). simpl. split; [reflexivity|].
      split; [discriminate|reflexivity].
  - exists (y ++ sep ++ u), v. cbn [app].
    destruct (a ++ x :: b) as [|w l] eqn:El.
    { destruct a; discriminate. }
    cbn [join]. cbn [join] in E. rewrite E, <- ?app_assoc.
    split; [reflexivity|]. split; [exact Hv|discriminate].
Qed.

(** Two neighbours of a joined list are separated by [sep] alone. *)
Lemma join_neighbours sep (a : list str) x y (b : list str) :
  exists u v, join sep (a ++ x :: y :: b) = u ++ x ++ sep ++ y ++ v.
Proof.
  induction a as [|z a (u & v & E)].
  - destruct b as [|w b].
    + exists [], []. simpl. rewrite app_nil_r. reflexivity.
    + exists [], (sep ++ join sep (w :: b)). simpl. rewrite <- ?app_assoc. reflexivity.
  - exists (z ++ sep ++ u), v. cbn [app].
    destruct (a ++ x :: y :: b) as [|w l] eqn:El.
    { destruct a; discriminate. }
    cbn [join]. cbn [join] in E. rewrite E, <- ?app_assoc. reflexivity.
Qed.

Lemma lstrip_id q s : not_head q s -> lstrip q s = s.
Proof. destruct s as [|c s]; simpl; [reflexivity|]. intros ->. reflexivity. Qed.

Lemma rstrip_app q (u x : str) :
  rstrip q x <> [] -> rstrip q (u ++ x) = u ++ rstrip q x.
Proof.
  intros Hx. induction u as [|c u IH]; [reflexivity|].
  cbn [app rstrip]. rewrite IH.
  destruct (u ++ rstrip q x) eqn:E; [|reflexivity].
  apply app_eq_nil in E as [_ E]. congruence.
Qed.

Section Merge.

Variable T : CharTables.

Abbreviation sp := (isspace T).

(** A line as the buffer holds it: stripped and not empty. *)
Definition stripped (x : str) : Prop := x <> [] /\ strip sp x = x.

Lemma strip_stripped (l : str) : strip sp l <> [] -> stripped (strip sp l).
Proof. intros H. split; [exact H|apply strip_idem]. Qed.

Lemma stripped_not_head x : stripped x -> not_head sp x /\ rstrip sp x = x.
Proof.
  intros [Hn Hs]. unfold strip in Hs.
  pose proof (lstrip_not_head sp x) as Hh.
  destruct (rstrip_prefix sp (lstrip sp x)) as [t Ht]. rewrite Hs in Ht.
  assert (Hl : lstrip sp x = x).
  { destruct x as [|c x]; [congruence|]. simpl in *.
    destruct (sp c) eqn:Hc; [|reflexivity].
    exfalso. pose proof (lstrip_length sp x) as Hlen.
    apply (f_equal (@length N)) in Ht. simpl in Ht. rewrite length_app in Ht. lia. }
  rewrite Hl in Hh, Hs. auto.
Qed.

(** The text of a buffer of stripped lines is the lines joined by single
    spaces: stripping it removes nothing. *)
Lemma buffer_text_join (buffer : list str) :
  buffer <> [] -> Forall stripped buffer ->
  buffer_text T buffer = join [space] buffer /\ buffer_text T buffer <> [].
Proof.
  intros Hne Hall. unfold buffer_text, strip.
  destruct buffer as [|x b]; [congruence|].
  assert (Hx : stripped x) by (inversion Hall; auto).
  destruct (stripped_not_head x Hx) as [Hhx Hrx]. destruct Hx as [Hxn _].
  assert (Hl : lstrip sp (join [space] (x :: b)) = join [space] (x :: b)).
  { apply lstrip_id. destruct x as [|c x]; [congruence|].
    destruct b; exact Hhx. }
  rewrite Hl.
  destruct (@exists_last _ (x :: b) ltac:(discriminate)) as (a & y & Ea).
  rewrite Ea in *.
  assert (Hy : stripped y).
  { apply Forall_app in Hall as [_ Hy]. inversion Hy; auto. }
  destruct (stripped_not_head y Hy) as [_ Hry]. destruct Hy as [Hyn _].
  destruct (join_app_cons [space] a y []) as (u & v & E & Hv & _).
  rewrite (Hv eq_refl), app_nil_r in E. rewrite E.
  rewrite rstrip_app by (rewrite Hry; exact Hyn).
  rewrite Hry. split; [reflexivity|].
  intros H. apply app_eq_nil in H as [_ H]. congruence.
Qed.

(** The paragraphs emitted so far are only appended to. *)
Lemma flush_prefix (ps : list str) (st : merge_state) :
  flush T (ps ++ st.1, st.2) = (ps ++ (flush T st).1, (flush T st).2).
Proof.
  destruct st as [q [|x b]]; unfold flush; simpl; [reflexivity|].
  rewrite app_assoc. reflexivity.
Qed.

Lemma merge_step_prefix (ps : list str) (st : merge_state) (l : str) :
  merge_step T (ps ++ st.1, st.2) l
  = (ps ++ (merge_step T st l).1, (merge_step T st l).2).
Proof.
  unfold merge_step. destruct (strip sp l) as [|c s] eqn:E.
  - apply flush_prefix.
  - destruct (_is_list_item T (c :: s)).
    + rewrite flush_prefix. simpl. rewrite app_assoc. reflexivity.
    + simpl. destruct (last st.2) as [prev|]; [|reflexivity].
      destruct (_ends_sentence T prev); [|reflexivity].
      simpl. rewrite app_assoc. reflexivity.
Qed.

Lemma fold_merge_prefix (lines : list str) :
  forall (ps : list str) (st : merge_state),
    fold_left (merge_step T) lines (ps ++ st.1, st.2)
    = (ps ++ (fold_left (merge_step T) lines st).1,
       (fold_left (merge_step T) lines st).2).
Proof.
  induction lines as [|l lines IH]; intros ps st; simpl.
  - reflexivity.
  - rewrite merge_step_prefix. apply (IH ps (merge_step T st l)).
Qed.

Lemma filter_nonempty_app (a b : list str) :
  List.filter nonempty (a ++ b) = List.filter nonempty a ++ List.filter nonempty b.
Proof. apply List.filter_app. Qed.

(** A list item cuts the input in two: what precedes it and what follows
    it are merged on their own. *)
Lemma merge_list_item (pre : list str) (l : str) (post : list str) :
  _is_list_item T (strip sp l) = true ->
  merge_lines_into_paragraphs T (pre ++ l :: post)
  = merge_lines_into_paragraphs T pre ++ [strip sp l]
    ++ merge_lines_into_paragraphs T post.
Proof.
  intros Hitem. unfold merge_lines_into_paragraphs.
  rewrite fold_left_app. cbn [fold_left].
  set (st1 := fold_left (merge_step T) pre ([], [])).
  assert (Hne : strip sp l <> []).
  { intros E. rewrite E in Hitem. discriminate. }
  assert (Hstep : merge_step T st1 l = ((flush T st1).1 ++ [strip sp l], [])).
  { unfold merge_step. destruct (strip sp l) as [|c s]; [congruence|].
    rewrite Hitem. reflexivity. }
  rewrite Hstep.
  pose proof (fold_merge_prefix post ((flush T st1).1 ++ [strip sp l]) ([], [])) as H.
  simpl in H. rewrite app_nil_r in H. rewrite H.
  set (st2 := fold_left (merge_step T) post ([], [])).
  pose proof (flush_prefix ((flush T st1).1 ++ [strip sp l]) st2) as H2.
  rewrite H2. cbn [fst]. rewrite !filter_nonempty_app. rewrite <- app_assoc.
  f_equal. f_equal. simpl.
  destruct (strip sp l); [congruence|reflexivity].
Qed.

(** The buffer holds stripped lines only. *)
Lemma merge_step_stripped (st : merge_state) (l : str) :
  Forall stripped st.2 -> Forall stripped (merge_step T st l).2.
Proof.
  destruct st as [ps buf]. cbn [snd].
  intros Hb. unfold merge_step. cbn [fst snd]. destruct (strip sp l) as [|c s] eqn:E.
  - unfold flush. cbn [fst snd]. destruct buf; [exact Hb|constructor].
  - assert (Hs : stripped (c :: s)).
    { rewrite <- E. apply strip_stripped. rewrite E. discriminate. }
    destruct (_is_list_item T (c :: s)); [constructor|].
    destruct (last buf) as [prev|].
    + destruct (_ends_sentence T prev); simpl.
      * constructor; [exact Hs|constructor].
      * apply Forall_app. split; [exact Hb|]. constructor; [exact Hs|constructor].
    + simpl. apply Forall_app. split; [exact Hb|]. constructor; [exact Hs|constructor].
Qed.

Lemma fold_merge_stripped (lines : list str) :
  forall st : merge_state,
    Forall stripped st.2 -> Forall stripped (fold_left (merge_step T) lines st).2.
Proof.
  induction lines as [|l lines IH]; intros st Hb; simpl; [exact Hb|].
  apply IH, merge_step_stripped, Hb.
Qed.

(** Two lines are kept together: they are still side by side in the
    buffer, or a paragraph that holds them side by side was emitted. *)
Definition together (x y : str) (st : merge_state) : Prop :=
  (exists a b, st.2 = a ++ x :: y :: b)
  \/ (exists a b, In (join [space] (a ++ x :: y :: b)) st.1).

Lemma flush_together x y (st : merge_state) :
  Forall stripped st.2 -> together x y st ->
  exists a b, In (join [space] (a ++ x :: y :: b)) (flush T st).1.
Proof.
  destruct st as [ps buf]. unfold together. cbn [fst snd].
  intros Hb [(a & b & E)|(a & b & H)].
  - exists a, b. unfold flush. cbn [fst snd]. subst buf.
    destruct (a ++ x :: y :: b) as [|z w] eqn:Ez; [destruct a; discriminate|].
    cbn [fst]. apply in_or_app. right. left.
    apply buffer_text_join; [discriminate|exact Hb].
  - exists a, b. unfold flush. cbn [fst snd]. destruct buf; [exact H|].
    cbn [fst]. apply in_or_app. left. exact H.
Qed.

Lemma merge_step_together x y (st : merge_state) (l : str) :
  Forall stripped st.2 -> together x y st -> together x y (merge_step T st l).
Proof.
  intros Hb Ht. unfold merge_step. destruct (strip sp l) as [|c s] eqn:E.
  - right. apply flush_together; assumption.
  - destruct (_is_list_item T (c :: s)).
    + right. destruct (flush_together x y st Hb Ht) as (a & b & H).
      exists a, b. cbn [fst]. apply in_or_app. left. exact H.
    + destruct st as [ps buf]. unfold together in *. cbn [fst snd] in *.
      destruct Ht as [(a & b & Eb)|(a & b & H)].
      * assert (Hl : exists prev, last buf = Some prev).
        { rewrite Eb. destruct (last (a ++ x :: y :: b)) eqn:El; [eauto|].
          apply last_None in El. destruct a; discriminate. }
        destruct Hl as [prev ->]. destruct (_ends_sentence T prev).
        -- right. exists a, b. cbn [fst]. apply in_or_app. right. left.
           rewrite <- Eb. apply buffer_text_join; [|exact Hb].
           rewrite Eb. destruct a; discriminate.
        -- left. exists a, (b ++ [c :: s]). cbn [snd]. rewrite Eb, <- app_assoc.
           reflexivity.
      * right. exists a, b.
        destruct (last buf) as [prev|]; [|exact H].
        destruct (_ends_sentence T prev); [|exact H].
        cbn [fst]. apply in_or_app. left. exact H.
Qed.

Lemma fold_merge_together x y (lines : list str) :
  forall st : merge_state,
    Forall stripped st.2 -> together x y st ->
    together x y (fold_left (merge_step T) lines st)
    /\ Forall stripped (fold_left (merge_step T) lines st).2.
Proof.
  induction lines as [|l lines IH]; intros st Hb Ht; simpl; [auto|].
  apply IH; [apply merge_step_stripped, Hb|apply merge_step_together; assumption].
Qed.

(** Two consecutive lines of prose, the first of which does not end a
    sentence, end up in one paragraph, a single space apart. *)
Lemma merge_keeps_together (pre : list str) (l1 l2 : str) (post : list str) :
  strip sp l1 <> [] -> strip sp l2 <> [] ->
  _is_list_item T (strip sp l1) = false ->
  _is_list_item T (strip sp l2) = false ->
  _ends_sentence T (strip sp l1) = false ->
  exists u v,
    In (u ++ strip sp l1 ++ [space] ++ strip sp l2 ++ v)
       (merge_lines_into_paragraphs T (pre ++ l1 :: l2 :: post)).
Proof.
  intros H1 H2 Hi1 Hi2 Hs1. unfold merge_lines_into_paragraphs.
  rewrite fold_left_app. cbn [fold_left].
  set (st0 := fold_left (merge_step T) pre ([], [])).
  assert (Hb0 : Forall stripped st0.2).
  { apply fold_merge_stripped. constructor. }
  set (st1 := merge_step T st0 l1).
  assert (Hb1 : Forall stripped st1.2) by (apply merge_step_stripped, Hb0).
  assert (Hl1 : exists a, st1.2 = a ++ [strip sp l1]).
  { unfold st1, merge_step. destruct (strip sp l1) as [|c s] eqn:E; [congruence|].
    rewrite Hi1. destruct (last st0.2) as [prev|].
    - destruct (_ends_sentence T prev); simpl; [exists []|exists st0.2]; reflexivity.
    - simpl. exists st0.2. reflexivity. }
  destruct Hl1 as [a Ha].
  set (st2 := merge_step T st1 l2).
  assert (Hb2 : Forall stripped st2.2) by (apply merge_step_stripped, Hb1).
  assert (Ht2 : together (strip sp l1) (strip sp l2) st2).
  { left. exists a, []. unfold st2, merge_step.
    destruct (strip sp l2) as [|c s] eqn:E; [congruence|].
    rewrite Hi2, Ha, last_snoc, Hs1. simpl. rewrite <- app_assoc. reflexivity. }
  destruct (fold_merge_together _ _ post st2 Hb2 Ht2) as [Ht Hb].
  destruct (flush_together _ _ _ Hb Ht) as (a' & b' & Hin).
  destruct (join_neighbours [space] a' (strip sp l1) (strip sp l2) b') as (u & v & E).
  exists u, v. rewrite <- E. apply filter_In. split; [exact Hin|].
  rewrite E. destruct u; [|reflexivity]. simpl.
  destruct (strip sp l1); [congruence|reflexivity].
Qed.

Lemma merge_nonempty (lines : list str) (p : str) :
  In p (merge_lines_into_paragraphs T lines) -> p <> [].
Proof.
  unfold merge_lines_into_paragraphs. intros H. apply filter_In in H as [_ H].
  destruct p; [discriminate|discriminate].
Qed.

End Merge.

(** C6: a line that matches the list-item pattern is a paragraph of its
    own, and what precedes and follows it is merged without it; two
    consecutive lines that are neither blank nor list items, the first of
    which does not end a sentence, are in one paragraph, a single space
    apart; and no paragraph of the output is empty. *)
Theorem merge_lines_into_paragraphs_spec (T : CharTables) :
  (forall (pre : list str) (l : str) (post : list str),
      _is_list_item T (strip (isspace T) l) = true ->
      merge_lines_into_paragraphs T (pre ++ l :: post)
      = merge_lines_into_paragraphs T pre ++ [strip (isspace T) l]
        ++ merge_lines_into_paragraphs T post)
  /\ (forall (pre : list str) (l1 l2 : str) (post : list str),
        strip (isspace T) l1 <> [] -> strip (isspace T) l2 <> [] ->
        _is_list_item T (strip (isspace T) l1) = false ->
        _is_list_item T (strip (isspace T) l2) = false ->
        _ends_sentence T (strip (isspace T) l1) = false ->
        exists u v,
          In (u ++ strip (isspace T) l1 ++ [space] ++ strip (isspace T) l2 ++ v)
             (merge_lines_into_paragraphs T (pre ++ l1 :: l2 :: post)))
  /\ (forall (lines : list str) (p : str),
        In p (merge_lines_into_paragraphs T lines) -> p <> []).
Proof.
  split; [apply merge_list_item|].
  split; [apply merge_keeps_together|apply merge_nonempty].
Qed.

Example merge_lines_examples :
  merge_lines_into_paragraphs basic_tables
    [lit "Hello"; lit " world."; lit "- item"; lit "next"; lit "  ";
     lit "1. x"; lit "end"]
  = [lit "Hello world."; lit "- item"; lit "next"; lit "1. x"; lit "end"].
Proof. vm_compute. reflexivity. Qed.

(** ** Whitespace normalization *)

Definition has_nl (s : str) : bool := existsb (N.eqb nl) s.

(** What becomes of a run of whitespace: one newline if it holds a
    newline, and otherwise the run with its spaces and tabs collapsed. *)
Definition squeeze_run (w : str) : str :=
  if has_nl w then [nl] else collapse space_or_tab space w.

(** The text with every maximal run of whitespace squeezed; [pending] is
    the run being read. *)
Fixpoint squeeze_go (ws : char -> bool) (pending : str) (s : str) : str :=
  match s with
  | [] => squeeze_run pending
  | c :: t =>
      if ws c then squeeze_go ws (pending ++ [c]) t
      else squeeze_run pending ++ c :: squeeze_go ws [] t
  end.

Definition squeeze_whitespace (ws : char -> bool) (s : str) : str :=
  squeeze_go ws [] s.

(** The text after the last newline, and the text up to it. *)
Fixpoint last_line (s : str) : str :=
  match s with
  | [] => []
  | x :: t => if has_nl t then last_line t else if x =? nl then t else x :: t
  end.

Fixpoint upto_last_nl (s : str) : str :=
  match s with
  | [] => []
  | x :: t => if has_nl t then x :: upto_last_nl t else if x =? nl then [x] else []
  end.

Lemma upto_last_line s : upto_last_nl s ++ last_line s = s.
Proof.
  induction s as [|x t IH]; cbn [upto_last_nl last_line]; [reflexivity|].
  destruct (has_nl t); [cbn [app]; congruence|]. destruct (x =? nl); reflexivity.
Qed.

Lemma last_line_no_nl s : has_nl (last_line s) = false.
Proof.
  induction s as [|x t IH]; cbn [last_line]; [reflexivity|].
  destruct (has_nl t) eqn:Ht; [exact IH|].
  destruct (x =? nl) eqn:Hx; [exact Ht|]. cbn [has_nl existsb].
  fold (has_nl t). rewrite N.eqb_sym, Hx, Ht. reflexivity.
Qed.

Lemma last_line_Forall (P : char -> Prop) s : Forall P s -> Forall P (last_line s).
Proof.
  induction s as [|x t IH]; cbn [last_line]; [auto|]. intros H.
  inversion H as [|? ? Hx Ht]; subst.
  destruct (has_nl t); [auto|]. destruct (x =? nl); auto.
Qed.

(** What the second and the third substitution make of a run of
    whitespace. *)
Definition before_nl_run (w : str) : str :=
  match w with
  | [] => []
  | c :: w' => if has_nl w' then nl :: last_line w' else w
  end.

Fixpoint after_nl_run (w : str) : str :=
  match w with
  | [] => []
  | c :: w' => if c =? nl then [nl] else c :: after_nl_run w'
  end.

Lemma collapse_app p x (w rest : str) :
  not_head p rest ->
  collapse p x (w ++ rest) = collapse p x w ++ collapse p x rest.
Proof.
  intros Hr. induction w as [|c w IH]; [reflexivity|].
  destruct w as [|d w].
  - simpl. destruct (p c); [|reflexivity].
    destruct rest as [|e rest]; [reflexivity|]. simpl in Hr. rewrite Hr. reflexivity.
  - change ((c :: d :: w) ++ rest) with (c :: d :: w ++ rest).
    change ((d :: w) ++ rest) with (d :: w ++ rest) in IH.
    cbn [collapse]. cbn [collapse] in IH.
    destruct (p c), (p d); cbn [app]; rewrite IH; reflexivity.
Qed.

Lemma collapse_Forall (P : char -> Prop) p x s :
  P x -> Forall P s -> Forall P (collapse p x s).
Proof.
  intros Hx. induction s as [|c t IH]; simpl; [auto|]. intros H.
  inversion H as [|? ? Hc Ht]; subst.
  destruct (p c); [|auto]. destruct t as [|d t']; [auto|].
  destruct (p d); auto.
Qed.

Lemma has_nl_cons c s : has_nl (c :: s) = (nl =? c) || has_nl s.
Proof. reflexivity. Qed.

Lemma collapse_has_nl s : has_nl (collapse space_or_tab space s) = has_nl s.
Proof.
  induction s as [|c t IH]; [reflexivity|]. cbn [collapse].
  rewrite (has_nl_cons c t).
  destruct (space_or_tab c) eqn:Hc.
  - assert (Hn : (nl =? c) = false).
    { unfold space_or_tab in Hc. apply orb_true_iff in Hc as [H|H];
        apply N.eqb_eq in H; subst; reflexivity. }
    rewrite Hn. cbn [orb].
    destruct t as [|d t']; [reflexivity|].
    destruct (space_or_tab d); [exact IH|].
    rewrite has_nl_cons, IH. reflexivity.
  - rewrite has_nl_cons, IH. reflexivity.
Qed.

Section Whitespace.

Variable T : CharTables.

Abbreviation ws := (rx_s T).

Hypothesis ws_nl : ws nl = true.
Hypothesis ws_space : ws space = true.
Hypothesis ws_tab : ws tab = true.

Abbreviation re_before_nl := (Seq (plus ws) (Chr nl)).
Abbreviation re_after_nl := (Seq (Chr nl) (plus ws)).
Abbreviation to_nl := (fun _ : str => [nl]).

Lemma not_ws_not_nl c : ws c = false -> (c =? nl) = false.
Proof using ws_nl.
  intros Hc. apply N.eqb_neq. intros ->. rewrite ws_nl in Hc. discriminate.
Qed.

Lemma not_head_blank rest : not_head ws rest -> not_head space_or_tab rest.
Proof using ws_space ws_tab.
  destruct rest as [|c rest]; simpl; [auto|]. intros Hc.
  unfold space_or_tab. apply orb_false_iff.
  split; apply N.eqb_neq; intros ->;
    [rewrite ws_space in Hc|rewrite ws_tab in Hc]; discriminate.
Qed.

(** The matches of [\s*] followed by a newline inside a run: the first
    one found ends at the last newline of the run. *)
Lemma newline_in_run (w rest : str) :
  Forall (fun c => ws c = true) w -> not_head ws rest ->
  forall prev,
    let found := flat_map (ends (Chr nl)) (rep_ends ws 0 None prev (w ++ rest)) in
    if has_nl w then exists pv tl, found = (pv, last_line w ++ rest) :: tl
    else found = [].
Proof using ws_nl.
  intros Hw Hr. induction w as [|x w IH]; intros prev found; subst found.
  - cbn [has_nl existsb app]. destruct rest as [|c rest]; [reflexivity|].
    simpl in Hr. cbn [rep_ends]. rewrite Hr. cbn [flat_map ends snd].
    rewrite (not_ws_not_nl c Hr). reflexivity.
  - inversion Hw as [|? ? Hx Hw']; subst.
    specialize (IH Hw' (Some x)). cbn zeta in IH.
    set (f := ends (Chr nl)) in *.
    cbn [app rep_ends]. rewrite Hx. cbn [pred fmap option_fmap option_map].
    rewrite flat_map_app. cbn [flat_map]. rewrite app_nil_r.
    assert (Hf : f (prev, x :: w ++ rest)
                 = if x =? nl then [(Some x, w ++ rest)] else []) by reflexivity.
    rewrite Hf. rewrite has_nl_cons, (N.eqb_sym nl x). cbn [last_line].
    destruct (has_nl w).
    + destruct IH as (pv & tl & ->). rewrite orb_true_r. cbn [app]. eauto.
    + rewrite IH, orb_false_r. destruct (x =? nl); [|reflexivity].
      cbn [app]. eauto.
Qed.

Lemma before_nl_head c (w rest : str) :
  ws c = true -> Forall (fun c => ws c = true) w -> not_head ws rest ->
  if has_nl w
  then exists pv tl, ends re_before_nl (None, c :: w ++ rest)
                     = (pv, last_line w ++ rest) :: tl
  else ends re_before_nl (None, c :: w ++ rest) = [].
Proof using ws_nl.
  intros Hc Hw Hr. pose proof (newline_in_run w rest Hw Hr (Some c)) as H.
  cbn zeta in H. cbn [ends plus snd fst rep_ends]. rewrite Hc.
  cbn [pred fmap option_fmap option_map]. rewrite app_nil_r. exact H.
Qed.

Lemma sub_before_nl_cons c t :
  ws c = false -> sub re_before_nl to_nl (c :: t) = c :: sub re_before_nl to_nl t.
Proof.
  intros Hc. apply sub_cons; [reflexivity|].
  cbn [ends plus snd fst]. rewrite rep_ends_none; [reflexivity|lia|exact Hc].
Qed.

Lemma sub_before_nl_rest rest :
  not_head ws rest ->
  exists t, sub re_before_nl to_nl rest = t /\ not_head ws t.
Proof.
  intros Hr. destruct rest as [|c rest].
  - exists []. split; [reflexivity|exact I].
  - simpl in Hr. rewrite (sub_before_nl_cons c rest Hr). eexists. split; [reflexivity|exact Hr].
Qed.

Lemma sub_before_nl_plain (v rest : str) :
  Forall (fun c => ws c = true) v -> has_nl v = false -> not_head ws rest ->
  sub re_before_nl to_nl (v ++ rest) = v ++ sub re_before_nl to_nl rest.
Proof using ws_nl.
  intros Hv Hn Hr. induction v as [|x v IH]; [reflexivity|].
  inversion Hv as [|? ? Hx Hv']; subst.
  cbn [has_nl existsb] in Hn. apply orb_false_iff in Hn as [_ Hn].
  pose proof (before_nl_head x v rest Hx Hv' Hr) as H. fold (has_nl v) in Hn.
  rewrite Hn in H. cbn [app]. rewrite sub_cons; [|reflexivity|exact H].
  f_equal. apply IH; assumption.
Qed.

Lemma sub_before_nl_run (w rest : str) :
  Forall (fun c => ws c = true) w -> not_head ws rest ->
  sub re_before_nl to_nl (w ++ rest) = before_nl_run w ++ sub re_before_nl to_nl rest.
Proof using ws_nl.
  intros Hw Hr. destruct w as [|c w]; [reflexivity|].
  inversion Hw as [|? ? Hc Hw']; subst.
  pose proof (before_nl_head c w rest Hc Hw' Hr) as H.
  cbn [before_nl_run]. destruct (has_nl w) eqn:Hn.
  - destruct H as (pv & tl & H).
    assert (E : (c :: w) ++ rest = (c :: upto_last_nl w) ++ (last_line w ++ rest)).
    { cbn [app]. rewrite app_assoc, upto_last_line. reflexivity. }
    rewrite E. rewrite <- (upto_last_line w) in H at 1.
    rewrite <- app_assoc in H.
    rewrite (sub_match re_before_nl to_nl eq_refl (c :: upto_last_nl w)
               (last_line w ++ rest) pv tl ltac:(discriminate) H).
    cbn [app]. f_equal.
    apply sub_before_nl_plain; [apply last_line_Forall, Hw'|apply last_line_no_nl|exact Hr].
  - cbn [app]. rewrite sub_cons; [|reflexivity|exact H]. f_equal.
    apply sub_before_nl_plain; assumption.
Qed.

Lemma sub_after_nl_cons c t :
  ws c = false -> sub re_after_nl to_nl (c :: t) = c :: sub re_after_nl to_nl t.
Proof using ws_nl.
  intros Hc. apply sub_cons; [reflexivity|].
  cbn [ends snd fst]. rewrite (not_ws_not_nl c Hc). reflexivity.
Qed.

Lemma sub_after_nl_run (w rest : str) :
  Forall (fun c => ws c = true) w -> not_head ws rest ->
  sub re_after_nl to_nl (w ++ rest) = after_nl_run w ++ sub re_after_nl to_nl rest.
Proof using ws_nl.
  intros Hw Hr. induction w as [|c w IH]; [reflexivity|].
  inversion Hw as [|? ? Hc Hw']; subst. cbn [after_nl_run app].
  destruct (c =? nl) eqn:Hn.
  - apply N.eqb_eq in Hn. subst c. destruct w as [|d w].
    + cbn [app]. rewrite sub_cons; [reflexivity|reflexivity|].
      cbn [ends snd fst flat_map plus]. rewrite N.eqb_refl. cbn [flat_map].
      rewrite rep_ends_none; [reflexivity|lia|exact Hr].
    + destruct (rep_ends_head ws (d :: w) 1 (Some nl) rest Hw') as [tl Htl];
        [simpl; lia|exact Hr|].
      assert (H : ends re_after_nl (None, (nl :: d :: w) ++ rest)
                  = (last_or (Some nl) (d :: w), rest) :: tl).
      { cbn [ends snd fst flat_map plus app]. rewrite N.eqb_refl. cbn [flat_map].
        rewrite app_nil_r. exact Htl. }
      pose proof (sub_match re_after_nl to_nl eq_refl (nl :: d :: w) rest _ tl
                    ltac:(discriminate) H) as Hm.
      cbn [app] in Hm. cbn [app]. rewrite Hm. reflexivity.
  - rewrite sub_cons; [|reflexivity|].
    + cbn [app]. f_equal. apply IH, Hw'.
    + cbn [ends snd fst flat_map]. rewrite Hn. reflexivity.
Qed.

Lemma before_nl_run_Forall (w : str) :
  Forall (fun c => ws c = true) w -> Forall (fun c => ws c = true) (before_nl_run w).
Proof using ws_nl.
  intros Hw. destruct w as [|c w]; [constructor|]. cbn [before_nl_run].
  inversion Hw as [|? ? Hc Hw']; subst.
  destruct (has_nl w); [|exact Hw]. constructor; [exact ws_nl|].
  apply last_line_Forall, Hw'.
Qed.

Lemma after_nl_run_plain (w : str) : has_nl w = false -> after_nl_run w = w.
Proof.
  induction w as [|c w IH]; [reflexivity|]. cbn [has_nl existsb after_nl_run].
  intros H. apply orb_false_iff in H as [Hc Hw]. rewrite N.eqb_sym, Hc.
  f_equal. apply IH, Hw.
Qed.

(** The three substitutions together, on a run of whitespace. *)
Lemma squeeze_run_spec (w : str) :
  after_nl_run (before_nl_run (collapse space_or_tab space w)) = squeeze_run w.
Proof.
  unfold squeeze_run. rewrite <- (collapse_has_nl w).
  destruct (collapse space_or_tab space w) as [|c v]; [reflexivity|].
  cbn [before_nl_run]. destruct (has_nl v) eqn:Hv.
  - cbn [has_nl existsb]. fold (has_nl v). rewrite Hv, orb_true_r.
    cbn [after_nl_run]. rewrite N.eqb_refl. reflexivity.
  - cbn [has_nl existsb]. fold (has_nl v). rewrite Hv, orb_false_r.
    cbn [after_nl_run]. rewrite (N.eqb_sym c nl). destruct (nl =? c); [reflexivity|].
    rewrite (after_nl_run_plain v Hv). reflexivity.
Qed.

Lemma three_subs (s : str) :
  forall w : str,
    Forall (fun c => ws c = true) w ->
    sub re_after_nl to_nl
      (sub re_before_nl to_nl (collapse space_or_tab space (w ++ s)))
    = squeeze_go ws w s.
Proof using ws_nl ws_space ws_tab.
  induction s as [|c t IH]; intros w Hw.
  - rewrite app_nil_r. cbn [squeeze_go].
    pose proof (collapse_Forall (fun c => ws c = true) space_or_tab space w
                  ws_space Hw) as Hw1.
    pose proof (sub_before_nl_run _ [] Hw1 I) as H2. rewrite app_nil_r in H2.
    rewrite H2. change (sub re_before_nl to_nl []) with (@nil N).
    pose proof (sub_after_nl_run _ [] (before_nl_run_Forall _ Hw1) I) as H3.
    rewrite H3. change (sub re_after_nl to_nl []) with (@nil N).
    rewrite !app_nil_r. apply squeeze_run_spec.
  - cbn [squeeze_go]. destruct (ws c) eqn:Hc.
    + replace (w ++ c :: t) with ((w ++ [c]) ++ t) by (rewrite <- app_assoc; reflexivity).
      apply IH. apply Forall_app. split; [exact Hw|]. constructor; [exact Hc|constructor].
    + assert (Hh : not_head ws (c :: t)) by exact Hc.
      pose proof (collapse_Forall (fun c => ws c = true) space_or_tab space w
                    ws_space Hw) as Hw1.
      rewrite collapse_app by (apply not_head_blank, Hh).
      assert (Hcc : collapse space_or_tab space (c :: t)
                    = c :: collapse space_or_tab space t).
      { cbn [collapse]. pose proof (not_head_blank (c :: t) Hh) as Hb.
        simpl in Hb. rewrite Hb. reflexivity. }
      rewrite Hcc.
      rewrite sub_before_nl_run by (auto; exact Hc).
      rewrite (sub_before_nl_cons c _ Hc).
      rewrite sub_after_nl_run by (auto using before_nl_run_Forall; exact Hc).
      rewrite (sub_after_nl_cons c _ Hc).
      rewrite squeeze_run_spec. f_equal. f_equal.
      apply (IH [] ltac:(constructor)).
Qed.

Lemma normalize_whitespace_squeeze (text : str) :
  normalize_whitespace T text
  = strip (isspace T) (squeeze_whitespace ws text).
Proof using ws_nl ws_space ws_tab.
  unfold normalize_whitespace, squeeze_whitespace.
  rewrite sub_plus_collapse. f_equal. apply (three_subs text [] ltac:(constructor)).
Qed.

End Whitespace.

(** C5, as amended: whitespace normalization replaces every maximal run of
    whitespace that holds a newline by one newline (so blank lines go), in
    every other run collapses the spaces and tabs to one space, and trims
    the result; nothing else changes. *)
Theorem normalize_whitespace_spec (T : CharTables) (text : str) :
  rx_s T nl = true -> rx_s T space = true -> rx_s T tab = true ->
  normalize_whitespace T text
  = strip (isspace T) (squeeze_whitespace (rx_s T) text).
Proof. intros. apply normalize_whitespace_squeeze; assumption. Qed.

Lemma normalize_whitespace_spec_witness :
  let text := lit "  one " ++ tab :: lit " two " ++ nl :: lit " " ++ nl :: lit "three " in
  normalize_whitespace basic_tables text
  = strip (isspace basic_tables) (squeeze_whitespace (rx_s basic_tables) text)
  /\ normalize_whitespace basic_tables text = lit "one two" ++ nl :: lit "three".
Proof.
  split.
  - apply (normalize_whitespace_spec basic_tables); reflexivity.
  - vm_compute. reflexivity.
Defined.

(** C5, as stated, fails: the blank line between two paragraphs is
    removed. *)
Lemma normalize_whitespace_removes_blank_line :
  let text := lit "a" ++ nl :: nl :: lit "b" in
  normalize_whitespace basic_tables text = lit "a" ++ nl :: lit "b"
  /\ count_char nl text = 2%nat
  /\ count_char nl (normalize_whitespace basic_tables text) = 1%nat.
Proof. vm_compute. repeat split. Qed.

(** ** Repeated headers and footers *)

(** The number of times [text] occurs in a list. *)
Definition occurrences (text : str) (l : list str) : nat :=
  length (filter (fun t => t = text) l).

Section Repetition.

Variable T : CharTables.
Variables header_max_lines footer_max_lines : Z.

(** The candidate strings of a page and of a document: the normalized texts
    of the header and footer lines, the empty ones left out. *)
Definition page_texts (lines : list line) : list str :=
  List.filter nonempty
    (map (fun l => normalize_line T (line_text l))
         (page_candidates header_max_lines footer_max_lines lines)).

Definition candidate_texts (pages_lines : list (list line)) : list str :=
  flat_map page_texts pages_lines.

Abbreviation tally m text := (default 0%nat ((m : gmap (list N) nat) !! (text : list N))).

Lemma occurrences_app text (a b : list str) :
  occurrences text (a ++ b) = (occurrences text a + occurrences text b)%nat.
Proof. unfold occurrences. rewrite filter_app, length_app. reflexivity. Qed.

Lemma occurrences_cons text x (l : list str) :
  occurrences text (x :: l)
  = ((if decide (x = text) then 1 else 0) + occurrences text l)%nat.
Proof.
  unfold occurrences. rewrite filter_cons. destruct (decide (x = text)); reflexivity.
Qed.

Lemma count_line_tally (counts : gmap str nat) (l : line) (text : str) :
  tally (count_line T counts l) text
  = (tally counts text
     + occurrences text (List.filter nonempty [normalize_line T (line_text l)]))%nat.
Proof.
  unfold count_line. destruct (normalize_line T (line_text l)) as [|c s] eqn:E.
  - simpl. unfold occurrences. simpl. lia.
  - cbn [List.filter nonempty]. rewrite occurrences_cons.
    destruct (decide (c :: s = text)) as [<-|Hne].
    + rewrite lookup_insert_eq. simpl. unfold occurrences. simpl. lia.
    + rewrite lookup_insert_ne by exact Hne. unfold occurrences. simpl. lia.
Qed.

Lemma fold_count_line_tally (lines : list line) :
  forall (counts : gmap str nat) (text : str),
    tally (fold_left (count_line T) lines counts) text
    = (tally counts text
       + occurrences text
           (List.filter nonempty (map (fun l => normalize_line T (line_text l)) lines)))%nat.
Proof.
  induction lines as [|l lines IH]; intros counts text.
  - simpl. unfold occurrences. simpl. lia.
  - cbn [fold_left]. rewrite IH, count_line_tally.
    change (l :: lines) with ([l] ++ lines).
    rewrite map_app, List.filter_app, occurrences_app. cbn [map]. lia.
Qed.

Lemma fold_count_page_tally (pages_lines : list (list line)) :
  forall (counts : gmap str nat) (text : str),
    tally (fold_left (count_page T header_max_lines footer_max_lines)
                     pages_lines counts) text
    = (tally counts text + occurrences text (candidate_texts pages_lines))%nat.
Proof.
  induction pages_lines as [|lines pages IH]; intros counts text.
  - simpl. unfold occurrences. simpl. lia.
  - cbn [fold_left candidate_texts flat_map]. rewrite IH.
    unfold count_page. rewrite fold_count_line_tally, occurrences_app.
    rewrite Nat.add_assoc. reflexivity.
Qed.

Lemma repetition_threshold_ge n ratio thr :
  repetition_threshold n ratio = Some thr -> (2 <= thr)%Z.
Proof.
  unfold repetition_threshold. destruct (int_of_float _); simpl; [|discriminate].
  intros [= <-]. lia.
Qed.

Lemma detect_spec (pages_lines : list (list line)) (ratio : float) (thr : Z) :
  repetition_threshold (length pages_lines) ratio = Some thr ->
  exists repeated,
    detect_header_footer_lines T pages_lines header_max_lines footer_max_lines ratio
    = Some repeated
    /\ forall text,
         text ∈ repeated <->
         (2 <= length pages_lines)%nat
         /\ (thr <= Z.of_nat (occurrences text (candidate_texts pages_lines)))%Z.
Proof.
  intros Hthr. pose proof (repetition_threshold_ge _ _ _ Hthr) as Hge.
  unfold detect_header_footer_lines.
  destruct (length pages_lines =? 0)%nat eqn:E0.
  - apply Nat.eqb_eq in E0. exists ∅. split; [reflexivity|].
    intros text. rewrite E0. split; [intros H; inversion H|lia].
  - rewrite Hthr. cbn [mbind option_bind].
    destruct (length pages_lines <? 2)%nat eqn:E2.
    + apply Nat.ltb_lt in E2. exists ∅. split; [reflexivity|].
      intros text. split; [intros H; inversion H|lia].
    + apply Nat.ltb_ge in E2. eexists. split; [reflexivity|].
      intros text. rewrite elem_of_dom. unfold is_Some.
      setoid_rewrite map_lookup_filter_Some. cbn [snd].
      pose proof (fold_count_page_tally pages_lines ∅ text) as Ht.
      assert (He : (∅ : gmap (list N) nat) !! text = None) by apply lookup_empty.
      rewrite He in Ht.
      destruct (fold_left _ pages_lines ∅ !! text) as [v|] eqn:El.
      * simpl in Ht. subst v. split.
        -- intros (x & [= <-] & Hx). split; [exact E2|exact Hx].
        -- intros [_ Hx]. eexists. split; [reflexivity|exact Hx].
      * simpl in Ht. rewrite <- Ht. split.
        -- intros (x & H & _). discriminate.
        -- intros [_ Hx]. simpl in Hx. lia.
Qed.

End Repetition.

(** A page of three lines, as the tests build them: a header, a body and
    a footer. *)
Definition text_line (text : string) (top : float) : line :=
  {| line_text := lit text;
     line_bbox := Some {| x0 := 72; y0 := top; x1 := 200;
                          y1 := PrimFloat.add top 10 |} |}.

Definition sample_lines (header : string) : list line :=
  [text_line "Body" 100; text_line header 40; text_line "Footer" 760].

(** C2, as amended: when the threshold [max(2, int(N * r + 0.5))] is
    defined, the detector returns a set, and a string is in it exactly when
    the document has at least two pages and the string occurs at least
    [threshold] times among the header and footer candidates; with fewer than
    two pages the set is empty, and for three pages and ratio 0.6 the
    threshold is 2. [int] truncates, so the threshold is [N * r] rounded
    half up, not [N * r + 0.5] rounded. *)
Theorem detect_header_footer_lines_spec (T : CharTables)
    (header_max_lines footer_max_lines : Z) (pages_lines : list (list line))
    (ratio : float) (thr : Z) :
  repetition_threshold (length pages_lines) ratio = Some thr ->
  (exists repeated,
      detect_header_footer_lines T pages_lines header_max_lines footer_max_lines ratio
      = Some repeated
      /\ (forall text,
            text ∈ repeated <->
            (2 <= length pages_lines)%nat
            /\ (thr <= Z.of_nat (occurrences text
                         (candidate_texts T header_max_lines footer_max_lines
                                          pages_lines)))%Z)
      /\ ((length pages_lines < 2)%nat -> repeated = ∅))
  /\ repetition_threshold (length pages_lines) ratio
     = Z.max 2 <$> int_of_float
         (PrimFloat.add (PrimFloat.mul (float_of_nat (length pages_lines)) ratio) 0.5)
  /\ repetition_threshold 3 0.6 = Some 2%Z.
Proof.
  intros Hthr. split; [|split; [reflexivity|vm_compute; reflexivity]].
  destruct (detect_spec T header_max_lines footer_max_lines pages_lines ratio thr Hthr)
    as (repeated & E & Hiff).
  exists repeated. split; [exact E|]. split; [exact Hiff|].
  intros Hlt. apply leibniz_equiv. intros text. split.
  - intros H. apply Hiff in H. lia.
  - intros H. inversion H.
Qed.

Lemma detect_header_footer_lines_spec_witness :
  exists repeated,
    detect_header_footer_lines basic_tables
      [sample_lines "Header"; sample_lines "Header"; sample_lines "Chapter 3"] 1 1 0.6
    = Some repeated
    /\ lit "Header" ∈ repeated /\ lit "Chapter 3" ∉ repeated.
Proof.
  destruct (detect_header_footer_lines_spec basic_tables 1 1
              [sample_lines "Header"; sample_lines "Header"; sample_lines "Chapter 3"]
              0.6 2 ltac:(vm_compute; reflexivity))
    as [(repeated & E & Hiff & _) _].
  exists repeated. split; [exact E|]. split.
  - apply Hiff. split; [simpl; lia|]. vm_compute. discriminate.
  - intros H. apply Hiff in H as [_ H]. vm_compute in H. apply H. reflexivity.
Defined.

(** C2, as stated, fails: in a document of four pages with ratio 0.6 a
    header on two pages is repeated, though [max(2, round(4 * 0.6 + 0.5))]
    is 3. *)
Lemma repeated_below_rounded_threshold :
  let pages := [sample_lines "Header"; sample_lines "Header";
                sample_lines "Chapter 3"; sample_lines "Chapter 4"] in
  (exists repeated,
      detect_header_footer_lines basic_tables pages 1 1 0.6 = Some repeated
      /\ lit "Header" ∈ repeated)
  /\ occurrences (lit "Header") (candidate_texts basic_tables 1 1 pages) = 2%nat
  /\ Z.max 2 <$> round_of_float
       (PrimFloat.add (PrimFloat.mul (float_of_nat (length pages)) 0.6) 0.5)
     = Some 3%Z.
Proof.
  intros pages. split; [|split; vm_compute; reflexivity].
  destruct (detect_spec basic_tables 1 1 pages 0.6 2 ltac:(vm_compute; reflexivity))
    as (repeated & E & Hiff).
  exists repeated. split; [exact E|]. apply Hiff.
  split; [simpl; lia|]. vm_compute. discriminate.
Qed.

(** ** Sorting by a float key *)

Lemma SFcompare_antisym a b :
  SFcompare b a = option_map CompOpp (SFcompare a b).
Proof.
  destruct a as [sa|sa| |sa ma ea], b as [sb|sb| |sb mb eb]; simpl;
    try reflexivity; try (destruct sa; reflexivity); try (destruct sb; reflexivity);
    try (destruct sa, sb; reflexivity).
  destruct sa, sb; try reflexivity; f_equal;
    rewrite (Z.compare_antisym ea eb); destruct (ea ?= eb)%Z; simpl; try reflexivity.
  - pose proof (Pos.compare_antisym ma mb) as H. unfold Pos.compare in H.
    rewrite H. reflexivity.
  - pose proof (Pos.compare_antisym ma mb) as H. unfold Pos.compare in H.
    rewrite H. reflexivity.
Qed.

(** [<] on floats is asymmetric (a NaN is below nothing). *)
Lemma ltb_asym (a b : float) : PrimFloat.ltb a b = true -> PrimFloat.ltb b a = false.
Proof.
  rewrite !FloatAxioms.ltb_spec. unfold SFltb. rewrite (SFcompare_antisym (Prim2SF a) (Prim2SF b)).
  destruct (SFcompare (Prim2SF a) (Prim2SF b)) as [[| |]|]; simpl; congruence.
Qed.

Section Sorting.

Context {A : Type}.

(** [b] does not come before [a]: its key is not below the key of [a]. *)
Definition key_le (a b : float * A) : Prop := PrimFloat.ltb b.1 a.1 = false.

Lemma insert_keyed_perm (x : float * A) (l : list (float * A)) :
  Permutation (insert_keyed x l) (x :: l).
Proof.
  induction l as [|y l IH]; simpl; [reflexivity|].
  destruct (PrimFloat.ltb y.1 x.1); [|reflexivity].
  rewrite IH. apply perm_swap.
Qed.

Lemma sort_keyed_perm (l : list (float * A)) : Permutation (sort_keyed l) l.
Proof.
  induction l as [|x l IH]; simpl; [reflexivity|].
  unfold sort_keyed in *. simpl. rewrite insert_keyed_perm. constructor. exact IH.
Qed.

Lemma insert_keyed_sorted (x : float * A) (l : list (float * A)) :
  Sorted key_le l -> Sorted key_le (insert_keyed x l).
Proof.
  induction l as [|y l IH]; simpl; intros Hs.
  - repeat constructor.
  - destruct (PrimFloat.ltb y.1 x.1) eqn:E.
    + inversion Hs as [|? ? Hs' Hd]; subst. constructor; [apply IH, Hs'|].
      destruct l as [|z l]; simpl.
      * constructor. apply ltb_asym, E.
      * destruct (PrimFloat.ltb z.1 x.1).
        -- inversion Hd; subst. constructor. assumption.
        -- constructor. apply ltb_asym, E.
    + constructor; [exact Hs|]. constructor. exact E.
Qed.

Lemma sort_keyed_sorted (l : list (float * A)) : Sorted key_le (sort_keyed l).
Proof.
  induction l as [|x l IH]; [constructor|].
  unfold sort_keyed in *. simpl. apply insert_keyed_sorted, IH.
Qed.

Variable key : A -> float.

(** From top to bottom: no element has a key below that of the element
    before it. *)
Definition ascending (l : list A) : Prop :=
  Sorted (fun a b => PrimFloat.ltb (key b) (key a) = false) l.

Lemma sort_keyed_keys (l : list (float * A)) :
  Forall (fun p => p.1 = key p.2) l -> Forall (fun p => p.1 = key p.2) (sort_keyed l).
Proof.
  intros H. apply List.Forall_forall. intros p Hp. rewrite List.Forall_forall in H.
  apply H. apply (Permutation_in p (sort_keyed_perm l)). exact Hp.
Qed.

Lemma sorted_by_perm (l : list A) : Permutation (sorted_by key l) l.
Proof.
  unfold sorted_by. rewrite (sort_keyed_perm (map (fun a => (key a, a)) l)).
  rewrite map_map. simpl. rewrite map_id. reflexivity.
Qed.

Lemma sorted_by_ascending (l : list A) : ascending (sorted_by key l).
Proof.
  unfold sorted_by, ascending.
  assert (Hk : Forall (fun p : float * A => p.1 = key p.2)
                      (sort_keyed (map (fun a => (key a, a)) l))).
  { apply sort_keyed_keys. apply List.Forall_forall. intros p Hp.
    apply in_map_iff in Hp as (a & <- & _). reflexivity. }
  pose proof (sort_keyed_sorted (map (fun a => (key a, a)) l)) as Hs.
  induction Hs as [|p q Hs IH Hd]; simpl; [constructor|].
  inversion Hk as [|? ? Hp Hq]; subst. constructor; [apply IH, Hq|].
  destruct Hd as [|r q Hr]; simpl; constructor.
  inversion Hq as [|? ? Hr' _]; subst. unfold key_le in Hr.
  rewrite Hp, Hr' in Hr. exact Hr.
Qed.

(** When every key is defined, [sorted_by_opt] is [sorted_by]. *)
Lemma sorted_by_opt_total (okey : A -> option float) (l : list A) :
  Forall (fun a => okey a = Some (key a)) l ->
  sorted_by_opt okey l = Some (sorted_by key l).
Proof.
  intros H. unfold sorted_by_opt, sorted_by.
  assert (Hm : mapM okey l = Some (map key l)).
  { apply mapM_Some. induction H; constructor; auto. }
  rewrite Hm. simpl. f_equal. f_equal. f_equal.
  clear. induction l as [|a l IH]; simpl; [reflexivity|]. rewrite IH. reflexivity.
Qed.

End Sorting.

(** ** Reading order *)

(** A block of text with a bounding box, and a block without one, as the
    OCR backend produces them. *)
Definition text_block (left top width : float) (text : string) : block :=
  {| block_bbox := Some {| x0 := left; y0 := top;
                           x1 := PrimFloat.add left width;
                           y1 := PrimFloat.add top 10 |};
     block_text := lit text; avg_size := Some 11%float;
     block_type := KText; math_hint := false |}.

Definition bare_block (text : string) : block :=
  {| block_bbox := None; block_text := lit text; avg_size := None;
     block_type := KOcr; math_hint := false |}.

(** C1: on a page where a regular block has a bounding box, the block
    without one is not in the output: the loop that fills the columns
    passes it over and nothing appends it afterwards. When no regular block
    has a bounding box, the early return keeps it. *)
Theorem order_blocks_drops_bare_block :
  order_blocks [text_block 0 0 100 "A"; bare_block "B"] 600
  = Some [text_block 0 0 100 "A"]
  /\ order_blocks [text_block 0 0 500 "Title"; bare_block "B"] 600
     = Some [text_block 0 0 500 "Title"; bare_block "B"].
Proof. split; vm_compute; reflexivity. Qed.

(** C9: [order_blocks] raises on a page of four blocks one of which lies
    far to the right: the squared distance to the centroid overflows, and
    [**] raises [OverflowError]. *)
Theorem order_blocks_overflow :
  let blocks := [text_block 0 0 100 "a"; text_block 0 20 100 "b";
                 text_block 0 40 100 "c"; text_block 1e200 60 100 "d"] in
  order_blocks blocks 600 = None
  /\ _kmeans_1d [0; 0; 0; 1e200]%float 1 12
     = Some ([0; 0; 0; 0]%nat, [2.5e199%float])
  /\ _inertia [0; 0; 0; 1e200]%float [0; 0; 0; 0]%nat [2.5e199%float] = None.
Proof. repeat split; vm_compute; reflexivity. Qed.

(** *** Two columns *)

(** Whether a block is full-width on a page of width 600. *)
Definition full_width (b : block) : bool :=
  match block_bbox b with
  | Some bb => PrimFloat.leb 0.7 (PrimFloat.div (PrimFloat.sub (x1 bb) (x0 bb)) 600)
  | None => false
  end.

Definition left_edge (b : block) : option float := x0 <$> block_bbox b.

Definition top (b : block) : float := top_or_zero (block_bbox b).

(** The blocks of a page read row by row, and a list that alternates
    between two values. *)
Definition interleave (rows : list (block * block)) : list block :=
  flat_map (fun row => [row.1; row.2]) rows.

Fixpoint alternate {A : Type} (a b : A) (n : nat) : list A :=
  match n with
  | O => []
  | S n' => a :: b :: alternate a b n'
  end.

Lemma is_full_width_600 b : is_full_width 600 b = Some (full_width b).
Proof.
  unfold is_full_width, full_width. destruct (block_bbox b); reflexivity.
Qed.

Lemma split_titles_600 (blocks : list block) :
  forall title_blocks regular_blocks,
    split_titles 600 blocks title_blocks regular_blocks
    = Some (title_blocks ++ List.filter full_width blocks,
            regular_blocks ++ List.filter (fun b => negb (full_width b)) blocks).
Proof.
  induction blocks as [|b blocks IH]; intros t r; simpl.
  - rewrite !app_nil_r. reflexivity.
  - rewrite is_full_width_600. simpl. destruct (full_width b); simpl;
      rewrite IH, <- app_assoc; reflexivity.
Qed.

Lemma left_edges_interleave (rows : list (block * block)) :
  Forall (fun row => left_edge row.1 = Some 0%float
                     /\ left_edge row.2 = Some 400%float) rows ->
  omap left_edge (interleave rows) = alternate 0%float 400%float (length rows).
Proof.
  induction 1 as [|[l r] rows [Hl Hr] _ IH]; [reflexivity|].
  cbn [fst snd] in Hl, Hr.
  change (omap left_edge (interleave ((l, r) :: rows)))
    with (match left_edge l with
          | Some x =>
              x :: match left_edge r with
                   | Some y => y :: omap left_edge (interleave rows)
                   | None => omap left_edge (interleave rows)
                   end
          | None =>
              match left_edge r with
              | Some y => y :: omap left_edge (interleave rows)
              | None => omap left_edge (interleave rows)
              end
          end).
  rewrite Hl, Hr, IH. reflexivity.
Qed.

(** The most rows for which the clustering of the two columns was
    evaluated. *)
Definition max_rows : nat := 256.

(** Whether the clustering of [n] rows of left edges 0 and 400 finds two
    columns, with centroids 0 and 400 and the blocks assigned in turn. *)
Definition two_columns_check (n : nat) : bool :=
  match choose_column_count (alternate 0%float 400%float n) 3,
        _kmeans_1d (alternate 0%float 400%float n) 2 12 with
  | Some 2%nat, Some (assignments, [c0; c1]) =>
      bool_decide (assignments = alternate 0%nat 1%nat n)
      && PrimFloat.Leibniz.eqb c0 0%float && PrimFloat.Leibniz.eqb c1 400%float
  | _, _ => false
  end.

Lemma two_columns_checked :
  forallb two_columns_check (seq 2 (max_rows - 1)) = true.
Proof. vm_compute. reflexivity. Qed.

(** The clustering of left edges that alternate between 0 and 400: two
    columns, with centroids 0 and 400. *)
Lemma two_columns_found n :
  (2 <= n <= max_rows)%nat ->
  choose_column_count (alternate 0%float 400%float n) 3 = Some 2%nat
  /\ _kmeans_1d (alternate 0%float 400%float n) 2 12
     = Some (alternate 0%nat 1%nat n, [0%float; 400%float]).
Proof.
  intros Hn. pose proof two_columns_checked as H.
  rewrite forallb_forall in H. specialize (H n).
  assert (Hin : In n (seq 2 (max_rows - 1))) by (apply in_seq; unfold max_rows in *; lia).
  apply H in Hin. unfold two_columns_check in Hin.
  destruct (choose_column_count _ 3) as [[|[|[|k]]]|]; try discriminate.
  destruct (_kmeans_1d _ 2 12) as [[assignments [|c0 [|c1 [|c2 cs]]]]|];
    try discriminate.
  apply andb_true_iff in Hin as [Hin H1]. apply andb_true_iff in Hin as [Ha H0].
  apply bool_decide_eq_true in Ha. apply FloatAxioms.Leibniz.eqb_spec in H0, H1.
  subst. split; reflexivity.
Qed.

Lemma fill_columns_rows (rows : list (block * block)) :
  forall (l r : list block) (assignments : list nat) (idx : nat),
    Forall (fun row => is_Some (block_bbox row.1) /\ is_Some (block_bbox row.2)) rows ->
    drop idx assignments = alternate 0%nat 1%nat (length rows) ->
    fill_columns [l; r] assignments idx (interleave rows)
    = Some [l ++ map fst rows; r ++ map snd rows].
Proof.
  induction rows as [|[a b] rows IH]; intros l r assignments idx Hb Hd.
  - simpl. rewrite !app_nil_r. reflexivity.
  - inversion Hb as [|? ? [[ba Ha] [bb Hbb]] Hb']; subst. simpl in Ha, Hbb, Hd.
    assert (H0 : assignments !! idx = Some 0%nat).
    { rewrite <- (Nat.add_0_r idx), <- lookup_drop, Hd. reflexivity. }
    assert (H1 : assignments !! S idx = Some 1%nat).
    { replace (S idx) with (idx + 1)%nat by lia. rewrite <- lookup_drop, Hd. reflexivity. }
    assert (H2 : drop (S (S idx)) assignments = alternate 0%nat 1%nat (length rows)).
    { replace (S (S idx)) with (idx + 2)%nat by lia.
      rewrite <- drop_drop, Hd. reflexivity. }
    cbn [interleave flat_map fst snd app fill_columns].
    rewrite Ha, H0. cbn [mbind option_bind lookup list_lookup insert list_insert].
    rewrite Hbb, H1. cbn [mbind option_bind lookup list_lookup insert list_insert].
    fold (interleave rows).
    rewrite (IH (l ++ [a]) (r ++ [b]) assignments (S (S idx)) Hb' H2).
    cbn [map fst snd]. rewrite <- !app_assoc. reflexivity.
Qed.

Lemma match_cons {A B : Type} (xs : list A) (a b : B) :
  xs <> [] -> match xs with [] => a | _ :: _ => b end = b.
Proof. destruct xs; [congruence|reflexivity]. Qed.

Lemma order_blocks_two_columns (blocks : list block) (rows : list (block * block)) :
  (2 <= length rows <= max_rows)%nat ->
  List.filter (fun b => negb (full_width b)) blocks = interleave rows ->
  Forall (fun row => left_edge row.1 = Some 0%float
                     /\ left_edge row.2 = Some 400%float) rows ->
  order_blocks blocks 600
  = Some (sorted_by top (List.filter full_width blocks)
          ++ sorted_by top (map fst rows) ++ sorted_by top (map snd rows)).
Proof.
  intros Hn Hreg Hrows.
  destruct (two_columns_found (length rows) Hn) as [Hk Hkm].
  assert (Hbb : Forall (fun row : block * block =>
                          is_Some (block_bbox row.1) /\ is_Some (block_bbox row.2)) rows).
  { eapply List.Forall_impl; [|exact Hrows]. intros [l r] [Hl Hr]. unfold left_edge in *.
    cbn [fst snd] in *. split.
    - destruct (block_bbox l); [eauto|discriminate].
    - destruct (block_bbox r); [eauto|discriminate]. }
  assert (Hne : alternate 0%float 400%float (length rows) <> []).
  { destruct (length rows); [lia|discriminate]. }
  unfold order_blocks.
  destruct blocks as [|b0 blocks0] eqn:Eb.
  { simpl in Hreg. destruct rows; [simpl in Hn; lia|discriminate]. }
  rewrite <- Eb in *. clear Eb b0 blocks0.
  rewrite split_titles_600. cbn [mbind option_bind fst snd app]. rewrite Hreg.
  change (omap (fun b : block => x0 <$> block_bbox b) (interleave rows))
    with (omap left_edge (interleave rows)).
  rewrite (left_edges_interleave rows Hrows).
  rewrite (match_cons _ _ _ Hne), Hk. cbn [mbind option_bind].
  rewrite Hkm. cbn [mbind option_bind fst snd replicate].
  rewrite (fill_columns_rows rows [] [] _ 0 Hbb eq_refl).
  cbn [mbind option_bind app].
  assert (Hcol : forall col : list block,
             Forall (fun b => is_Some (block_bbox b)) col ->
             sorted_by_opt (fun b => y0 <$> block_bbox b) col = Some (sorted_by top col)).
  { intros col Hc. apply sorted_by_opt_total. eapply List.Forall_impl; [|exact Hc].
    intros b [bb Hb]. unfold top. rewrite Hb. reflexivity. }
  assert (Hm : mapM (sorted_by_opt (fun b : block => y0 <$> block_bbox b))
                 [map fst rows; map snd rows]
               = Some [sorted_by top (map fst rows); sorted_by top (map snd rows)]).
  { apply mapM_Some. repeat constructor; apply Hcol; apply List.Forall_map;
      (eapply List.Forall_impl; [|exact Hbb]); intros [l r] [Hl Hr]; assumption. }
  rewrite Hm. cbn [mbind option_bind].
  assert (Hs : forall cl cr : list block,
             sorted_by_opt (fun item : nat * list block => [0%float; 400%float] !! item.1)
               (zip (seq 0 2) [cl; cr])
             = Some [(0%nat, cl); (1%nat, cr)]) by reflexivity.
  rewrite Hs. cbn [mbind option_bind map snd concat]. rewrite app_nil_r. reflexivity.
Qed.

(** Where the claim holds: on a page of width 600 whose regular blocks,
    read in input order, alternate between left edge 0 and left edge 400
    exactly, the output is the full-width blocks, then the blocks of the
    left column, then those of the right column, each group from top to
    bottom (the clustering is evaluated for 2 to [max_rows] rows); and fewer
    than 4 left edges give one column. *)
Theorem order_blocks_two_column_page (blocks : list block)
    (rows : list (block * block)) :
  (2 <= length rows <= max_rows)%nat ->
  List.filter (fun b => negb (full_width b)) blocks = interleave rows ->
  Forall (fun row => left_edge row.1 = Some 0%float
                     /\ left_edge row.2 = Some 400%float) rows ->
  (exists titles lefts rights,
      order_blocks blocks 600 = Some (titles ++ lefts ++ rights)
      /\ Permutation titles (List.filter full_width blocks)
      /\ Permutation lefts (map fst rows)
      /\ Permutation rights (map snd rows)
      /\ ascending top titles /\ ascending top lefts /\ ascending top rights)
  /\ (forall (x0s : list float) (max_k : nat),
        (length x0s < 4)%nat -> choose_column_count x0s max_k = Some 1%nat).
Proof.
  intros Hn Hreg Hrows. split.
  - exists (sorted_by top (List.filter full_width blocks)),
           (sorted_by top (map fst rows)), (sorted_by top (map snd rows)).
    split; [apply order_blocks_two_columns; assumption|].
    repeat split; auto using sorted_by_perm, sorted_by_ascending.
  - intros x0s max_k Hlen. unfold choose_column_count.
    apply Nat.ltb_lt in Hlen. rewrite Hlen. reflexivity.
Qed.

Definition sample_rows : list (block * block) :=
  [(text_block 0 20 150 "L2", text_block 400 0 150 "R1");
   (text_block 0 0 150 "L1", text_block 400 20 150 "R2")].

Definition sample_page : list block :=
  [text_block 0 20 150 "L2"; text_block 400 0 150 "R1";
   text_block 0 (-20) 550 "Title";
   text_block 0 0 150 "L1"; text_block 400 20 150 "R2"].

Lemma order_blocks_two_column_page_witness :
  (exists titles lefts rights,
      order_blocks sample_page 600 = Some (titles ++ lefts ++ rights)
      /\ Permutation titles (List.filter full_width sample_page)
      /\ Permutation lefts (map fst sample_rows)
      /\ Permutation rights (map snd sample_rows)
      /\ ascending top titles /\ ascending top lefts /\ ascending top rights)
  /\ order_blocks sample_page 600
     = Some [text_block 0 (-20) 550 "Title";
             text_block 0 0 150 "L1"; text_block 0 20 150 "L2";
             text_block 400 0 150 "R1"; text_block 400 20 150 "R2"].
Proof.
  split.
  - apply (order_blocks_two_column_page sample_page sample_rows).
    + unfold max_rows. simpl. lia.
    + vm_compute. reflexivity.
    + repeat constructor.
  - vm_compute. reflexivity.
Defined.

(** A two-column page with an uneven left column: the left column at 0,
    but for its topmost block at [first_edge], and the right column at
    400; and its left edges when [first_edge] is 1. *)
Definition uneven_edges : list float := [1; 400; 0; 400; 0; 400; 0; 400]%float.

Definition uneven_page (first_edge : float) : list block :=
  [text_block first_edge 0 150 "L1"; text_block 400 0 150 "R1";
   text_block 0 20 150 "L2"; text_block 400 20 150 "R2";
   text_block 0 40 150 "L3"; text_block 400 40 150 "R3";
   text_block 0 60 150 "L4"; text_block 400 60 150 "R4"].

(** The inertia of [x0s] clustered in [k] columns, as [choose_column_count]
    computes it. *)
Definition inertia_of (x0s : list float) (k : nat) : option float :=
  r ← _kmeans_1d x0s k 12;
  _inertia x0s r.1 r.2.

(** C7: a column whose left edges are only about equal is split. On a
    two-column page of width 600, the left column at 0 but for its topmost
    block at 1, the right column at 400, two clusters leave an inertia of
    0.75 out of 319600.875, and a third cluster removes it. The elbow rule
    compares the gain with what the last step left, not with the spread of
    the page, so it counts this as an improvement of 100% and
    [choose_column_count] returns 3: the block at 1 is a column of its own
    and the topmost block of the left column comes out after the other
    three. With that block at 0 two clusters leave no inertia, the guard
    [if base > 0] of the rule ends the search at 2 and the columns come out
    as the claim says. *)
Theorem order_blocks_splits_uneven_column :
  let l1 := text_block 1 0 150 "L1" in
  let l4 := text_block 0 60 150 "L4" in
  order_blocks (uneven_page 1) 600
  = Some [text_block 0 20 150 "L2"; text_block 0 40 150 "L3"; l4; l1;
          text_block 400 0 150 "R1"; text_block 400 20 150 "R2";
          text_block 400 40 150 "R3"; text_block 400 60 150 "R4"]
  /\ PrimFloat.ltb (top l1) (top l4) = true
  /\ omap left_edge (uneven_page 1) = uneven_edges
  /\ choose_column_count uneven_edges 3 = Some 3%nat
  /\ mapM (inertia_of uneven_edges) [1; 2; 3]%nat
     = Some [319600.875; 0.75; 0]%float
  /\ order_blocks (uneven_page 0) 600
     = Some [text_block 0 0 150 "L1"; text_block 0 20 150 "L2";
             text_block 0 40 150 "L3"; l4;
             text_block 400 0 150 "R1"; text_block 400 20 150 "R2";
             text_block 400 40 150 "R3"; text_block 400 60 150 "R4"]
  /\ choose_column_count (omap left_edge (uneven_page 0)) 3 = Some 2%nat.
Proof. repeat split; vm_compute; reflexivity. Qed.

(** *** What [order_blocks] keeps *)

Definition boxed (b : block) : bool :=
  match block_bbox b with Some _ => true | None => false end.

Lemma full_width_boxed w b : is_full_width w b = Some true -> boxed b = true.
Proof. unfold is_full_width, boxed. destruct (block_bbox b); [reflexivity|discriminate]. Qed.

Lemma split_titles_spec w (blocks : list block) :
  forall t r t' r',
    split_titles w blocks t r = Some (t', r') ->
    exists t1 r1,
      t' = t ++ t1 /\ r' = r ++ r1
      /\ Permutation (t1 ++ r1) blocks
      /\ Forall (fun b => is_full_width w b = Some true) t1
      /\ Forall (fun b => is_full_width w b = Some false) r1.
Proof.
  induction blocks as [|b blocks IH]; intros t r t' r'; simpl.
  - intros [= <- <-]. exists [], []. rewrite !app_nil_r. repeat split; constructor.
  - destruct (is_full_width w b) as [[|]|] eqn:E; simpl; [| |discriminate]; intros H;
      apply IH in H as (t1 & r1 & -> & -> & Hp & Ht & Hr).
    + exists (b :: t1), r1. rewrite <- !app_assoc. repeat split; auto.
      simpl. constructor. exact Hp.
    + exists t1, (b :: r1). rewrite <- !app_assoc. repeat split; auto.
      rewrite <- Permutation_middle. constructor. exact Hp.
Qed.

Lemma concat_insert_perm {A : Type} (cols : list (list A)) (i : nat) (col : list A) (x : A) :
  cols !! i = Some col ->
  Permutation (concat (<[i := col ++ [x]]> cols)) (concat cols ++ [x]).
Proof.
  revert i. induction cols as [|c cols IH]; intros [|i] H; try discriminate.
  - injection H as ->. simpl. rewrite <- !app_assoc.
    apply Permutation_app_head, Permutation_app_comm.
  - simpl in *. rewrite (IH i H), app_assoc. reflexivity.
Qed.

Lemma fill_columns_perm (blocks : list block) :
  forall columns assignments idx columns',
    fill_columns columns assignments idx blocks = Some columns' ->
    Permutation (concat columns') (concat columns ++ List.filter boxed blocks)
    /\ length columns' = length columns.
Proof.
  induction blocks as [|b blocks IH]; intros cols asg idx cols'; simpl.
  - intros [= <-]. rewrite app_nil_r. split; reflexivity.
  - unfold boxed at 1. destruct (block_bbox b) as [bb|].
    + destruct (asg !! idx) as [a|]; simpl; [|discriminate].
      destruct (cols !! a) as [col|] eqn:Ec; simpl; [|discriminate].
      intros H. apply IH in H as [Hp Hl]. split.
      * rewrite Hp, (concat_insert_perm _ _ _ _ Ec), <- app_assoc. reflexivity.
      * rewrite Hl. apply length_insert.
    + apply IH.
Qed.

Lemma sorted_by_opt_perm {A : Type} (key : A -> option float) (l l' : list A) :
  sorted_by_opt key l = Some l' -> Permutation l' l.
Proof.
  unfold sorted_by_opt. destruct (mapM key l) as [keys|] eqn:E; simpl; [|discriminate].
  intros [= <-]. rewrite (sort_keyed_perm (zip keys l)).
  apply length_mapM in E. rewrite snd_zip by lia. reflexivity.
Qed.

Lemma concat_perm {A : Type} (l l' : list (list A)) :
  Permutation l l' -> Permutation (concat l) (concat l').
Proof.
  induction 1; simpl.
  - reflexivity.
  - apply Permutation_app_head. assumption.
  - rewrite !app_assoc. apply Permutation_app_tail, Permutation_app_comm.
  - etransitivity; eassumption.
Qed.

Lemma mapM_sorted_perm (columns columns' : list (list block)) :
  mapM (sorted_by_opt (fun b => y0 <$> block_bbox b)) columns = Some columns' ->
  Permutation (concat columns') (concat columns) /\ length columns' = length columns.
Proof.
  intros H. apply mapM_Some in H. induction H as [|c c' cs cs' Hc _ [IH1 IH2]]; simpl.
  - split; reflexivity.
  - apply sorted_by_opt_perm in Hc. rewrite Hc, IH1, IH2. split; reflexivity.
Qed.

Lemma filter_perm {A : Type} (f : A -> bool) (l l' : list A) :
  Permutation l l' -> Permutation (List.filter f l) (List.filter f l').
Proof.
  induction 1 as [|x l l' _ IH|x y l|l l' l'' _ IH1 _ IH2]; simpl.
  - reflexivity.
  - destruct (f x); [constructor|]; exact IH.
  - destruct (f x), (f y); try reflexivity. apply perm_swap.
  - etransitivity; eassumption.
Qed.

Lemma omap_boxed_nonempty (l : list block) (b : block) :
  In b l -> boxed b = true -> omap (fun b => x0 <$> block_bbox b) l <> [].
Proof.
  induction l as [|x l IH]; intros Hin Hb; [destruct Hin|].
  change (omap (fun b => x0 <$> block_bbox b) (x :: l))
    with (match x0 <$> block_bbox x with
          | Some v => v :: omap (fun b => x0 <$> block_bbox b) l
          | None => omap (fun b => x0 <$> block_bbox b) l
          end).
  destruct Hin as [->|Hin].
  - unfold boxed in Hb. destruct (block_bbox b); [discriminate|discriminate].
  - destruct (x0 <$> block_bbox x); [discriminate|]. apply IH; assumption.
Qed.

(** X16: on a page where a regular block has a bounding box, the output of
    [order_blocks] is the blocks that have one, in some order: exactly the
    blocks without a bounding box are lost. *)
Lemma order_blocks_keeps_boxed (blocks out : list block) (page_width : float) :
  order_blocks blocks page_width = Some out ->
  (exists b, In b blocks /\ boxed b = true /\ is_full_width page_width b = Some false) ->
  Permutation out (List.filter boxed blocks).
Proof.
  unfold order_blocks. intros H (b & Hb & Hbox & Hreg).
  destruct blocks as [|b0 blocks0] eqn:Eb; [destruct Hb|].
  rewrite <- Eb in *. clear Eb b0 blocks0.
  destruct (split_titles page_width blocks [] []) as [[ts rs]|] eqn:Es;
    simpl in H; [|discriminate].
  apply split_titles_spec in Es as (t1 & r1 & -> & -> & Hp & Ht & Hr).
  cbn [app] in H.
  assert (Hfilter : Permutation (List.filter boxed blocks) (t1 ++ List.filter boxed r1)).
  { rewrite <- (filter_perm boxed _ _ Hp), List.filter_app. apply Permutation_app_tail.
    clear -Ht. induction Ht as [|x l Hx _ IH]; [reflexivity|].
    simpl. rewrite (full_width_boxed _ _ Hx), IH. reflexivity. }
  assert (Hin : In b r1).
  { apply (Permutation_in b (Permutation_sym Hp)) in Hb.
    apply in_app_or in Hb as [Hb|Hb]; [|exact Hb].
    rewrite List.Forall_forall in Ht. apply Ht in Hb. congruence. }
  pose proof (omap_boxed_nonempty r1 b Hin Hbox) as Hne.
  rewrite (match_cons _ _ _ Hne) in H.
  destruct (choose_column_count _ 3) as [k|]; simpl in H; [|discriminate].
  destruct (_kmeans_1d _ k 12) as [[assignments centroids]|]; simpl in H; [|discriminate].
  destruct (fill_columns _ assignments 0 r1) as [columns|] eqn:Ef; simpl in H; [|discriminate].
  destruct (mapM _ columns) as [columns'|] eqn:Em; simpl in H; [|discriminate].
  destruct (sorted_by_opt _ (zip (seq 0 k) columns')) as [ordered|] eqn:Eo;
    simpl in H; [|discriminate].
  injection H as <-.
  apply fill_columns_perm in Ef as [Hf Hlf].
  apply mapM_sorted_perm in Em as [Hm Hlm].
  apply sorted_by_opt_perm in Eo.
  rewrite length_replicate in Hlf.
  assert (Hc : concat (replicate k (@nil block)) = []).
  { clear. induction k; [reflexivity|exact IHk]. }
  rewrite Hc in Hf. cbn [app] in Hf.
  rewrite Hfilter, sorted_by_perm. apply Permutation_app_head.
  rewrite (concat_perm _ _ (Permutation_map snd Eo)).
  rewrite snd_zip by (rewrite length_seq; lia).
  rewrite Hm. exact Hf.
Qed.

(** ** Role classification *)

Lemma SFcompare_eq_sym a b : SFcompare a b = Some Eq -> SFcompare b a = Some Eq.
Proof. intros H. rewrite SFcompare_antisym, H. reflexivity. Qed.

(** A number above zero is not zero, so the division by the page width
    is defined wherever the code performs it. *)
Lemma positive_not_zero (w : float) :
  PrimFloat.ltb 0%float w = true -> is_zero w = false.
Proof.
  unfold is_zero. rewrite FloatAxioms.ltb_spec, FloatAxioms.eqb_spec.
  unfold SFltb, SFeqb. intros H.
  destruct (SFcompare (Prim2SF w) (Prim2SF 0%float)) as [[| |]|] eqn:E; try reflexivity.
  apply SFcompare_eq_sym in E. rewrite E in H. discriminate.
Qed.

(** The classifier returns a role for every input. *)
Lemma classify_role_total (T : CharTables) (text : str)
    (avg_size page_median_size : option float) (page_width : float)
    (bbox : option bbox) (repeated : gset str) (math_hint : bool) :
  is_Some (classify_role T text avg_size page_median_size page_width bbox
                         repeated math_hint).
Proof.
  unfold classify_role. destruct (normalize_line T text) as [|c n]; [eauto|].
  destruct (bool_decide _); [eauto|].
  destruct (math_hint || _); [destruct (4 <=? _)%nat; eauto|].
  destruct (_is_list_item T (c :: n)); [eauto|].
  destruct (_is_table_like T (c :: n)); [eauto|].
  destruct (_ && (length (c :: n) <=? 80)%nat); [eauto|].
  destruct bbox as [bb|]; [|eauto].
  destruct (PrimFloat.ltb 0 page_width) eqn:Hw; [|eauto].
  unfold py_div. rewrite (positive_not_zero _ Hw). cbn [mbind option_bind].
  destruct (_ && _); eauto.
Qed.

(** C8: the classifier is a function of its seven arguments: two calls on
    the same text, sizes, page width, bounding box, repeated set (the same
    members) and math hint return the same role. *)
Theorem classify_role_deterministic (T : CharTables)
    (text text' : str) (avg_size avg_size' median median' : option float)
    (page_width page_width' : float) (bbox bbox' : option bbox)
    (repeated repeated' : gset str) (math_hint math_hint' : bool) :
  text = text' -> avg_size = avg_size' -> median = median' ->
  page_width = page_width' -> bbox = bbox' ->
  (forall line, line ∈ repeated <-> line ∈ repeated') ->
  math_hint = math_hint' ->
  exists r,
    classify_role T text avg_size median page_width bbox repeated math_hint = Some r
    /\ classify_role T text' avg_size' median' page_width' bbox' repeated' math_hint'
       = Some r.
Proof.
  intros -> -> -> -> -> Hrep ->.
  assert (repeated = repeated') as -> by (apply leibniz_equiv; exact Hrep).
  destruct (classify_role_total T text' avg_size' median' page_width' bbox'
              repeated' math_hint') as [r Hr].
  exists r. split; exact Hr.
Qed.

Lemma classify_role_deterministic_witness :
  exists r,
    classify_role basic_tables (lit "  Running   head ") (Some 11%float) (Some 11%float)
      600 None ({[ lit "Running head" ]} ∪ ∅) false = Some r
    /\ classify_role basic_tables (lit "  Running   head ") (Some 11%float) (Some 11%float)
         600 None (∅ ∪ {[ lit "Running head" ]}) false = Some r.
Proof.
  apply (classify_role_deterministic basic_tables); reflexivity.
Defined.

Example classify_role_examples :
  classify_role basic_tables (lit "x = sin y + 1/2") None None 600 None ∅ false
  = Some MathComplex
  /\ classify_role basic_tables (lit "a + b") None None 600 None ∅ true = Some Math
  /\ classify_role basic_tables (lit "- item") None None 600 None ∅ false
     = Some ListItem
  /\ classify_role basic_tables (lit "1 2 3") None None 600 None ∅ false
     = Some TableLike
  /\ classify_role basic_tables (lit "Big") (Some 20%float) (Some 10%float) 600 None ∅ false
     = Some Title
  /\ classify_role basic_tables (lit "Wide") None None 600
       (Some {| x0 := 0; y0 := 0; x1 := 500; y1 := 10 |}) ∅ false = Some Title
  /\ classify_role basic_tables (lit "Plain text") None None 600 None ∅ false
     = Some Paragraph
  /\ classify_role basic_tables (lit "   ") None None 600 None ∅ false = Some Unknown
  /\ classify_role basic_tables (lit "Head") None None 600 None {[ lit "Head" ]} false
     = Some Header.
Proof. repeat split; vm_compute; reflexivity. Qed.

(** ** Segment identifiers *)

(** [digits] padded with zeros on the left to [width] characters. *)
Definition zero_pad (width : nat) (digits : str) : str :=
  replicate (width - length digits) (chr "0") ++ digits.

(** The number a string of decimal digits denotes. *)
Definition digit_value (c : char) : nat := N.to_nat (c - 48).

Definition decimal_value (s : str) : nat :=
  fold_left (fun acc c => (10 * acc + digit_value c)%nat) s 0%nat.

Lemma uint_str_value (d : Decimal.uint) :
  forall acc,
    fold_left (fun acc c => (10 * acc + digit_value c)%nat) (uint_str d) acc
    = Nat.of_uint_acc d acc.
Proof.
  induction d; intros acc; cbn [uint_str fold_left Nat.of_uint_acc];
    [reflexivity|..]; rewrite IHd, Nat.tail_mul_spec; f_equal;
    unfold digit_value; simpl; lia.
Qed.

Lemma uint_str_digits (d : Decimal.uint) :
  Forall (fun c => ascii_digit c = true) (uint_str d).
Proof. induction d; constructor; auto. Qed.

Lemma decimal_value_zeros k (s : str) :
  decimal_value (replicate k (chr "0") ++ s) = decimal_value s.
Proof.
  unfold decimal_value. rewrite fold_left_app. f_equal.
  induction k as [|k IH]; [reflexivity|]. cbn [replicate fold_left]. exact IH.
Qed.

(** [format_03d] writes the number in decimal, in at least three digits
    and in exactly three below 1000. *)
Lemma format_03d_spec (n : nat) :
  format_03d n = zero_pad 3 (decimal n)
  /\ decimal_value (format_03d n) = n
  /\ Forall (fun c => ascii_digit c = true) (format_03d n)
  /\ (3 <= length (format_03d n))%nat
  /\ ((n < 1000)%nat -> length (format_03d n) = 3%nat).
Proof.
  split; [reflexivity|]. split; [|split; [|split]].
  - unfold format_03d. rewrite decimal_value_zeros. unfold decimal_value, decimal.
    rewrite uint_str_value. apply DecimalNat.Unsigned.of_to.
  - unfold format_03d. apply Forall_app. split.
    + apply Forall_forall. intros c Hc. apply elem_of_replicate in Hc as [-> _].
      reflexivity.
    + apply uint_str_digits.
  - unfold format_03d. rewrite length_app, length_replicate. lia.
  - intros Hn.
    assert (H : forallb (fun k => (length (format_03d k) =? 3)%nat) (seq 0 1000) = true)
      by (vm_compute; reflexivity).
    rewrite forallb_forall in H. apply Nat.eqb_eq, H, in_seq. lia.
Qed.

Lemma foldM_inv {A S : Type} (P : S -> Prop) (f : S -> A -> option S) (l : list A) :
  (forall s a s', P s -> f s a = Some s' -> P s') ->
  forall s s', P s -> foldM f l s = Some s' -> P s'.
Proof.
  intros Hf. induction l as [|a l IH]; intros s s' Hs; simpl.
  - intros [= <-]. exact Hs.
  - destruct (f s a) as [s1|] eqn:E; simpl; [|discriminate].
    apply IH. exact (Hf s a s1 Hs E).
Qed.

Section Identifiers.

Variable T : CharTables.
Variable opts : ScribeOptions.t.
Variable doc_id : str.
Variable repeated_lines : gset str.

(** The segments of a page are numbered from 1 without a gap, carry the
    page and the document, and have text. *)
Definition numbered (pg : page) (g : list segment) : Prop :=
  map seg_segment_id g = map (segment_id doc_id (page_num pg)) (seq 1 (length g))
  /\ Forall (fun s => seg_doc_id s = doc_id /\ seg_page s = page_num pg
                      /\ seg_text s <> []) g.

(** The loop invariant on a page: the segments emitted for it so far are
    numbered, and the index is the next number. *)
Definition page_inv (pg : page) (segs0 : list segment) (st : emit_state) : Prop :=
  exists g, segments st = segs0 ++ g
            /\ segment_index st = S (length g)
            /\ numbered pg g.

Lemma emit_paragraph_inv pg median blk segs0 st paragraph st' :
  page_inv pg segs0 st ->
  emit_paragraph T opts doc_id repeated_lines pg median blk st paragraph = Some st' ->
  page_inv pg segs0 st'.
Proof.
  intros (g & Hseg & Hidx & Hids & Hall). unfold emit_paragraph.
  destruct (if ScribeOptions.normalize_whitespace opts then _ else _) as [|c p] eqn:Ep.
  - intros [= <-]. exists g. repeat split; assumption.
  - destruct (classify_role _ _ _ _ _ _ _ _) as [r|]; simpl; [|discriminate].
    intros [= <-]. eexists (g ++ [_]). cbn [segments segment_index].
    split; [rewrite Hseg, <- app_assoc; reflexivity|].
    split; [rewrite length_app; simpl; lia|]. split.
    + rewrite length_app, seq_app, !map_app, Hids, Hidx. reflexivity.
    + apply Forall_app. split; [exact Hall|]. constructor; [|constructor].
      cbn. repeat split. discriminate.
Qed.

Lemma emit_block_inv pg median segs0 st blk st' :
  page_inv pg segs0 st ->
  emit_block T opts doc_id repeated_lines pg median st blk = Some st' ->
  page_inv pg segs0 st'.
Proof.
  intros Hinv. unfold emit_block.
  destruct (block_text blk); [intros [= <-]; exact Hinv|].
  destruct (strip _ _); [intros [= <-]; exact Hinv|].
  apply (foldM_inv (page_inv pg segs0)); [|exact Hinv].
  intros s a s'. apply emit_paragraph_inv.
Qed.

Lemma emit_page_numbered segs pg segs' :
  emit_page T opts doc_id repeated_lines segs pg = Some segs' ->
  exists g, segs' = segs ++ g /\ numbered pg g.
Proof.
  unfold emit_page.
  match goal with
  | |- mbind _ ?x = _ -> _ => destruct x as [blocks|]; [|discriminate]
  end.
  cbn [mbind option_bind].
  destruct (foldM _ blocks _) as [st|] eqn:E; [|discriminate].
  cbn [mbind option_bind].
  intros [= <-].
  assert (H0 : page_inv pg segs
                 {| segments := segs; page_paragraphs := []; segment_index := 1 |}).
  { exists []. cbn. rewrite app_nil_r. repeat split; constructor. }
  apply (foldM_inv (page_inv pg segs)) in E;
    [|intros s a s'; apply emit_block_inv|exact H0].
  destruct E as (g & Hg & _ & Hn). exists g. auto.
Qed.

Lemma emit_pages_numbered (pages_data : list page) :
  forall segs0 segs,
    foldM (emit_page T opts doc_id repeated_lines) pages_data segs0 = Some segs ->
    exists groups, segs = segs0 ++ concat groups /\ Forall2 numbered pages_data groups.
Proof.
  induction pages_data as [|pg pages IH]; intros segs0 segs; simpl.
  - intros [= <-]. exists []. simpl. rewrite app_nil_r. split; constructor.
  - destruct (emit_page _ _ _ _ _ pg) as [segs1|] eqn:E; simpl; [|discriminate].
    intros H. apply emit_page_numbered in E as (g & -> & Hg).
    apply IH in H as (groups & -> & Hgs).
    exists (g :: groups). simpl. rewrite <- app_assoc. split; [reflexivity|].
    constructor; assumption.
Qed.

End Identifiers.

(** C3: the segments of a document are those of its pages in order; on
    each page the identifiers are [segment_id doc_id page 1], [... 2], and
    so on without a gap, every segment has text (a paragraph dropped as
    empty takes no number), and an identifier is the document identifier,
    "-p", the page in at least three digits, "-s" and the index in at least
    three digits. *)
Theorem segment_ids_sequential (T : CharTables) (opts : ScribeOptions.t)
    (doc_id : str) (pages_data : list page) (segs : list segment) :
  process_pdf T opts doc_id pages_data = Some segs ->
  (exists groups : list (list segment),
      segs = concat groups
      /\ Forall2
           (fun pg g =>
              map seg_segment_id g
              = map (segment_id doc_id (page_num pg)) (seq 1 (length g))
              /\ Forall (fun s => seg_doc_id s = doc_id /\ seg_page s = page_num pg
                                  /\ seg_text s <> []) g)
           pages_data groups)
  /\ (forall page index : nat,
        segment_id doc_id page index
        = doc_id ++ lit "-p" ++ zero_pad 3 (decimal page)
          ++ lit "-s" ++ zero_pad 3 (decimal index)).
Proof.
  intros H. split; [|reflexivity].
  unfold process_pdf in H.
  destruct (repeated_of T opts pages_data) as [repeated|]; simpl in H; [|discriminate].
  apply emit_pages_numbered in H as (groups & -> & Hg).
  exists groups. split; [reflexivity|exact Hg].
Qed.

(** The defaults of [ScribeOptions]. *)
Definition default_options : ScribeOptions.t :=
  {| ScribeOptions.multicolumn := true;
     ScribeOptions.remove_headers_footers := true;
     ScribeOptions.header_max_lines := 3;
     ScribeOptions.footer_max_lines := 3;
     ScribeOptions.min_repetition_ratio := 0.6;
     ScribeOptions.remove_page_numbers := true;
     ScribeOptions.dehyphenate := true;
     ScribeOptions.normalize_whitespace := true;
     ScribeOptions.merge_paragraphs := true |}.

(** A document of two pages; the second block of the first page holds two
    paragraphs and a page number, and its last block is blank. *)
Definition sample_document : list page :=
  [ {| page_num := 1; page_width := 600;
       page_blocks :=
         [text_block 72 100 300 "Body page one.";
          {| block_bbox := Some {| x0 := 72; y0 := 200; x1 := 372; y1 := 260 |};
             block_text := lit "A second para-" ++ nl :: lit "graph ends here."
                           ++ nl :: lit "- an item" ++ nl :: lit "12";
             avg_size := Some 11%float; block_type := KText; math_hint := false |};
          text_block 72 700 300 "   "];
       page_lines := sample_lines "Header";
       source_mode := lit "extract:text"; confidence := None |};
    {| page_num := 2; page_width := 600;
       page_blocks := [text_block 72 100 300 "Body page two."];
       page_lines := sample_lines "Header";
       source_mode := lit "extract:text"; confidence := None |} ].

Lemma segment_ids_sequential_witness :
  exists segs,
    process_pdf basic_tables default_options (lit "ids") sample_document = Some segs
    /\ map seg_segment_id segs
       = [lit "ids-p001-s001"; lit "ids-p001-s002"; lit "ids-p001-s003";
          lit "ids-p002-s001"]
    /\ map seg_text segs
       = [lit "Body page one."; lit "A second paragraph ends here.";
          lit "- an item"; lit "Body page two."]
    /\ exists groups : list (list segment),
         segs = concat groups
         /\ Forall2
              (fun pg g =>
                 map seg_segment_id g
                 = map (segment_id (lit "ids") (page_num pg)) (seq 1 (length g))
                 /\ Forall (fun s => seg_doc_id s = lit "ids"
                                     /\ seg_page s = page_num pg
                                     /\ seg_text s <> []) g)
              sample_document groups.
Proof.
  eexists. split; [vm_compute; reflexivity|].
  split; [vm_compute; reflexivity|]. split; [vm_compute; reflexivity|].
  apply (segment_ids_sequential basic_tables default_options (lit "ids") sample_document).
  vm_compute. reflexivity.
Defined.

(** ** Where [order_blocks] returns *)

Lemma is_full_width_total w b : is_Some (is_full_width w b).
Proof.
  unfold is_full_width. destruct (block_bbox b); [|eauto].
  destruct (PrimFloat.ltb 0 w) eqn:Hw; [|eauto].
  unfold py_div. rewrite (positive_not_zero _ Hw). simpl. eauto.
Qed.

Lemma split_titles_total w (blocks : list block) :
  forall t r, is_Some (split_titles w blocks t r).
Proof.
  induction blocks as [|b blocks IH]; intros t r; simpl; [eauto|].
  destruct (is_full_width_total w b) as [[|] ->]; simpl; apply IH.
Qed.

Lemma omap_left_edges_length (l : list block) :
  length (omap (fun b => x0 <$> block_bbox b) l) = length (List.filter boxed l).
Proof.
  induction l as [|b l IH]; [reflexivity|].
  change (omap (fun b => x0 <$> block_bbox b) (b :: l))
    with (match x0 <$> block_bbox b with
          | Some v => v :: omap (fun b => x0 <$> block_bbox b) l
          | None => omap (fun b => x0 <$> block_bbox b) l
          end).
  simpl. unfold boxed. destruct (block_bbox b); simpl; rewrite IH; reflexivity.
Qed.

Lemma fill_one_column (blocks : list block) :
  forall (col : list block) (n idx : nat),
    (idx + length (List.filter boxed blocks) <= n)%nat ->
    fill_columns [col] (replicate n 0%nat) idx blocks
    = Some [col ++ List.filter boxed blocks].
Proof.
  induction blocks as [|b blocks IH]; intros col n idx Hn; simpl.
  - rewrite app_nil_r. reflexivity.
  - simpl in Hn. unfold boxed in *. destruct (block_bbox b) as [bb|].
    + simpl in Hn. rewrite lookup_replicate_2 by lia.
      cbn [mbind option_bind lookup list_lookup insert list_insert].
      rewrite IH by lia. rewrite <- app_assoc. reflexivity.
    + apply IH. exact Hn.
Qed.

(** On a page with fewer than four regular blocks that have a bounding
    box no clustering takes place, and [order_blocks] returns. *)
Lemma order_blocks_total_few (blocks : list block) (page_width : float) :
  (length (List.filter boxed blocks) < 4)%nat ->
  is_Some (order_blocks blocks page_width).
Proof.
  intros Hfew. unfold order_blocks. destruct blocks as [|b0 blocks0] eqn:Eb; [eauto|].
  rewrite <- Eb in *. clear Eb b0 blocks0.
  destruct (split_titles_total page_width blocks [] []) as [[ts rs] Es].
  rewrite Es. cbn [mbind option_bind fst snd].
  apply split_titles_spec in Es as (t1 & r1 & -> & -> & Hp & Ht & Hr).
  cbn [app].
  assert (Hlen : (length (List.filter boxed r1) < 4)%nat).
  { rewrite <- (Permutation_length (filter_perm boxed _ _ Hp)) in Hfew.
    rewrite List.filter_app, length_app in Hfew. lia. }
  pose proof (omap_left_edges_length r1) as Hx.
  destruct (omap (fun b => x0 <$> block_bbox b) r1) as [|v vs] eqn:Ex; [eauto|].
  set (x0s := v :: vs) in *.
  assert (Hk : choose_column_count x0s 3 = Some 1%nat).
  { unfold choose_column_count.
    replace (length x0s <? 4)%nat with true; [reflexivity|].
    symmetry. apply Nat.ltb_lt. lia. }
  rewrite Hk. cbn [mbind option_bind].
  assert (Hkm : exists c, _kmeans_1d x0s 1 12
                          = Some (replicate (length x0s) 0%nat, [c])).
  { unfold _kmeans_1d, x0s. cbn [Nat.eqb]. fold x0s.
    assert (Hz : is_zero (float_of_nat (length x0s)) = false).
    { assert (Hl : (length x0s < 4)%nat) by lia.
      unfold x0s in *. simpl length in *.
      destruct vs as [|v1 [|v2 [|v3 vs]]]; simpl in Hl; try lia; reflexivity. }
    unfold py_div. rewrite Hz. cbn [mbind option_bind]. eauto. }
  destruct Hkm as [c ->]. cbn [mbind option_bind fst snd replicate].
  rewrite (fill_one_column r1 [] (length x0s) 0) by lia.
  cbn [mbind option_bind app].
  assert (Hcol : sorted_by_opt (fun b => y0 <$> block_bbox b) (List.filter boxed r1)
                 = Some (sorted_by top (List.filter boxed r1))).
  { apply sorted_by_opt_total. apply List.Forall_forall. intros b Hb.
    apply filter_In in Hb as [_ Hb]. unfold boxed, top in *.
    destruct (block_bbox b); [reflexivity|discriminate]. }
  assert (Hm : mapM (sorted_by_opt (fun b : block => y0 <$> block_bbox b))
                 [List.filter boxed r1]
               = Some [sorted_by top (List.filter boxed r1)]).
  { apply mapM_Some. repeat constructor. exact Hcol. }
  rewrite Hm. cbn [mbind option_bind].
  assert (Hs : forall col : list block,
             sorted_by_opt (fun item : nat * list block => [c] !! item.1)
               (zip (seq 0 1) [col]) = Some [(0%nat, col)]) by reflexivity.
  rewrite Hs. cbn [mbind option_bind]. eauto.
Qed.

(** * Further properties *)

(** ** Line normalization: the normal form *)

Lemma tidy_In p x s c : tidy p x s -> In c s -> p c = true -> c = x.
Proof.
  induction s as [|d t IH]; simpl; [tauto|].
  intros [Hd Ht] [->|Hin] Hc; [apply Hd, Hc|apply IH; assumption].
Qed.

Lemma tidy_pair p x u a b v :
  tidy p x (u ++ a :: b :: v) -> p a = true -> p b = false.
Proof.
  induction u as [|d u IH]; simpl.
  - intros [Ha _] Hp. apply Ha in Hp as [_ H]. exact H.
  - intros [_ Ht]. apply IH, Ht.
Qed.

(** X1: [normalize_line] is idempotent, and its result is in normal form:
    the only character of the class [\s] it holds is the space, no two
    characters of the class follow one another, and [strip] changes
    nothing. *)
Theorem normalize_line_normal_form (T : CharTables) (text : str) :
  let n := normalize_line T text in
  normalize_line T n = n
  /\ (forall c, In c n -> re_s T c = true -> c = space)
  /\ (forall u a b v, n = u ++ a :: b :: v -> re_s T a = true -> re_s T b = false)
  /\ strip (isspace T) n = n.
Proof.
  intros n.
  assert (Ht : tidy (re_s T) space n).
  { unfold n. rewrite normalize_line_collapse. unfold strip.
    apply tidy_rstrip, tidy_lstrip, collapse_tidy. }
  split; [apply normalize_line_idem|].
  split; [intros c; apply tidy_In, Ht|].
  split; [intros u a b v E; rewrite E in Ht; apply (tidy_pair _ _ _ _ _ _ Ht)|].
  unfold n, normalize_line. apply strip_idem.
Qed.

(** ** Removing whitespace *)

Lemma filter_run_nil (p : char -> bool) (m : str) :
  Forall (fun c => p c = true) m -> List.filter (fun c => negb (p c)) m = [].
Proof.
  induction 1 as [|c m Hc _ IH]; [reflexivity|]. simpl. rewrite Hc. exact IH.
Qed.

(** X2: [remove_whitespace] deletes the characters of the class [\s] and
    nothing else: the result is the text without them, it holds none, and it
    is not longer than the text. *)
Theorem remove_whitespace_spec (T : CharTables) (text : str) :
  remove_whitespace T text = List.filter (fun c => negb (re_s T c)) text
  /\ Forall (fun c => re_s T c = false) (remove_whitespace T text)
  /\ (length (remove_whitespace T text) <= length text)%nat.
Proof.
  assert (H : remove_whitespace T text = List.filter (fun c => negb (re_s T c)) text).
  { unfold remove_whitespace. set (p := re_s T).
    remember (length text) as n eqn:Hn. revert text Hn.
    induction n as [n IH] using lt_wf_ind. intros s Hn.
    destruct s as [|c t]; [reflexivity|].
    destruct (p c) eqn:Hc.
    - pose proof (run_lstrip p (c :: t)) as Hs.
      pose proof (run_Forall p (c :: t)) as Hf.
      pose proof (lstrip_not_head p (c :: t)) as Hh.
      pose proof (lstrip_length p t) as Hl.
      simpl in Hs, Hf, Hh. rewrite Hc in Hs, Hf, Hh.
      rewrite <- Hs.
      destruct (rep_ends_head p (c :: run p t) 1 None (lstrip p t) Hf) as [tl Htl];
        [simpl; lia|exact Hh|].
      rewrite (sub_match (plus p) (fun _ => []) eq_refl (c :: run p t) (lstrip p t)
                 _ tl ltac:(discriminate) Htl).
      change ((c :: run p t) ++ lstrip p t) with ((c :: run p t) ++ lstrip p t).
      rewrite List.filter_app, (filter_run_nil p _ Hf). cbn [app].
      apply (IH (length (lstrip p t))); [simpl in Hn; lia|reflexivity].
    - rewrite sub_cons; [|reflexivity|].
      + simpl. rewrite Hc. simpl. f_equal.
        apply (IH (length t)); [simpl in Hn; lia|reflexivity].
      + simpl. rewrite Hc. reflexivity. }
  rewrite H. split; [reflexivity|]. split.
  - apply List.Forall_forall. intros c Hc. apply filter_In in Hc as [_ Hc].
    destruct (re_s T c); [discriminate|reflexivity].
  - apply List.filter_length_le.
Qed.

(** ** Segment identifiers are unique *)

Lemma split_at_mark {A : Type} (x : A) (a a' b b' : list A) :
  a ++ x :: b = a' ++ x :: b' -> ~ In x a -> ~ In x a' -> a = a' /\ b = b'.
Proof.
  revert a'. induction a as [|c a IH]; intros [|c' a'] E Ha Ha'; simpl in *.
  - injection E as ->. auto.
  - injection E as <- _. tauto.
  - injection E as -> _. tauto.
  - injection E as -> E. destruct (IH a' E) as [-> ->]; tauto.
Qed.

Lemma format_03d_no_dash (n : nat) : ~ In (chr "-") (format_03d n).
Proof.
  intros H. destruct (format_03d_spec n) as (_ & _ & Hd & _).
  rewrite List.Forall_forall in Hd. apply Hd in H. discriminate.
Qed.

Lemma format_03d_inj (n m : nat) : format_03d n = format_03d m -> n = m.
Proof.
  intros E. destruct (format_03d_spec n) as (_ & <- & _).
  destruct (format_03d_spec m) as (_ & <- & _). rewrite E. reflexivity.
Qed.

Lemma segment_id_inj (doc_id : str) (p i p' i' : nat) :
  segment_id doc_id p i = segment_id doc_id p' i' -> p = p' /\ i = i'.
Proof.
  unfold segment_id. intros E. apply app_inv_head in E. apply app_inv_head in E.
  change (lit "-s") with ([chr "-"] ++ [chr "s"]) in E.
  rewrite <- !app_assoc in E. cbn [app] in E.
  apply split_at_mark in E as [E1 E2]; try apply format_03d_no_dash.
  injection E2 as E2. split; apply format_03d_inj; assumption.
Qed.

(** X3: within a document a segment identifier determines the page and
    the index: two identifiers with the same [doc_id] are equal exactly when
    the page numbers and the indices are. *)
Theorem segment_id_injective (doc_id : str) (page index page' index' : nat) :
  segment_id doc_id page index = segment_id doc_id page' index' <->
  page = page' /\ index = index'.
Proof.
  split; [apply segment_id_inj|]. intros [-> ->]. reflexivity.
Qed.

Lemma NoDup_concat_groups {A B : Type} (f : A -> list B) (l : list A) :
  NoDup l ->
  (forall a, a ∈ l -> NoDup (f a)) ->
  (forall a a' x, a ∈ l -> a' ∈ l -> x ∈ f a -> x ∈ f a' -> a = a') ->
  NoDup (concat (map f l)).
Proof.
  induction 1 as [|a l Ha Hl IH]; intros Hin Hdis; simpl; [constructor|].
  apply NoDup_app. split; [apply Hin; left|]. split.
  - intros x Hx Hx'. apply list_elem_of_In, in_concat in Hx' as (g & Hg & Hxg).
    apply in_map_iff in Hg as (a' & <- & Ha').
    apply list_elem_of_In in Hxg, Ha'.
    assert (a = a') as -> by (apply (Hdis a a' x); [left|right|..]; assumption).
    exact (Ha Ha').
  - apply IH; [intros; apply Hin; right; assumption|].
    intros a1 a2 x H1 H2. apply Hdis; right; assumption.
Qed.

Lemma numbered_ids_unique (doc_id : str) (pages_data : list page)
    (groups : list (list segment)) :
  Forall2 (numbered doc_id) pages_data groups ->
  NoDup (map page_num pages_data) ->
  NoDup (map seg_segment_id (concat groups)).
Proof.
  intros Hg Hpages.
  assert (Hids : map seg_segment_id (concat groups)
                 = concat (map (fun pn : nat * nat =>
                                  map (segment_id doc_id pn.1) (seq 1 pn.2))
                               (zip (map page_num pages_data) (map length groups)))).
  { clear Hpages. induction Hg as [|pg g pages gs [Hn _] _ IH]; [reflexivity|].
    simpl. rewrite map_app, IH, Hn. reflexivity. }
  rewrite Hids. clear Hids.
  assert (Hlen : length pages_data = length groups) by (eapply Forall2_length; eauto).
  clear Hg.
  assert (Hnd : NoDup (zip (map page_num pages_data) (map length groups)).*1).
  { rewrite fst_zip by (rewrite !length_map; lia). exact Hpages. }
  apply (NoDup_concat_groups
           (fun pn : nat * nat => map (segment_id doc_id pn.1) (seq 1 pn.2))).
  - apply NoDup_fmap_1 with (f := fst). exact Hnd.
  - intros [p n] _. apply NoDup_fmap_2.
    + intros i j E. apply segment_id_inj in E. tauto.
    + apply NoDup_seq.
  - intros [p n] [p' n'] x Hin Hin' Hx Hx'. cbn [fst snd] in *.
    apply list_elem_of_fmap in Hx as (i & -> & Hi).
    apply list_elem_of_fmap in Hx' as (i' & E & Hi').
    apply segment_id_inj in E as [-> ->].
    apply list_elem_of_lookup in Hin as [k Hk], Hin' as [k' Hk'].
    assert (k = k').
    { eapply NoDup_lookup; [exact Hnd| |]; rewrite list_lookup_fmap.
      - rewrite Hk. reflexivity.
      - rewrite Hk'. reflexivity. }
    subst k'. congruence.
Qed.

(** X4: when the pages of a document carry distinct page numbers, no two
    segments that [process_pdf] emits have the same identifier. *)
Theorem segment_ids_unique (T : CharTables) (opts : ScribeOptions.t)
    (doc_id : str) (pages_data : list page) (segs : list segment) :
  process_pdf T opts doc_id pages_data = Some segs ->
  NoDup (map page_num pages_data) ->
  NoDup (map seg_segment_id segs).
Proof.
  unfold process_pdf. intros H Hpages.
  destruct (repeated_of T opts pages_data) as [repeated|]; simpl in H; [|discriminate].
  apply emit_pages_numbered in H as (groups & -> & Hg). cbn [app].
  eapply numbered_ids_unique; eassumption.
Qed.

Lemma segment_ids_unique_witness :
  exists segs,
    process_pdf basic_tables default_options (lit "ids") sample_document = Some segs
    /\ NoDup (map seg_segment_id segs).
Proof.
  eexists. split; [vm_compute; reflexivity|].
  apply (segment_ids_unique basic_tables default_options (lit "ids") sample_document).
  - vm_compute. reflexivity.
  - apply (bool_decide_unpack _). vm_compute. reflexivity.
Defined.

(** ** The line filter of the segment loop *)

Lemma filter_all {A : Type} (f : A -> bool) (l : list A) :
  (forall a, f a = true) -> List.filter f l = l.
Proof.
  intros H. induction l as [|a l IH]; [reflexivity|]. simpl. rewrite H, IH. reflexivity.
Qed.

(** X5: the line filter that the segment loop writes out (core.py, lines
    209 to 213) is [remove_headers_footers] followed by
    [remove_page_number_lines] of clean.py on the lines of the block, each
    when its option is set. Skipping the first on an empty repeated set, and
    normalizing a line before it is tested for a page number, change
    nothing. *)
Theorem kept_lines_composition (T : CharTables) (opts : ScribeOptions.t)
    (repeated_lines : gset str) (text : str) :
  kept_lines T opts repeated_lines text
  = let lines := split_nl text in
    let lines :=
      if ScribeOptions.remove_headers_footers opts
      then remove_headers_footers T lines repeated_lines else lines in
    if ScribeOptions.remove_page_numbers opts
    then remove_page_number_lines T lines else lines.
Proof.
  unfold kept_lines, remove_headers_footers, remove_page_number_lines. cbv zeta.
  assert (Hpn : forall l : list str,
             List.filter (fun l => negb (is_page_number T (normalize_line T l))) l
             = List.filter (fun l => negb (is_page_number T l)) l).
  { intros l. apply List.filter_ext. intros a.
    destruct (is_page_number_shaped T a) as [H1 H2].
    destruct (is_page_number_shaped T (normalize_line T a)) as [H3 H4].
    rewrite normalize_line_idem in H3, H4.
    destruct (is_page_number T a) eqn:Ea, (is_page_number T (normalize_line T a)) eqn:En;
      try reflexivity.
    - specialize (H4 (H1 eq_refl)). discriminate.
    - specialize (H2 (H3 eq_refl)). discriminate. }
  rewrite !Hpn.
  destruct (ScribeOptions.remove_headers_footers opts); cbn [andb]; [|reflexivity].
  destruct (bool_decide (repeated_lines = ∅)) eqn:E; cbn [negb]; [|reflexivity].
  apply bool_decide_eq_true in E. subst repeated_lines.
  rewrite (filter_all (fun line => negb (bool_decide (normalize_line T line ∈ (∅ : gset (list N))))));
    [reflexivity|].
  intros a. rewrite bool_decide_eq_false_2; [reflexivity|]. apply not_elem_of_empty.
Qed.

(** ** Dehyphenation as a scan *)

(** The scan [dehyphenate_text] performs: where a letter or digit, a
    hyphen, a newline and a letter follow one another, the hyphen and the
    newline are dropped and the scan goes on after the second letter. *)
Fixpoint join_breaks (s : str) : str :=
  match s with
  | [] => []
  | a :: t =>
      match t with
      | h :: n :: b :: rest =>
          if ascii_alnum a && (h =? chr "-") && (n =? nl) && ascii_alpha b
          then a :: b :: join_breaks rest
          else a :: join_breaks t
      | _ => a :: join_breaks t
      end
  end.

Definition plain (c : char) : bool := negb (c =? chr "-") && negb (c =? nl).

Lemma hyphen_break_ends (a : char) (t : str) :
  ends re_hyphen_break (None, a :: t)
  = match t with
    | h :: n :: b :: rest =>
        if ascii_alnum a && (h =? chr "-") && (n =? nl) && ascii_alpha b
        then [(Some b, rest)] else []
    | _ => []
    end.
Proof.
  unfold re_hyphen_break. cbn [ends fst snd flat_map].
  destruct (ascii_alnum a); cbn [flat_map app andb]; [|destruct t as [|? [|? [|? ?]]]; reflexivity].
  destruct t as [|h t]; [reflexivity|]. cbn [ends fst snd flat_map].
  destruct (h =? chr "-"); cbn [flat_map app andb]; [|destruct t as [|? [|? ?]]; reflexivity].
  destruct t as [|n t]; [reflexivity|]. cbn [ends fst snd flat_map].
  destruct (n =? nl); cbn [flat_map app andb]; [|destruct t as [|? ?]; reflexivity].
  destruct t as [|b t]; [reflexivity|]. cbn [ends fst snd flat_map].
  destruct (ascii_alpha b); reflexivity.
Qed.

Lemma dehyphenate_join_breaks (text : str) : dehyphenate_text text = join_breaks text.
Proof.
  unfold dehyphenate_text.
  remember (length text) as k eqn:Hk. revert text Hk.
  induction k as [k IH] using lt_wf_ind. intros s Hk.
  destruct s as [|a t]; [reflexivity|].
  pose proof (hyphen_break_ends a t) as He.
  destruct t as [|h [|n [|b rest]]].
  - rewrite sub_cons; [|reflexivity|exact He]. reflexivity.
  - rewrite sub_cons; [|reflexivity|exact He]. cbn [join_breaks]. f_equal.
    apply (IH 1%nat); [simpl in Hk; lia|reflexivity].
  - rewrite sub_cons; [|reflexivity|exact He]. cbn [join_breaks]. f_equal.
    apply (IH 2%nat); [simpl in Hk; lia|reflexivity].
  - cbn [join_breaks].
    destruct (ascii_alnum a && (h =? chr "-") && (n =? nl) && ascii_alpha b).
    + change (a :: h :: n :: b :: rest) with ([a; h; n; b] ++ rest) at 1.
      rewrite (sub_match re_hyphen_break keep_groups eq_refl [a; h; n; b] rest
                 (Some b) [] ltac:(discriminate) He).
      cbn [keep_groups app]. do 2 f_equal.
      apply (IH (length rest)); [simpl in Hk; lia|reflexivity].
    + rewrite sub_cons; [|reflexivity|exact He]. f_equal.
      apply (IH (length (h :: n :: b :: rest))); [simpl in *; lia|reflexivity].
Qed.

Lemma join_breaks_plain (s : str) :
  List.filter plain (join_breaks s) = List.filter plain s
  /\ (length (join_breaks s) <= length s)%nat.
Proof.
  enough (H : forall k s, (length s < k)%nat ->
              List.filter plain (join_breaks s) = List.filter plain s
              /\ (length (join_breaks s) <= length s)%nat)
    by (apply (H (S (length s))); lia).
  clear s. induction k as [|k IH]; intros s Hk; [lia|].
  destruct s as [|a t]; [split; reflexivity|]. simpl in Hk.
  assert (Ht : List.filter plain (a :: join_breaks t) = List.filter plain (a :: t)
               /\ (length (a :: join_breaks t) <= length (a :: t))%nat).
  { destruct (IH t ltac:(lia)) as [E L].
    simpl. rewrite E. split; [reflexivity|lia]. }
  destruct t as [|h [|n [|b rest]]]; try exact Ht.
  cbn [join_breaks].
  destruct (ascii_alnum a && (h =? chr "-") && (n =? nl) && ascii_alpha b) eqn:E;
    [|exact Ht].
  apply andb_true_iff in E as [E _]. apply andb_true_iff in E as [E Hn].
  apply andb_true_iff in E as [_ Hh].
  destruct (IH rest ltac:(simpl in Hk; lia)) as [Er Lr].
  assert (Hph : plain h = false) by (unfold plain; rewrite Hh; reflexivity).
  assert (Hpn : plain n = false).
  { unfold plain. rewrite Hn. apply andb_false_r. }
  cbn [List.filter]. rewrite Hph, Hpn, Er. split; [reflexivity|simpl; lia].
Qed.

(** X6: [dehyphenate_text] is the scan [join_breaks] from left to
    right; it changes no character but hyphens and newlines (without them the
    text is the same as before), and it never makes the text longer. *)
Theorem dehyphenate_text_scan (text : str) :
  dehyphenate_text text = join_breaks text
  /\ List.filter plain (dehyphenate_text text) = List.filter plain text
  /\ (length (dehyphenate_text text) <= length text)%nat.
Proof.
  rewrite dehyphenate_join_breaks. split; [reflexivity|apply join_breaks_plain].
Qed.

(** ** Whitespace normalization: the normal form *)

(** A property of every two neighbours of a text. *)
Fixpoint pairs_ok (R : char -> char -> Prop) (s : str) : Prop :=
  match s with
  | a :: t => match t with b :: _ => R a b | [] => True end /\ pairs_ok R t
  | [] => True
  end.

Lemma pairs_ok_app_l R (u v : str) : pairs_ok R (u ++ v) -> pairs_ok R u.
Proof.
  induction u as [|a u IH]; simpl; [auto|]. intros [Ha Hu]. split; [|apply IH, Hu].
  destruct u; [exact I|exact Ha].
Qed.

Lemma pairs_ok_app_r R (u v : str) : pairs_ok R (u ++ v) -> pairs_ok R v.
Proof. induction u as [|a u IH]; simpl; [auto|]. intros [_ Hu]. apply IH, Hu. Qed.

Lemma has_nl_false (s : str) : has_nl s = false -> Forall (fun c => c <> nl) s.
Proof.
  induction s as [|c s IH]; [constructor|]. rewrite has_nl_cons. intros H.
  apply orb_false_iff in H as [Hc Hs]. constructor; [|apply IH, Hs].
  intros ->. discriminate.
Qed.

Lemma collapse_class p x (s : str) :
  Forall (fun c => c = x \/ p c = false) (collapse p x s).
Proof.
  induction s as [|c t IH]; simpl; [constructor|].
  destruct (p c) eqn:Hc; [|constructor; auto].
  destruct t as [|d t']; [repeat constructor|].
  destruct (p d); [exact IH|constructor; auto].
Qed.

Section Squeezed.

Variable T : CharTables.

Abbreviation ws := (rx_s T).

Hypothesis ws_nl : ws nl = true.
Hypothesis ws_space : ws space = true.
Hypothesis ws_tab : ws tab = true.

(** Two neighbours of a squeezed text: no two spaces, and no whitespace
    next to a newline. *)
Definition apart (a b : char) : Prop :=
  (a = space -> b <> space) /\ (a = nl -> ws b = false) /\ (b = nl -> ws a = false).

Definition squeezed (s : str) : Prop :=
  Forall (fun c => c <> tab) s /\ pairs_ok apart s.

Lemma squeezed_app (u v : str) : squeezed (u ++ v) -> squeezed u /\ squeezed v.
Proof using Type.
  intros [Hf Hp]. apply Forall_app in Hf as [Hu Hv]. repeat split; auto.
  - eapply pairs_ok_app_l, Hp.
  - eapply pairs_ok_app_r, Hp.
Qed.

Lemma squeezed_tidy (s : str) : squeezed s -> tidy space_or_tab space s.
Proof using Type.
  induction s as [|a t IH]; [simpl; auto|]. intros [Hf Hp].
  inversion Hf as [|? ? Ha Ht]; subst. destruct Hp as [Hab Hp].
  split; [|apply IH; split; assumption].
  intros Hc. unfold space_or_tab in Hc. apply orb_true_iff in Hc as [Hc|Hc];
    apply N.eqb_eq in Hc; [subst a|congruence].
  split; [reflexivity|]. destruct t as [|b t]; [exact I|]. simpl.
  inversion Ht as [|? ? Hb _]; subst. destruct Hab as [Hs _].
  unfold space_or_tab. apply orb_false_iff. split; apply N.eqb_neq; auto.
Qed.

Lemma newline_run (w : str) :
  Forall (fun c => ws c = true) w -> pairs_ok apart w -> has_nl w = true -> w = [nl].
Proof using Type.
  induction w as [|c w IH]; [discriminate|]. intros Hf Hp Hn.
  inversion Hf as [|? ? Hc Hw]; subst. destruct Hp as [Hcd Hp].
  destruct w as [|d r].
  - rewrite has_nl_cons in Hn. change (has_nl []) with false in Hn.
    rewrite orb_false_r in Hn. apply N.eqb_eq in Hn. subst c. reflexivity.
  - exfalso. inversion Hw as [|? ? Hd _]; subst. destruct Hcd as (_ & H1 & H2).
    rewrite has_nl_cons in Hn. apply orb_true_iff in Hn as [Hn|Hn].
    + apply N.eqb_eq in Hn. subst c. rewrite (H1 eq_refl) in Hd. discriminate.
    + specialize (IH Hw Hp Hn). injection IH as -> _.
      rewrite (H2 eq_refl) in Hc. discriminate.
Qed.

Lemma squeeze_run_fixed (w : str) :
  Forall (fun c => ws c = true) w -> squeezed w -> squeeze_run w = w.
Proof using Type.
  intros Hf Hs. unfold squeeze_run. destruct (has_nl w) eqn:Hn.
  - symmetry. apply newline_run; [exact Hf|apply Hs|exact Hn].
  - apply tidy_collapse, squeezed_tidy, Hs.
Qed.

Lemma squeeze_go_fixed (s : str) :
  forall pending : str,
    Forall (fun c => ws c = true) pending -> squeezed (pending ++ s) ->
    squeeze_go ws pending s = pending ++ s.
Proof using Type.
  induction s as [|c t IH]; intros pending Hp Hs.
  - rewrite app_nil_r in *. apply squeeze_run_fixed; assumption.
  - cbn [squeeze_go]. destruct (ws c) eqn:Hc.
    + rewrite IH; [rewrite <- app_assoc; reflexivity| |rewrite <- app_assoc; exact Hs].
      apply Forall_app. split; [exact Hp|]. constructor; [exact Hc|constructor].
    + destruct (squeezed_app _ _ Hs) as [H1 H2].
      rewrite squeeze_run_fixed by assumption. do 2 f_equal.
      change (c :: t) with ([c] ++ t) in H2. destruct (squeezed_app _ _ H2) as [_ H3].
      apply (IH []); [constructor|exact H3].
Qed.

Lemma squeeze_run_squeezed (w : str) : squeezed (squeeze_run w).
Proof using Type.
  unfold squeeze_run. destruct (has_nl w) eqn:Hn.
  - split; [repeat constructor; discriminate|simpl; auto].
  - pose proof (collapse_class space_or_tab space w) as Hc.
    pose proof (collapse_tidy space_or_tab space w) as Ht.
    rewrite <- collapse_has_nl in Hn. apply has_nl_false in Hn.
    induction (collapse space_or_tab space w) as [|a t IH]; [split; [constructor|exact I]|].
    inversion Hc as [|? ? Ha Hc']; subst. inversion Hn as [|? ? Hna Hn']; subst.
    destruct Ht as [Hta Ht]. destruct (IH Hn' Hc' Ht) as [Hf Hp].
    split; [constructor; [|exact Hf]|split; [|exact Hp]].
    + destruct Ha as [->|Ha]; [discriminate|]. intros ->. discriminate.
    + destruct t as [|b t]; [exact I|]. inversion Hn' as [|? ? Hnb _]; subst.
      repeat split; try congruence.
      intros -> ->. destruct (Hta eq_refl) as [_ H]. discriminate.
Qed.

Lemma squeezed_join (u v : str) (c : char) :
  squeezed u -> squeezed v -> ws c = false -> squeezed (u ++ c :: v).
Proof using ws_nl ws_space ws_tab.
  intros [Hfu Hpu] [Hfv Hpv] Hc.
  assert (Hcs : c <> space) by congruence.
  assert (Hcn : c <> nl) by congruence.
  assert (Hct : c <> tab) by congruence.
  split.
  - apply Forall_app. split; [exact Hfu|]. constructor; assumption.
  - clear Hfu Hfv. induction u as [|a u IH].
    + simpl. split; [|exact Hpv]. destruct v as [|b v]; [exact I|].
      repeat split; congruence.
    + destruct Hpu as [Hab Hpu]. cbn [app pairs_ok]. split; [|apply IH, Hpu].
      destruct u as [|b u]; [|exact Hab]. simpl. repeat split; congruence.
Qed.

Lemma squeeze_go_squeezed (s : str) :
  forall pending : str, squeezed (squeeze_go ws pending s).
Proof using ws_nl ws_space ws_tab.
  induction s as [|c t IH]; intros pending; cbn [squeeze_go].
  - apply squeeze_run_squeezed.
  - destruct (ws c) eqn:Hc; [apply IH|].
    apply squeezed_join; [apply squeeze_run_squeezed|apply IH|exact Hc].
Qed.

Lemma strip_squeezed q (s : str) : squeezed s -> squeezed (strip q s).
Proof using Type.
  intros Hs. unfold strip. rewrite <- (run_lstrip q s) in Hs.
  apply squeezed_app in Hs as [_ Hs].
  destruct (rstrip_prefix q (lstrip q s)) as [t Ht]. rewrite Ht in Hs.
  apply squeezed_app in Hs as [Hs _]. exact Hs.
Qed.

Lemma squeezed_no_double_space (s : str) :
  squeezed s -> contains2 space space s = false.
Proof using Type.
  intros [_ Hp]. induction s as [|a t IH]; [reflexivity|].
  destruct Hp as [Hab Hp]. destruct t as [|b t]; [reflexivity|].
  change (contains2 space space (a :: b :: t))
    with (((a =? space) && (b =? space)) || contains2 space space (b :: t)).
  rewrite (IH Hp), orb_false_r.
  destruct (a =? space) eqn:Ha; [|reflexivity]. apply N.eqb_eq in Ha.
  destruct Hab as [H _]. apply N.eqb_neq in H; [|exact Ha]. rewrite H. reflexivity.
Qed.

Lemma normalize_whitespace_squeezed (text : str) :
  squeezed (normalize_whitespace T text).
Proof using ws_nl ws_space ws_tab.
  rewrite (normalize_whitespace_squeeze T ws_nl ws_space ws_tab).
  apply strip_squeezed, squeeze_go_squeezed.
Qed.

Lemma normalize_whitespace_fixed (s : str) :
  squeezed s -> strip (isspace T) s = s -> normalize_whitespace T s = s.
Proof using ws_nl ws_space ws_tab.
  intros Hs Hstrip. rewrite (normalize_whitespace_squeeze T ws_nl ws_space ws_tab).
  unfold squeeze_whitespace. rewrite (squeeze_go_fixed s []); [exact Hstrip|constructor|exact Hs].
Qed.

End Squeezed.

(** X7: with space, tab and newline in the class [\s],
    [normalize_whitespace] is idempotent, and its result holds no tab, no two
    spaces in a row and no leading or trailing whitespace. *)
Theorem normalize_whitespace_idempotent (T : CharTables) (text : str) :
  rx_s T nl = true -> rx_s T space = true -> rx_s T tab = true ->
  let out := normalize_whitespace T text in
  normalize_whitespace T out = out
  /\ Forall (fun c => c <> tab) out
  /\ contains2 space space out = false
  /\ strip (isspace T) out = out.
Proof.
  intros Hnl Hsp Htab out.
  pose proof (normalize_whitespace_squeezed T Hnl Hsp Htab text) as Hs. fold out in Hs.
  assert (Hstrip : strip (isspace T) out = out).
  { unfold out. rewrite (normalize_whitespace_squeeze T Hnl Hsp Htab). apply strip_idem. }
  split; [apply normalize_whitespace_fixed; assumption|].
  split; [apply Hs|]. split; [|exact Hstrip].
  eapply squeezed_no_double_space, Hs.
Qed.

Lemma normalize_whitespace_idempotent_witness :
  let out := normalize_whitespace basic_tables
               (lit " a " ++ tab :: lit " b  " ++ nl :: nl :: lit "  c ") in
  out = lit "a b" ++ nl :: lit "c"
  /\ normalize_whitespace basic_tables out = out
  /\ Forall (fun c => c <> tab) out
  /\ contains2 space space out = false
  /\ strip (isspace basic_tables) out = out.
Proof.
  split; [vm_compute; reflexivity|].
  apply (normalize_whitespace_idempotent basic_tables); reflexivity.
Defined.

(** ** Paragraph merging: what becomes of the lines *)

Section Paragraphs.

Variable T : CharTables.

Abbreviation sp := (isspace T).

Lemma flush_buffer (st : merge_state) : (flush T st).2 = [].
Proof. destruct st as [ps [|x b]]; reflexivity. Qed.

(** The lines that count: stripped, the blank ones left out. *)
Definition solid_lines (lines : list str) : list str :=
  List.filter nonempty (map (strip sp) lines).

(** The paragraphs emitted so far are the joins of groups of lines, and the
    groups and the buffer together hold the lines read so far. *)
Definition grouped (st : merge_state) (done : list str) : Prop :=
  exists groups : list (list str),
    st.1 = map (join [space]) groups
    /\ Forall (fun g => g <> [] /\ Forall (stripped T) g) groups
    /\ concat groups ++ st.2 = done
    /\ Forall (stripped T) st.2.

Lemma flush_grouped (st : merge_state) (done : list str) :
  grouped st done -> grouped (flush T st) done.
Proof.
  destruct st as [ps buf]. intros (groups & Hps & Hg & Hd & Hb). cbn [fst snd] in *.
  destruct buf as [|x b]; [exists groups; auto|].
  exists (groups ++ [x :: b]). unfold flush. cbn [fst snd].
  destruct (buffer_text_join T (x :: b) ltac:(discriminate) Hb) as [-> _].
  rewrite Hps, map_app, concat_app. cbn [map concat].
  rewrite !app_nil_r. repeat split; auto.
  apply Forall_app. split; [exact Hg|]. constructor; [split; [discriminate|exact Hb]|constructor].
Qed.

Lemma merge_step_grouped (st : merge_state) (done : list str) (l : str) :
  grouped st done -> grouped (merge_step T st l) (done ++ solid_lines [l]).
Proof.
  intros Hst. unfold merge_step, solid_lines. cbn [map List.filter].
  destruct (strip sp l) as [|c s] eqn:E; cbn [nonempty].
  - rewrite app_nil_r. apply flush_grouped, Hst.
  - assert (Hs : stripped T (c :: s)).
    { rewrite <- E. apply strip_stripped. rewrite E. discriminate. }
    assert (Hflush : grouped ((flush T st).1 ++ [c :: s], []) (done ++ [c :: s])).
    { pose proof (flush_buffer st) as Hbuf.
      destruct (flush_grouped st done Hst) as (groups & Hps & Hg & Hd & Hb).
      rewrite Hbuf, app_nil_r in Hd.
      exists (groups ++ [[c :: s]]). cbn [fst snd].
      rewrite Hps, map_app, concat_app, Hd. cbn [map concat join].
      rewrite !app_nil_r. repeat split; auto.
      apply Forall_app. split; [exact Hg|]. constructor; [split; [discriminate|constructor; [exact Hs|constructor]]|constructor]. }
    assert (Hpush : grouped (st.1, st.2 ++ [c :: s]) (done ++ [c :: s])).
    { destruct Hst as (groups & Hps & Hg & Hd & Hb).
      exists groups. cbn [fst snd]. rewrite app_assoc, Hd. repeat split; auto.
      apply Forall_app. split; [exact Hb|]. constructor; [exact Hs|constructor]. }
    destruct (_is_list_item T (c :: s)); [exact Hflush|].
    destruct (last st.2) as [prev|] eqn:El; [|exact Hpush].
    destruct (_ends_sentence T prev); [|exact Hpush].
    destruct st as [ps buf]. cbn [fst snd] in *.
    destruct buf as [|x b]; [discriminate|].
    destruct Hst as (groups & Hps & Hg & Hd & Hb). cbn [fst snd] in *.
    exists (groups ++ [x :: b]). cbn [fst snd].
    destruct (buffer_text_join T (x :: b) ltac:(discriminate) Hb) as [-> _].
    rewrite Hps, map_app, concat_app. cbn [map concat].
    rewrite !app_nil_r, Hd. repeat split; auto.
    apply Forall_app. split; [exact Hg|]. constructor; [split; [discriminate|exact Hb]|constructor].
Qed.

Lemma solid_lines_app (a b : list str) :
  solid_lines (a ++ b) = solid_lines a ++ solid_lines b.
Proof. unfold solid_lines. rewrite map_app, List.filter_app. reflexivity. Qed.

Lemma fold_merge_grouped (lines : list str) :
  forall (st : merge_state) (done : list str),
    grouped st done ->
    grouped (fold_left (merge_step T) lines st) (done ++ solid_lines lines).
Proof.
  induction lines as [|l lines IH]; intros st done Hst.
  - unfold solid_lines. simpl. rewrite app_nil_r. exact Hst.
  - change (l :: lines) with ([l] ++ lines). rewrite solid_lines_app, app_assoc.
    cbn [fold_left app]. apply IH, merge_step_grouped, Hst.
Qed.

Lemma join_stripped (g : list str) :
  g <> [] -> Forall (stripped T) g -> join [space] g <> [].
Proof.
  intros Hne Hg. destruct (buffer_text_join T g Hne Hg) as [<- H]. exact H.
Qed.

End Paragraphs.

(** X8: [merge_lines_into_paragraphs] loses and reorders nothing: its
    paragraphs are the joins, by single spaces, of consecutive non-empty
    groups of the stripped non-blank lines, in their order. *)
Theorem merge_lines_partition (T : CharTables) (lines : list str) :
  exists groups : list (list str),
    merge_lines_into_paragraphs T lines = map (join [space]) groups
    /\ concat groups = List.filter nonempty (map (strip (isspace T)) lines)
    /\ Forall (fun g => g <> []) groups.
Proof.
  unfold merge_lines_into_paragraphs.
  assert (H0 : grouped T ([], []) []).
  { exists []. repeat split; constructor. }
  pose proof (flush_grouped T _ _ (fold_merge_grouped T lines _ _ H0)) as H.
  pose proof (flush_buffer T (fold_left (merge_step T) lines ([], []))) as Hbuf.
  destruct H as (groups & Hps & Hg & Hd & _). rewrite Hbuf, app_nil_r in Hd.
  cbn [app] in Hd. exists groups. rewrite Hps. split; [|split; [exact Hd|]].
  - clear -Hg. induction Hg as [|g gs [Hne Hs] _ IH]; [reflexivity|].
    cbn [map List.filter]. rewrite IH.
    pose proof (join_stripped T g Hne Hs) as Hj.
    destruct (join [space] g); [congruence|reflexivity].
  - eapply List.Forall_impl; [|exact Hg]. intros g [H _]. exact H.
Qed.

(** X9: a blank line cuts the input of [merge_lines_into_paragraphs] in
    two: what precedes it and what follows it are merged on their own. *)
Theorem merge_lines_blank_line (T : CharTables) (pre : list str) (l : str)
    (post : list str) :
  strip (isspace T) l = [] ->
  merge_lines_into_paragraphs T (pre ++ l :: post)
  = merge_lines_into_paragraphs T pre ++ merge_lines_into_paragraphs T post.
Proof.
  intros Hblank. unfold merge_lines_into_paragraphs.
  rewrite fold_left_app. cbn [fold_left].
  set (st1 := fold_left (merge_step T) pre ([], [])).
  assert (Hstep : merge_step T st1 l = ((flush T st1).1, [])).
  { unfold merge_step. rewrite Hblank. rewrite <- (flush_buffer T st1).
    destruct (flush T st1); reflexivity. }
  rewrite Hstep.
  pose proof (fold_merge_prefix T post (flush T st1).1 ([], [])) as H.
  simpl in H. rewrite app_nil_r in H. rewrite H.
  set (st2 := fold_left (merge_step T) post ([], [])).
  rewrite (flush_prefix T (flush T st1).1 st2). cbn [fst].
  apply filter_nonempty_app.
Qed.

Lemma merge_lines_blank_line_witness :
  merge_lines_into_paragraphs basic_tables
    ([lit "one"; lit "two."] ++ lit "  " :: [lit "three"])
  = merge_lines_into_paragraphs basic_tables [lit "one"; lit "two."]
    ++ merge_lines_into_paragraphs basic_tables [lit "three"].
Proof.
  apply (merge_lines_blank_line basic_tables). reflexivity.
Defined.

(** ** Searching, and the two line tests of the paragraph merger *)

(** [re.search] finds a match iff a match starts at some position. *)
Lemma search_from_spec (r : regex) (s : str) :
  forall prev,
    search_from r prev s = true <->
    exists u v, s = u ++ v /\ ends r (last_or prev u, v) <> [].
Proof.
  induction s as [|c t IH]; intros prev; cbn [search_from].
  - destruct (ends r (prev, [])) eqn:E.
    + split; [discriminate|]. intros (u & v & Huv & Hne).
      symmetry in Huv. apply app_eq_nil in Huv as [-> ->]. rewrite last_or_nil in Hne.
      congruence.
    + split; [intros _|reflexivity]. exists [], []. rewrite last_or_nil, E.
      split; [reflexivity|discriminate].
  - destruct (ends r (prev, c :: t)) eqn:E.
    + rewrite IH. split.
      * intros (u & v & -> & Hne). exists (c :: u), v. rewrite last_or_cons. auto.
      * intros (u & v & Huv & Hne). destruct u as [|d u].
        -- simpl in Huv. subst v. rewrite last_or_nil in Hne. congruence.
        -- injection Huv as <- ->. exists u, v. rewrite last_or_cons in Hne. auto.
    + split; [intros _|reflexivity]. exists [], (c :: t). rewrite last_or_nil, E.
      split; [reflexivity|discriminate].
Qed.

Lemma flat_map_nonempty {A B : Type} (f : A -> list B) (l : list A) :
  flat_map f l <> [] <-> exists a, In a l /\ f a <> [].
Proof.
  induction l as [|a l IH]; simpl.
  - split; [congruence|]. intros (a & [] & _).
  - split.
    + intros H. destruct (f a) eqn:E.
      * simpl in H. apply IH in H as (b & Hb & Hfb). eauto.
      * exists a. split; [auto|]. rewrite E. discriminate.
    + intros (b & [->|Hb] & Hfb) H; apply app_eq_nil in H as [H1 H2].
      * congruence.
      * apply IH in H2; [exact H2|eauto].
Qed.

(** X10: [_ends_sentence] holds exactly of the lines that end in a
    sentence terminator followed by whitespace only and, possibly, one last
    newline. *)
Theorem ends_sentence_spec (T : CharTables) (line : str) :
  _ends_sentence T line = true <->
  exists u c w tail,
    line = u ++ c :: w ++ tail
    /\ sentence_end c = true
    /\ Forall (fun x => rx_s T x = true) w
    /\ (tail = [] \/ tail = [nl]).
Proof.
  unfold _ends_sentence, search. rewrite search_from_spec. split.
  - intros (u & v & -> & Hne).
    destruct v as [|c t]; [simpl in Hne; congruence|].
    cbn [ends fst snd] in Hne. destruct (sentence_end c) eqn:Hc; [|simpl in Hne; congruence].
    cbn [flat_map] in Hne. rewrite app_nil_r in Hne.
    apply flat_map_nonempty in Hne as ([pv r] & Hin & Heol).
    apply (ends_lang (star (rx_s T)) eq_refl) in Hin as (m & -> & Hm & _).
    apply lang_star in Hm.
    exists u, c, m, r. repeat split; auto.
    cbn [ends snd] in Heol. destruct r as [|x [|y r]]; auto.
    + destruct (x =? nl) eqn:Hx; [|congruence]. apply N.eqb_eq in Hx. subst x. auto.
    + congruence.
  - intros (u & c & w & tail & -> & Hc & Hw & Htail).
    exists u, (c :: w ++ tail). split; [reflexivity|].
    cbn [ends fst snd]. rewrite Hc. cbn [flat_map]. rewrite app_nil_r.
    apply flat_map_nonempty. exists (last_or (Some c) w, tail). split.
    + apply (ends_lang (star (rx_s T)) eq_refl). exists w. split; [reflexivity|].
      split; [|reflexivity]. apply lang_star, Hw.
    + cbn [ends snd]. destruct Htail as [->| ->]; discriminate.
Qed.

(** The markers of a list item: a bullet, a number and a full stop or a
    closing bracket, or a letter and a closing bracket. *)
Definition list_marker (T : CharTables) (m : str) : Prop :=
  (exists c, m = [c] /\ bullet c = true)
  \/ (exists d, m = d ++ [chr "."] /\ d <> [] /\ Forall (fun x => rx_d T x = true) d)
  \/ (exists d, m = d ++ [chr ")"] /\ d <> [] /\ Forall (fun x => rx_d T x = true) d)
  \/ (exists c, m = [c; chr ")"] /\ ascii_alpha c = true).

(** X11: [_is_list_item] holds exactly of the texts that start with a
    list marker followed by at least one whitespace character. *)
Theorem is_list_item_spec (T : CharTables) (text : str) :
  _is_list_item T text = true <->
  exists m w rest,
    text = m ++ w ++ rest
    /\ list_marker T m
    /\ w <> [] /\ Forall (fun x => rx_s T x = true) w.
Proof.
  unfold _is_list_item, matches, re_list_item.
  set (R := Seq (Alt _ _) (plus (rx_s T))).
  assert (Hcf : context_free R = true) by reflexivity.
  change (ends (Seq Bol R) (None, text)) with (ends R (None, text) ++ []).
  rewrite app_nil_r.
  assert (Hl : forall m, lang R m <->
             exists a w, m = a ++ w /\ list_marker T a
                         /\ w <> [] /\ Forall (fun x => rx_s T x = true) w).
  { intros m. unfold R.
    change (lang (Seq ?a ?b) m) with (exists m1 m2, m = m1 ++ m2 /\ lang a m1 /\ lang b m2).
    split.
    - intros (a & w & -> & Ha & Hw). apply lang_plus in Hw as [Hw1 Hw2].
      exists a, w. repeat split; auto. unfold list_marker.
      destruct Ha as [(c & -> & Hc)|[Ha|[Ha|Ha]]].
      + left. eauto.
      + right. left. destruct Ha as (d & x & -> & Hd & ->).
        apply lang_plus in Hd as [Hd1 Hd2]. exists d. auto.
      + right. right. left. destruct Ha as (d & x & -> & Hd & ->).
        apply lang_plus in Hd as [Hd1 Hd2]. exists d. auto.
      + right. right. right. destruct Ha as (c & x & -> & (y & -> & Hy) & ->).
        exists y. auto.
    - intros (a & w & -> & Ha & Hw1 & Hw2). exists a, w.
      split; [reflexivity|]. split; [|apply lang_plus; auto].
      destruct Ha as [(c & -> & Hc)|[(d & -> & Hd1 & Hd2)|[(d & -> & Hd1 & Hd2)|
                      (c & -> & Hc)]]].
      + left. exists c. auto.
      + right. left. exists d, [chr "."]. split; [reflexivity|].
        split; [apply lang_plus; auto|reflexivity].
      + right. right. left. exists d, [chr ")"]. split; [reflexivity|].
        split; [apply lang_plus; auto|reflexivity].
      + right. right. right. exists [c], [chr ")"]. split; [reflexivity|].
        split; [exists c; auto|reflexivity]. }
  split.
  - intros H. destruct (ends R (None, text)) as [|[pv rest] tl] eqn:E; [discriminate|].
    assert (Hin : In (pv, rest) (ends R (None, text))) by (rewrite E; left; reflexivity).
    apply (ends_lang R Hcf) in Hin as (m & -> & Hm & _).
    apply Hl in Hm as (a & w & -> & Ha & Hw). exists a, w, rest.
    rewrite <- app_assoc. auto.
  - intros (a & w & rest & -> & Ha & Hw).
    assert (Hin : In (last_or None (a ++ w), rest) (ends R (None, a ++ w ++ rest))).
    { apply (ends_lang R Hcf). exists (a ++ w). rewrite <- app_assoc.
      split; [reflexivity|]. split; [|reflexivity]. apply Hl. exists a, w. auto. }
    destruct (ends R (None, a ++ w ++ rest)); [destruct Hin|reflexivity].
Qed.


(** ** What the detector can return *)

Lemma occurrences_In (text : str) (l : list str) :
  (0 < occurrences text l)%nat -> In text l.
Proof.
  unfold occurrences. induction l as [|x l IH]; simpl; [lia|].
  rewrite filter_cons. destruct (decide (x = text)) as [->|Hne]; [auto|].
  intros H. right. apply IH, H.
Qed.

Lemma In_take {A : Type} (x : A) (n : nat) (l : list A) : In x (take n l) -> In x l.
Proof. intros H. rewrite <- (take_drop n l). apply in_or_app. auto. Qed.

Lemma In_drop {A : Type} (x : A) (n : nat) (l : list A) : In x (drop n l) -> In x l.
Proof. intros H. rewrite <- (take_drop n l). apply in_or_app. auto. Qed.

(** X12: every string that [detect_header_footer_lines] returns is
    non-empty and normalized, is the normalized text of a line of some page,
    and occurs at least twice among the header and footer candidates of a
    document of at least two pages. *)
Theorem detected_lines_repeat (T : CharTables) (header_max_lines footer_max_lines : Z)
    (pages_lines : list (list line)) (ratio : float) (repeated : gset str) (text : str) :
  detect_header_footer_lines T pages_lines header_max_lines footer_max_lines ratio
  = Some repeated ->
  text ∈ repeated ->
  (2 <= length pages_lines)%nat
  /\ (2 <= occurrences text
             (candidate_texts T header_max_lines footer_max_lines pages_lines))%nat
  /\ text <> []
  /\ normalize_line T text = text
  /\ exists lines l, In lines pages_lines /\ In l lines
                     /\ text = normalize_line T (line_text l).
Proof.
  intros Hd Hin.
  assert (Hthr : exists thr, repetition_threshold (length pages_lines) ratio = Some thr).
  { unfold detect_header_footer_lines in Hd.
    destruct (length pages_lines =? 0)%nat.
    - injection Hd as <-. inversion Hin.
    - destruct (repetition_threshold _ _) as [thr|]; [eauto|discriminate]. }
  destruct Hthr as [thr Hthr].
  destruct (detect_spec T header_max_lines footer_max_lines pages_lines ratio thr Hthr)
    as (repeated' & E & Hiff).
  rewrite E in Hd. injection Hd as ->.
  destruct (proj1 (Hiff text) Hin) as [Hlen Hocc].
  pose proof (repetition_threshold_ge _ _ _ Hthr) as Hge.
  assert (Hocc2 : (2 <= occurrences text
                     (candidate_texts T header_max_lines footer_max_lines pages_lines))%nat)
    by lia.
  assert (Hc : In text (candidate_texts T header_max_lines footer_max_lines pages_lines))
    by (apply occurrences_In; lia).
  unfold candidate_texts in Hc. apply in_flat_map in Hc as (lines & Hlines & Hc).
  unfold page_texts in Hc. apply filter_In in Hc as [Hc Hne].
  apply in_map_iff in Hc as (l & El & Hl).
  assert (Hll : In l lines).
  { unfold page_candidates in Hl. destruct lines as [|l0 lines0] eqn:Elines; [destruct Hl|].
    rewrite <- Elines in *.
    destruct (_ <=? _)%Z; [destruct Hl|].
    assert (Hs : In l (sorted_by (fun l => top_or_zero (line_bbox l)) lines)).
    { apply in_app_or in Hl as [Hl|Hl].
      - unfold py_take in Hl. destruct (0 <=? header_max_lines)%Z;
          eapply In_take; exact Hl.
      - destruct (0 <? footer_max_lines)%Z; [|destruct Hl]. unfold py_last in Hl.
        eapply In_drop; exact Hl. }
    eapply Permutation_in; [apply sorted_by_perm|exact Hs]. }
  repeat split; auto.
  - intros ->. discriminate.
  - rewrite <- El. apply normalize_line_idem.
  - exists lines, l. auto.
Qed.

Lemma detected_lines_repeat_witness :
  let pages := [sample_lines "Header"; sample_lines "Header"; sample_lines "Chapter 3"] in
  (2 <= length pages)%nat
  /\ (2 <= occurrences (lit "Header") (candidate_texts basic_tables 1 1 pages))%nat
  /\ lit "Header" <> []
  /\ normalize_line basic_tables (lit "Header") = lit "Header"
  /\ exists lines l, In lines pages /\ In l lines
                     /\ lit "Header" = normalize_line basic_tables (line_text l).
Proof.
  intros pages.
  destruct (detect_spec basic_tables 1 1 pages 0.6 2 ltac:(vm_compute; reflexivity))
    as (repeated & E & Hiff).
  apply (detected_lines_repeat basic_tables 1 1 pages 0.6 repeated (lit "Header") E).
  apply Hiff. split; [simpl; lia|]. vm_compute. discriminate.
Defined.

(** ** What the classifier can return *)

Lemma tidy_no_double p x (s : str) :
  p x = true -> tidy p x s -> contains2 x x s = false.
Proof.
  intros Hx. induction s as [|a t IH]; [reflexivity|]. intros [Ha Ht].
  destruct t as [|b t]; [reflexivity|].
  change (contains2 x x (a :: b :: t))
    with (((a =? x) && (b =? x)) || contains2 x x (b :: t)).
  rewrite (IH Ht), orb_false_r.
  destruct (a =? x) eqn:Eax; [|reflexivity]. apply N.eqb_eq in Eax. subst a.
  destruct (Ha Hx) as [_ Hb]. simpl in Hb.
  destruct (b =? x) eqn:Ebx; [|reflexivity]. apply N.eqb_eq in Ebx. subst b. congruence.
Qed.

(** X13: with the space in the class [\s], a normalized text never holds
    two spaces in a row. So on the text that [classify_role] passes to
    [_is_table_like] the double-space rule never fires, and the test comes
    down to the three-numbers pattern and the count of bars. *)
Theorem table_like_normalized (T : CharTables) (text : str) :
  re_s T space = true ->
  let norm := normalize_line T text in
  contains2 space space norm = false
  /\ _is_table_like T norm
     = search (re_three_numbers T) norm || (2 <=? count_char (chr "|") norm)%nat.
Proof.
  intros Hsp norm.
  assert (H : contains2 space space norm = false).
  { apply (tidy_no_double (re_s T)); [exact Hsp|].
    unfold norm. rewrite normalize_line_collapse. unfold strip.
    apply tidy_rstrip, tidy_lstrip, collapse_tidy. }
  split; [exact H|]. unfold _is_table_like. rewrite H.
  destruct (search _ norm); [reflexivity|]. destruct (2 <=? _)%nat; reflexivity.
Qed.

Lemma table_like_normalized_witness :
  let norm := normalize_line basic_tables (lit "a  b   c") in
  contains2 space space norm = false
  /\ _is_table_like basic_tables norm
     = search (re_three_numbers basic_tables) norm
       || (2 <=? count_char (chr "|") norm)%nat.
Proof. apply (table_like_normalized basic_tables). reflexivity. Defined.

(** X14: [classify_role] returns a role for every input, and the role is
    ["unknown"] exactly for a text that normalizes to nothing, ["header"]
    exactly for a non-empty normalized text in the repeated set, and a math
    role exactly for any other text with the math hint or a score of 2 or
    more; ["math_complex"] needs a score of 4, ["list_item"] a list item,
    and ["title"] a normalized text of at most 120 characters in a block that
    has a font size or a bounding box. *)
Theorem classify_role_cases (T : CharTables) (text : str)
    (avg_size page_median_size : option float) (page_width : float)
    (bbox : option bbox) (repeated : gset str) (math_hint : bool) :
  let norm := normalize_line T text in
  exists r,
    classify_role T text avg_size page_median_size page_width bbox repeated math_hint
    = Some r
    /\ (r = Unknown <-> norm = [])
    /\ (r = Header <-> (norm <> [] /\ (norm ∈ repeated)))
    /\ ((r = Math \/ r = MathComplex) <->
        (norm <> [] /\ (norm ∉ repeated)
         /\ (math_hint = true \/ (2 <= _math_score T norm)%nat)))
    /\ (r = MathComplex -> (4 <= _math_score T norm)%nat)
    /\ (r = ListItem -> _is_list_item T norm = true)
    /\ (r = Title -> (length norm <= 120)%nat
                     /\ (avg_size <> None \/ bbox <> None)).
Proof.
  intros norm. unfold classify_role. fold norm.
  assert (Hnil : forall c (n : str), c :: n <> []) by discriminate.
  destruct norm as [|c n] eqn:En.
  { exists Unknown. split; [reflexivity|].
    repeat split; intros; try discriminate; intuition (try discriminate; try congruence). }
  destruct (bool_decide (c :: n ∈ repeated)) eqn:Hrep.
  { apply bool_decide_eq_true in Hrep. exists Header. split; [reflexivity|].
    repeat split; intros; try discriminate; intuition (try discriminate; try congruence). }
  apply bool_decide_eq_false in Hrep.
  destruct (math_hint || (2 <=? _math_score T (c :: n))%nat) eqn:Hm.
  { assert (Hm' : math_hint = true \/ (2 <= _math_score T (c :: n))%nat).
    { apply orb_true_iff in Hm as [H|H]; [auto|right; apply Nat.leb_le, H]. }
    destruct (4 <=? _math_score T (c :: n))%nat eqn:H4; eexists; (split; [reflexivity|]).
    - apply Nat.leb_le in H4.
      repeat split; intros; try discriminate; intuition (try discriminate; try congruence).
    - repeat split; intros; try discriminate; intuition (try discriminate; try congruence). }
  assert (Hm' : ~ (math_hint = true \/ (2 <= _math_score T (c :: n))%nat)).
  { apply orb_false_iff in Hm as [H1 H2]. apply Nat.leb_gt in H2.
    intros [H|H]; [congruence|lia]. }
  destruct (_is_list_item T (c :: n)) eqn:Hli.
  { exists ListItem. split; [reflexivity|].
    repeat split; intros; try discriminate; intuition (try discriminate; try congruence). }
  destruct (_is_table_like T (c :: n)).
  { exists TableLike. split; [reflexivity|].
    repeat split; intros; try discriminate; intuition (try discriminate; try congruence). }
  destruct (_ && (length (c :: n) <=? 80)%nat) eqn:Hbig.
  { apply andb_true_iff in Hbig as [Hb Hl]. apply Nat.leb_le in Hl.
    assert (Hl' : (length (c :: n) <= 120)%nat) by lia.
    assert (Ha : avg_size <> None) by (destruct avg_size; [discriminate|discriminate]).
    exists Title. split; [reflexivity|].
    repeat split; intros; try discriminate; intuition (try discriminate; try congruence). }
  destruct bbox as [bb|].
  2:{ exists Paragraph. split; [reflexivity|].
      repeat split; intros; try discriminate; intuition (try discriminate; try congruence). }
  destruct (PrimFloat.ltb 0 page_width) eqn:Hw.
  2:{ exists Paragraph. split; [reflexivity|].
      repeat split; intros; try discriminate; intuition (try discriminate; try congruence). }
  unfold py_div. rewrite (positive_not_zero _ Hw). cbn [mbind option_bind].
  destruct (_ && (length (c :: n) <=? 120)%nat) eqn:Hwide.
  - apply andb_true_iff in Hwide as [_ Hl]. apply Nat.leb_le in Hl.
    exists Title. split; [reflexivity|].
    repeat split; intros; try discriminate; intuition (try discriminate; try congruence).
  - exists Paragraph. split; [reflexivity|].
    repeat split; intros; try discriminate; intuition (try discriminate; try congruence).
Qed.

(** ** Reading order: one column *)

(** The blocks the first loop of [order_blocks] sets apart. *)
Definition wide (page_width : float) (b : block) : bool :=
  match is_full_width page_width b with
  | Some true => true
  | _ => false
  end.

Lemma split_titles_filter w (blocks : list block) :
  forall t r,
    split_titles w blocks t r
    = Some (t ++ List.filter (wide w) blocks,
            r ++ List.filter (fun b => negb (wide w b)) blocks).
Proof.
  induction blocks as [|b blocks IH]; intros t r; simpl.
  - rewrite !app_nil_r. reflexivity.
  - assert (Hw : is_full_width w b = Some (wide w b)).
    { unfold wide. destruct (is_full_width_total w b) as [[|] ->]; reflexivity. }
    rewrite Hw. cbn [mbind option_bind].
    destruct (wide w b); cbn [negb]; rewrite IH, <- app_assoc; reflexivity.
Qed.

Lemma omap_left_edges_nil (l : list block) :
  omap (fun b => x0 <$> block_bbox b) l = [] <-> List.filter boxed l = [].
Proof.
  pose proof (omap_left_edges_length l) as H.
  split; intros E; rewrite E in H; simpl in H.
  - destruct (List.filter boxed l); [reflexivity|discriminate].
  - destruct (omap _ l); [reflexivity|discriminate].
Qed.

(** X15: on a page with fewer than four regular blocks that have a
    bounding box, [order_blocks] returns the full-width blocks sorted by
    their top, followed by the regular blocks that have a bounding box sorted
    by their top or, when no regular block has one, by the regular blocks in
    their input order. *)
Theorem order_blocks_single_column (blocks : list block) (page_width : float) :
  let titles := List.filter (wide page_width) blocks in
  let regular := List.filter (fun b => negb (wide page_width b)) blocks in
  (length (List.filter boxed regular) < 4)%nat ->
  order_blocks blocks page_width
  = Some (sorted_by top titles
          ++ match List.filter boxed regular with
             | [] => regular
             | _ :: _ => sorted_by top (List.filter boxed regular)
             end).
Proof.
  intros titles regular Hfew. unfold titles, regular in *. clear titles regular.
  unfold order_blocks.
  destruct blocks as [|b0 blocks0] eqn:Eb; [reflexivity|].
  rewrite <- Eb in *. clear Eb b0 blocks0.
  rewrite split_titles_filter. cbn [mbind option_bind fst snd app].
  set (titles := List.filter (wide page_width) blocks).
  set (regular := List.filter (fun b => negb (wide page_width b)) blocks) in *.
  change (fun b : block => top_or_zero (block_bbox b)) with top.
  pose proof (omap_left_edges_length regular) as Hx.
  pose proof (omap_left_edges_nil regular) as Hnil.
  destruct (omap (fun b => x0 <$> block_bbox b) regular) as [|v vs] eqn:Ex.
  { rewrite (proj1 Hnil eq_refl). reflexivity. }
  destruct (List.filter boxed regular) as [|c col] eqn:Ec; [discriminate|].
  rewrite <- Ec in *. clear Hnil.
  set (x0s := v :: vs) in *.
  assert (Hk : choose_column_count x0s 3 = Some 1%nat).
  { unfold choose_column_count.
    replace (length x0s <? 4)%nat with true; [reflexivity|].
    symmetry. apply Nat.ltb_lt. lia. }
  rewrite Hk. cbn [mbind option_bind].
  assert (Hkm : exists c, _kmeans_1d x0s 1 12
                          = Some (replicate (length x0s) 0%nat, [c])).
  { unfold _kmeans_1d, x0s. cbn [Nat.eqb]. fold x0s.
    assert (Hz : is_zero (float_of_nat (length x0s)) = false).
    { assert (Hl : (length x0s < 4)%nat) by lia.
      unfold x0s in *. simpl length in *.
      destruct vs as [|v1 [|v2 [|v3 vs]]]; simpl in Hl; try lia; reflexivity. }
    unfold py_div. rewrite Hz. cbn [mbind option_bind]. eauto. }
  destruct Hkm as [cen ->]. cbn [mbind option_bind fst snd replicate].
  rewrite (fill_one_column regular [] (length x0s) 0) by lia.
  cbn [mbind option_bind app].
  assert (Hcol : sorted_by_opt (fun b => y0 <$> block_bbox b) (List.filter boxed regular)
                 = Some (sorted_by top (List.filter boxed regular))).
  { apply sorted_by_opt_total. apply List.Forall_forall. intros b Hb.
    apply filter_In in Hb as [_ Hb]. unfold boxed, top in *.
    destruct (block_bbox b); [reflexivity|discriminate]. }
  assert (Hm : mapM (sorted_by_opt (fun b : block => y0 <$> block_bbox b))
                 [List.filter boxed regular]
               = Some [sorted_by top (List.filter boxed regular)]).
  { apply mapM_Some. repeat constructor. exact Hcol. }
  rewrite Hm. cbn [mbind option_bind].
  assert (Hs : forall col : list block,
             sorted_by_opt (fun item : nat * list block => [cen] !! item.1)
               (zip (seq 0 1) [col]) = Some [(0%nat, col)]) by reflexivity.
  rewrite Hs. cbn [mbind option_bind map snd concat]. rewrite app_nil_r.
  rewrite Ec. reflexivity.
Qed.

Lemma order_blocks_single_column_witness :
  let blocks := [text_block 0 40 100 "b"; bare_block "x"; text_block 0 0 500 "T";
                 text_block 300 20 100 "a"] in
  order_blocks blocks 600
  = Some [text_block 0 0 500 "T"; text_block 300 20 100 "a"; text_block 0 40 100 "b"].
Proof.
  intros blocks.
  rewrite (order_blocks_single_column blocks 600); [|vm_compute; lia].
  vm_compute. reflexivity.
Defined.

Lemma order_blocks_keeps_boxed_witness :
  Permutation [text_block 0 0 100 "A"]
              (List.filter boxed [text_block 0 0 100 "A"; bare_block "B"]).
Proof.
  apply (order_blocks_keeps_boxed [text_block 0 0 100 "A"; bare_block "B"]
           [text_block 0 0 100 "A"] 600).
  - vm_compute. reflexivity.
  - exists (text_block 0 0 100 "A"). split; [left; reflexivity|].
    split; vm_compute; reflexivity.
Defined.

(** ** The column count and the clusters *)

Lemma elbow_range (inertias : list float) (ks : list nat) :
  forall chosen k,
    elbow inertias chosen ks = Some k ->
    k = chosen \/ exists j, In j ks /\ k = (j + 1)%nat.
Proof.
  induction ks as [|j ks IH]; intros chosen k; simpl.
  - intros [= <-]. auto.
  - destruct (inertias !! (j - 1)%nat) as [base|]; simpl; [|discriminate].
    destruct (inertias !! j) as [next_val|]; simpl; [|discriminate].
    destruct (if PrimFloat.ltb 0 base then py_div (PrimFloat.sub base next_val) base
              else Some 0%float) as [improvement|]; simpl; [|discriminate].
    destruct (PrimFloat.leb 0.2 improvement).
    + intros H. apply IH in H as [->|(i & Hi & ->)]; right; eauto.
    + intros [= <-]. auto.
Qed.

(** X17: when [choose_column_count] returns, the count is at least 1
    and at most [max(1, max_k)], and it is 1 for fewer than four values. *)
Theorem choose_column_count_range (x0s : list float) (max_k k : nat) :
  choose_column_count x0s max_k = Some k ->
  (1 <= k)%nat /\ (k <= Nat.max 1 max_k)%nat
  /\ ((length x0s < 4)%nat -> k = 1%nat).
Proof.
  unfold choose_column_count. destruct (length x0s <? 4)%nat eqn:El.
  - intros [= <-]. lia.
  - apply Nat.ltb_ge in El.
    destruct (mapM _ (seq 1 max_k)) as [inertias|]; simpl; [|discriminate].
    intros H. apply elbow_range in H as [->|(j & Hj & ->)]; [lia|].
    apply in_seq in Hj. lia.
Qed.

Lemma choose_column_count_range_witness :
  (1 <= 3)%nat /\ (3 <= Nat.max 1 3)%nat
  /\ ((length [1; 400; 0; 400; 0; 400; 0; 400]%float < 4)%nat -> 3%nat = 1%nat).
Proof.
  apply (choose_column_count_range [1; 400; 0; 400; 0; 400; 0; 400]%float 3 3).
  vm_compute. reflexivity.
Defined.

Lemma nearest_from_range (centroids : list float) (v : float) (k : nat) (rest : list nat) :
  forall best best_d i,
    nearest_from centroids v best best_d rest = Some i ->
    (best < k)%nat -> Forall (fun j => (j < k)%nat) rest -> (i < k)%nat.
Proof.
  induction rest as [|j rest IH]; intros best best_d i; simpl.
  - intros [= <-] H _. exact H.
  - destruct (dist centroids v j) as [d|]; simpl; [|discriminate].
    intros H Hb Hr. inversion Hr as [|? ? Hj Hr']; subst.
    destruct (PrimFloat.ltb d best_d); eapply IH; eauto.
Qed.

Lemma nearest_range (centroids : list float) (k : nat) (v : float) (i : nat) :
  nearest centroids k v = Some i -> (i < k)%nat.
Proof.
  unfold nearest. destruct k as [|k]; [discriminate|]. cbn [seq].
  destruct (dist centroids v 0) as [d0|]; simpl; [|discriminate].
  intros H. eapply nearest_from_range; [exact H|lia|].
  apply List.Forall_forall. intros j Hj. apply in_seq in Hj. lia.
Qed.

Lemma iterate_length (iterations : nat) (values : list float) (k : nat) :
  forall centroids centroids',
    iterate iterations values k centroids = Some centroids' ->
    length centroids = k -> length centroids' = k.
Proof.
  induction iterations as [|n IH]; intros cs cs'; simpl.
  - intros [= <-] H. exact H.
  - destruct (assign_clusters cs k (replicate k []) values) as [clusters|];
      simpl; [|discriminate].
    destruct (update_centroids cs clusters k) as [new|] eqn:Eu; simpl; [|discriminate].
    destruct (floats_eq new cs).
    + intros [= <-] H. exact H.
    + intros H _. eapply IH; [exact H|].
      unfold update_centroids in Eu. apply length_mapM in Eu.
      rewrite length_seq in Eu. auto.
Qed.

(** X18: when [_kmeans_1d] returns, there is one assignment for every
    value and every assignment is an index into the centroids; for values
    there are [k] centroids, for no value none. *)
Theorem kmeans_1d_shape (values : list float) (k iterations : nat)
    (assignments : list nat) (centroids : list float) :
  _kmeans_1d values k iterations = Some (assignments, centroids) ->
  length assignments = length values
  /\ Forall (fun a => (a < length centroids)%nat) assignments
  /\ (values <> [] -> length centroids = k)
  /\ (values = [] -> centroids = []).
Proof.
  unfold _kmeans_1d. destruct values as [|v vs] eqn:Ev.
  { intros [= <- <-]. repeat split; auto; try constructor. congruence. }
  rewrite <- Ev. assert (Hne : values <> []) by (rewrite Ev; discriminate).
  clear Ev v vs.
  destruct (k =? 1)%nat eqn:Ek.
  - apply Nat.eqb_eq in Ek. subst k.
    destruct (py_div _ _) as [c|]; simpl; [|discriminate].
    intros [= <- <-]. rewrite length_replicate. repeat split; auto; [|congruence].
    apply Forall_replicate. simpl. lia.
  - destruct (initial_centroids _ k) as [c0|] eqn:E0; simpl; [|discriminate].
    destruct (iterate iterations values k c0) as [cs|] eqn:Ei; simpl; [|discriminate].
    destruct (mapM (nearest cs k) values) as [asg|] eqn:Em; simpl; [|discriminate].
    intros [= <- <-].
    assert (Hlen : length cs = k).
    { eapply iterate_length; [exact Ei|].
      unfold initial_centroids in E0. apply length_mapM in E0.
      rewrite length_seq in E0. auto. }
    split; [symmetry; eapply length_mapM, Em|]. split; [|split; [auto|congruence]].
    rewrite Hlen. apply mapM_Some in Em. clear -Em.
    induction Em as [|v a vs asg Hv _ IH]; constructor; [|exact IH].
    eapply nearest_range, Hv.
Qed.

Lemma kmeans_1d_shape_witness :
  length [0; 1; 0; 1]%nat = length [0; 400; 10; 410]%float
  /\ Forall (fun a => (a < length [5; 405]%float)%nat) [0; 1; 0; 1]%nat
  /\ ([0; 400; 10; 410]%float <> [] -> length [5; 405]%float = 2%nat)
  /\ ([0; 400; 10; 410]%float = [] -> [5; 405]%float = []).
Proof.
  apply (kmeans_1d_shape [0; 400; 10; 410]%float 2 12). vm_compute. reflexivity.
Defined.

(** ** Extraction *)

(** The divisor [max(1.0, x)] is never zero. *)
Lemma max_one_not_zero (x : float) : is_zero (max_one x) = false.
Proof.
  unfold max_one. destruct (PrimFloat.ltb 1 x) eqn:E; [|reflexivity].
  unfold is_zero. rewrite FloatAxioms.ltb_spec in E. rewrite FloatAxioms.eqb_spec.
  unfold SFltb in E. unfold SFeqb.
  change (Prim2SF 0) with (S754_zero false).
  destruct (Prim2SF x) as [s| s | |s m e]; try reflexivity.
  - vm_compute in E. discriminate.
  - destruct s; reflexivity.
  - destruct s; reflexivity.
Qed.

Lemma span_part_spec (c h : float) (s : span) :
  is_zero h = false ->
  exists part script,
    span_part c h s = Some (part, script)
    /\ (part = [] <-> span_text s = [])
    /\ (script = false -> part = span_text s).
Proof.
  intros Hh. unfold span_part. destruct (span_text s) as [|a t] eqn:E.
  - exists [], false. repeat split; auto.
  - unfold py_div. rewrite Hh. cbn [mbind option_bind].
    destruct (PrimFloat.ltb 0.25 _).
    + eexists _, true. split; [reflexivity|]. split; [|discriminate].
      split; discriminate.
    + destruct (PrimFloat.ltb _ (-0.25)).
      * eexists _, true. split; [reflexivity|]. split; [|discriminate].
        split; discriminate.
      * exists (a :: t), false. repeat split; auto.
Qed.

Lemma mapM_span_part (c h : float) (spans : list span) :
  is_zero h = false ->
  exists parts,
    mapM (span_part c h) spans = Some parts
    /\ (concat (map fst parts) = [] <-> concat (map span_text spans) = [])
    /\ (existsb snd parts = false -> concat (map fst parts) = concat (map span_text spans)).
Proof.
  intros Hh. induction spans as [|s spans (parts & E & Hnil & Hplain)].
  - exists []. repeat split; auto.
  - destruct (span_part_spec c h s Hh) as (part & script & Es & Hn & Hp).
    exists ((part, script) :: parts). cbn [mapM]. rewrite Es, E. cbn.
    split; [reflexivity|]. split.
    + split; intros H; apply app_eq_nil in H as [H1 H2];
        apply Hn in H1; apply Hnil in H2; rewrite H1, H2; reflexivity.
    + intros H. apply orb_false_iff in H as [H1 H2].
      rewrite (Hp H1), (Hplain H2). reflexivity.
Qed.

Lemma reconstruct_line_parts (l : pdf_line) :
  line_spans l <> [] ->
  exists parts,
    _reconstruct_line l = Some (concat (map fst parts), existsb snd parts)
    /\ (concat (map fst parts) = [] <-> plain_line l = [])
    /\ (existsb snd parts = false -> concat (map fst parts) = plain_line l).
Proof.
  intros Hne. unfold _reconstruct_line, plain_line.
  destruct (line_spans l) as [|s spans] eqn:E; [congruence|]. rewrite <- E.
  destruct (mapM_span_part
              (center (bbox_or_zero (pdf_line_bbox l)))
              (max_one (PrimFloat.sub (y1 (bbox_or_zero (pdf_line_bbox l)))
                                      (y0 (bbox_or_zero (pdf_line_bbox l)))))
              (line_spans l) (max_one_not_zero _))
    as (parts & Ep & Hnil & Hplain).
  rewrite Ep. cbn [mbind option_bind]. exists parts. auto.
Qed.

(** X19: [_reconstruct_line] never raises (its divisor
    [max(1.0, height)] is not zero); its text is empty exactly when the texts
    of the spans are all empty, and when no span is marked as a script it is
    the texts of the spans joined. *)
Theorem reconstruct_line_spec (l : pdf_line) :
  exists text has_script,
    _reconstruct_line l = Some (text, has_script)
    /\ (text = [] <-> plain_line l = [])
    /\ (has_script = false -> text = plain_line l).
Proof.
  destruct (line_spans l) as [|s spans] eqn:E.
  - exists [], false. unfold _reconstruct_line, plain_line. rewrite E.
    repeat split; auto.
  - destruct (reconstruct_line_parts l) as (parts & Ep & Hnil & Hplain);
      [rewrite E; discriminate|].
    eexists _, _. split; [exact Ep|]. auto.
Qed.

Lemma reconstruct_line_empty (l : pdf_line) :
  exists r, _reconstruct_line l = Some r /\ (r.1 = [] <-> plain_line l = []).
Proof.
  destruct (line_spans l) as [|s spans] eqn:E.
  - exists ([], false). unfold _reconstruct_line, plain_line. rewrite E.
    repeat split; auto.
  - destruct (reconstruct_line_parts l) as (parts & Ep & Hnil & _);
      [rewrite E; discriminate|].
    eexists. split; [exact Ep|exact Hnil].
Qed.

Section ExtractLines.

Variable T : CharTables.

Lemma extract_line_spec (b : pdf_block) (l : pdf_line) :
  exists lines,
    extract_line T b l = Some lines
    /\ length lines = length (List.filter nonempty [plain_line l])
    /\ Forall (fun x => normalize_line T (line_text x) = line_text x) lines.
Proof.
  unfold extract_line.
  destruct (reconstruct_line_empty l) as ([text script] & E & Hnil).
  rewrite E. cbn [mbind option_bind fst] in *.
  destruct text as [|c t].
  - exists []. rewrite (proj1 Hnil eq_refl). repeat split; auto.
  - eexists. split; [reflexivity|]. split.
    + destruct (plain_line l); [|reflexivity].
      destruct Hnil as [_ H]. specialize (H eq_refl). discriminate.
    + constructor; [apply normalize_line_idem|constructor].
Qed.

Lemma extract_block_lines (b : pdf_block) (ls : list pdf_line) :
  exists per_line,
    mapM (extract_line T b) ls = Some per_line
    /\ length (concat per_line) = length (List.filter nonempty (map plain_line ls))
    /\ Forall (fun x => normalize_line T (line_text x) = line_text x) (concat per_line).
Proof.
  induction ls as [|l ls (per & E & Hlen & Hn)].
  - exists []. repeat split; auto.
  - destruct (extract_line_spec b l) as (lines & El & Hl & Hnl).
    exists (lines :: per). cbn [mapM]. rewrite El, E. cbn.
    split; [reflexivity|]. split.
    + rewrite length_app, Hl, Hlen. cbn [List.filter].
      destruct (nonempty (plain_line l)); reflexivity.
    + apply Forall_app. auto.
Qed.

End ExtractLines.

(** X20: [extract_lines] never raises; it returns as many lines as
    [extract_page_text] joins, and every text it returns is normalized. *)
Theorem extract_lines_spec (T : CharTables) (page_blocks : list pdf_block) :
  exists lines,
    extract_lines T page_blocks = Some lines
    /\ length lines = length (page_text_lines page_blocks)
    /\ Forall (fun x => normalize_line T (line_text x) = line_text x) lines.
Proof.
  unfold extract_lines, page_text_lines.
  induction page_blocks as [|b bs (lines & E & Hlen & Hn)].
  - exists []. repeat split; auto.
  - destruct (mapM _ bs) as [per_block|] eqn:Em; [|discriminate].
    cbn [mbind option_bind] in E. injection E as <-.
    cbn [mapM flat_map]. destruct (pdf_type b =? 0)%Z.
    + destruct (extract_block_lines T b (pdf_lines b)) as (per & Ep & Hl & Hnl).
      rewrite Ep. cbn. rewrite Em. cbn.
      eexists. split; [reflexivity|]. rewrite !length_app, Hl, Hlen.
      split; [reflexivity|]. apply Forall_app. auto.
    + cbn. rewrite Em. cbn. eexists. split; [reflexivity|]. auto.
Qed.

(** *** The blocks of a page *)

Section ExtractBlocks.

Variable T : CharTables.

(** What [extract_blocks] promises of a block it returns. *)
Definition extracted_from (page_blocks : list pdf_block) (b : block) : Prop :=
  block_type b = KText
  /\ block_text b <> []
  /\ strip (isspace T) (block_text b) = block_text b
  /\ (search (Cls math_symbol) (block_text b) = true -> math_hint b = true)
  /\ exists pb, In pb page_blocks /\ pdf_type pb = 0%Z /\ block_bbox b = pdf_bbox pb.

Lemma extract_block_spec (pb : pdf_block) (r : option block) :
  extract_block T pb = Some r ->
  pdf_type pb = 0%Z ->
  match r with
  | Some b => extracted_from [pb] b
  | None => True
  end.
Proof.
  unfold extract_block. intros H Ht.
  destruct (mapM _reconstruct_line (pdf_lines pb)) as [recs|]; [|discriminate].
  cbn [mbind option_bind] in H.
  set (text := strip (isspace T) (join [nl] (List.filter nonempty (map fst recs)))) in *.
  assert (Hstrip : strip (isspace T) text = text) by apply strip_idem.
  destruct text as [|c t] eqn:Etext; [injection H as <-; exact I|].
  destruct (match concat (map line_sizes (pdf_lines pb)) with
            | [] => Some None
            | _ :: _ => _
            end) as [avg|]; [|discriminate].
  cbn [mbind option_bind] in H. injection H as <-.
  unfold extracted_from. cbn. split; [reflexivity|]. split; [discriminate|].
  split; [exact Hstrip|]. split.
  - intros Hs. rewrite Hs. destruct (existsb snd recs); reflexivity.
  - exists pb. auto.
Qed.

Lemma extracted_from_incl (l l' : list pdf_block) (b : block) :
  incl l l' -> extracted_from l b -> extracted_from l' b.
Proof.
  intros Hi (H1 & H2 & H3 & H4 & pb & Hin & Ht & Hb).
  repeat split; auto. exists pb. auto.
Qed.

Definition count_type (t : Z) (l : list pdf_block) : nat :=
  length (List.filter (fun b => (pdf_type b =? t)%Z) l).

Lemma extract_blocks_from_spec (rest : list pdf_block) :
  forall (seen : list pdf_block) blocks stats blocks' stats',
    extract_blocks_from T rest blocks stats = Some (blocks', stats') ->
    Forall (extracted_from seen) blocks ->
    (length blocks <= text_blocks stats)%nat ->
    text_blocks stats' = (text_blocks stats + count_type 0 rest)%nat
    /\ image_blocks stats' = (image_blocks stats + count_type 1 rest)%nat
    /\ (length blocks' <= text_blocks stats')%nat
    /\ Forall (extracted_from (seen ++ rest)) blocks'.
Proof.
  induction rest as [|pb rest IH]; intros seen blocks stats blocks' stats' H Hf Hl.
  - injection H as <- <-. unfold count_type. simpl. rewrite app_nil_r.
    repeat split; auto; lia.
  - cbn [extract_blocks_from] in H. unfold count_type in *. cbn [List.filter].
    assert (Hseen : incl seen (seen ++ [pb])) by (intros x Hx; apply in_or_app; auto).
    assert (Happ : seen ++ pb :: rest = (seen ++ [pb]) ++ rest)
      by (rewrite <- app_assoc; reflexivity).
    assert (Hf' : Forall (extracted_from (seen ++ [pb])) blocks).
    { eapply List.Forall_impl; [|exact Hf]. intros b. apply extracted_from_incl, Hseen. }
    destruct (pdf_type pb =? 0)%Z eqn:E0.
    + apply Z.eqb_eq in E0. rewrite E0. cbn [Z.eqb].
      destruct (extract_block T pb) as [r|] eqn:Er; [|discriminate].
      cbn [mbind option_bind] in H. pose proof (extract_block_spec pb r Er E0) as Hr.
      rewrite Happ. apply (IH (seen ++ [pb])) in H.
      * cbn [text_blocks image_blocks] in H. cbn [length].
        destruct H as (H1 & H2 & H3 & H4). repeat split; auto; lia.
      * destruct r as [b|]; [|exact Hf'].
        apply Forall_app. split; [exact Hf'|]. constructor; [|constructor].
        eapply extracted_from_incl; [|exact Hr].
        intros x [->|[]]. apply in_or_app. right. left. reflexivity.
      * cbn [text_blocks]. destruct r; [rewrite length_app; simpl|]; lia.
    + destruct (pdf_type pb =? 1)%Z eqn:E1; rewrite Happ;
        apply (IH (seen ++ [pb])) in H; auto;
        cbn [text_blocks image_blocks length] in *;
        destruct H as (H1 & H2 & H3 & H4); repeat split; auto; lia.
Qed.

End ExtractBlocks.

(** X21: when [extract_blocks] returns, [stats] counts the blocks of
    type 0 and of type 1 of the page, and every block returned comes from a
    text block of the page, whose bounding box it keeps: its type is
    ["text"], its text is not empty and [strip] does not change it, and its
    math hint is set when the text holds a math symbol. *)
Theorem extract_blocks_spec (T : CharTables) (page_blocks : list pdf_block)
    (blocks : list block) (stats : block_stats) :
  extract_blocks T page_blocks = Some (blocks, stats) ->
  text_blocks stats = length (List.filter (fun b => (pdf_type b =? 0)%Z) page_blocks)
  /\ image_blocks stats = length (List.filter (fun b => (pdf_type b =? 1)%Z) page_blocks)
  /\ (length blocks <= text_blocks stats)%nat
  /\ Forall (fun b =>
               block_type b = KText
               /\ block_text b <> []
               /\ strip (isspace T) (block_text b) = block_text b
               /\ (search (Cls math_symbol) (block_text b) = true -> math_hint b = true)
               /\ exists pb, In pb page_blocks /\ pdf_type pb = 0%Z
                             /\ block_bbox b = pdf_bbox pb) blocks.
Proof.
  intros H. unfold extract_blocks in H.
  apply (extract_blocks_from_spec T page_blocks []) in H; [|constructor|simpl; lia].
  exact H.
Qed.

(** A page with a line "x" and a raised "2", and an image. *)
Definition sample_dict : list pdf_block :=
  [{| pdf_type := 0;
      pdf_lines :=
        [{| line_spans :=
              [{| span_text := lit "x";
                  span_bbox := Some {| x0 := 72; y0 := 100; x1 := 80; y1 := 112 |};
                  span_size := Some 11%float |};
               {| span_text := lit "2";
                  span_bbox := Some {| x0 := 80; y0 := 96; x1 := 84; y1 := 102 |};
                  span_size := Some 7%float |}];
            pdf_line_bbox := Some {| x0 := 72; y0 := 96; x1 := 84; y1 := 112 |} |}];
      pdf_bbox := Some {| x0 := 72; y0 := 96; x1 := 84; y1 := 112 |} |};
   {| pdf_type := 1; pdf_lines := []; pdf_bbox := None |}].

Lemma extract_blocks_spec_witness :
  exists blocks stats,
    extract_blocks basic_tables sample_dict = Some (blocks, stats)
    /\ map block_text blocks = [lit "x^{2}"]
    /\ map math_hint blocks = [true]
    /\ map avg_size blocks = [Some 9%float]
    /\ text_blocks stats
       = length (List.filter (fun b => (pdf_type b =? 0)%Z) sample_dict)
    /\ image_blocks stats
       = length (List.filter (fun b => (pdf_type b =? 1)%Z) sample_dict)
    /\ (length blocks <= text_blocks stats)%nat
    /\ Forall (fun b =>
                 block_type b = KText
                 /\ block_text b <> []
                 /\ strip (isspace basic_tables) (block_text b) = block_text b
                 /\ (search (Cls math_symbol) (block_text b) = true -> math_hint b = true)
                 /\ exists pb, In pb sample_dict /\ pdf_type pb = 0%Z
                               /\ block_bbox b = pdf_bbox pb) blocks.
Proof.
  eexists _, _. split; [vm_compute; reflexivity|].
  split; [vm_compute; reflexivity|]. split; [vm_compute; reflexivity|].
  split; [vm_compute; reflexivity|].
  apply (extract_blocks_spec basic_tables sample_dict). vm_compute. reflexivity.
Defined.

(** ** The page scan *)

Lemma modes_distinct :
  mode_text <> mode_pending /\ mode_text <> mode_failed /\ mode_text <> mode_paddle
  /\ mode_pending <> mode_failed /\ mode_pending <> mode_paddle
  /\ mode_failed <> mode_paddle.
Proof. repeat split; intros H; vm_compute in H; discriminate. Qed.

(** Whether the scan takes a page for a scanned one. *)
Definition judged_scanned (T : CharTables) (rp : raw_page) : option bool :=
  r ← extract_blocks T (raw_dict rp);
  Some (is_scanned T (extract_page_text (raw_dict rp)) r.2).

Section ScanProperties.

Variable T : CharTables.
Variable ocr_enabled : bool.
Variable max_ocr_pages : option Z.

(** What the scan has made of the pages read so far. *)
Definition scanned_as (rp : raw_page) (pg : page) : Prop :=
  page_width pg = raw_width rp
  /\ confidence pg = None
  /\ (exists stats, extract_blocks T (raw_dict rp) = Some (page_blocks pg, stats))
  /\ extract_lines T (raw_dict rp) = Some (page_lines pg)
  /\ judged_scanned T rp = Some (negb (bool_decide (source_mode pg = mode_text)))
  /\ (source_mode pg = mode_text \/ source_mode pg = mode_pending
      \/ source_mode pg = mode_failed).

Definition scan_inv (done : list raw_page) (st : scan_state) : Prop :=
  map page_num (pages_data st) = seq 1 (length done)
  /\ Forall2 scanned_as done (pages_data st)
  /\ ocr_pages_used st = length (ocr_indices st)
  /\ (forall m, max_ocr_pages = Some m -> (Z.of_nat (ocr_pages_used st) <= Z.max 0 m)%Z)
  /\ (ocr_enabled = false -> ocr_indices st = [])
  /\ (forall j pg, pages_data st !! j = Some pg ->
        source_mode pg = mode_pending <-> In j (ocr_indices st))
  /\ Forall (fun j => (j < length done)%nat) (ocr_indices st)
  /\ Forall2 (fun j image => exists rp, done !! j = Some rp /\ rendering rp = inr image)
             (ocr_indices st) (ocr_images st).

Lemma scan_inv_length (done : list raw_page) (st : scan_state) :
  scan_inv done st -> length (pages_data st) = length done.
Proof.
  intros (Hnum & _). apply (f_equal (@length nat)) in Hnum.
  rewrite length_map, length_seq in Hnum. exact Hnum.
Qed.

Lemma scan_inv_pages (done : list raw_page) (st : scan_state) (rp : raw_page) (pg : page) :
  scan_inv done st -> scanned_as rp pg -> page_num pg = (length done + 1)%nat ->
  map page_num (pages_data st ++ [pg]) = seq 1 (length (done ++ [rp]))
  /\ Forall2 scanned_as (done ++ [rp]) (pages_data st ++ [pg]).
Proof.
  intros (Hnum & Hpages & _) Hpg Hn. split.
  - rewrite map_app, Hnum, length_app. cbn [map length]. rewrite seq_app, Hn.
    cbn [seq]. rewrite Nat.add_comm. reflexivity.
  - apply Forall2_app; [exact Hpages|]. constructor; [exact Hpg|constructor].
Qed.

Lemma extend_unchanged (done : list raw_page) (st : scan_state) (rp : raw_page)
    (pg : page) (w : list str) :
  scan_inv done st -> scanned_as rp pg -> page_num pg = (length done + 1)%nat ->
  source_mode pg <> mode_pending ->
  scan_inv (done ++ [rp])
    {| pages_data := pages_data st ++ [pg]; ocr_images := ocr_images st;
       ocr_indices := ocr_indices st; ocr_pages_used := ocr_pages_used st;
       warnings := w |}.
Proof.
  intros Hinv Hpg Hn Hmode.
  pose proof (scan_inv_length _ _ Hinv) as Hlen.
  destruct (scan_inv_pages _ _ rp pg Hinv Hpg Hn) as [H1 H2].
  destruct Hinv as (_ & _ & Hused & Hlim & Hoff & Hpend & Hidx & Hrender).
  unfold scan_inv. cbn [pages_data ocr_images ocr_indices ocr_pages_used].
  split; [exact H1|]. split; [exact H2|]. split; [exact Hused|].
  split; [exact Hlim|]. split; [exact Hoff|]. split; [|split].
  - intros j pg0 H. split.
    + intros E. apply lookup_app_Some in H as [H|[_ H]]; [apply (Hpend j pg0 H), E|].
      apply list_lookup_singleton_Some in H as [_ <-]. contradiction.
    + intros Hj. apply lookup_app_Some in H as [H|[Hge H]]; [apply (Hpend j pg0 H), Hj|].
      rewrite List.Forall_forall in Hidx. apply Hidx in Hj. lia.
  - eapply List.Forall_impl; [|exact Hidx]. intros j Hj. cbv beta in Hj. rewrite length_app. simpl. lia.
  - eapply Forall2_impl; [exact Hrender|]. intros j image (rp' & Hrp & Hr).
    exists rp'. split; [|exact Hr]. apply lookup_app_l_Some, Hrp.
Qed.

Lemma extend_pending (done : list raw_page) (st : scan_state) (rp : raw_page)
    (pg : page) (image : list ocr_line) (w : list str) :
  scan_inv done st -> scanned_as rp pg -> page_num pg = (length done + 1)%nat ->
  source_mode pg = mode_pending -> ocr_enabled = true -> rendering rp = inr image ->
  (forall m, max_ocr_pages = Some m -> (Z.of_nat (ocr_pages_used st) < m)%Z) ->
  scan_inv (done ++ [rp])
    {| pages_data := pages_data st ++ [pg]; ocr_images := ocr_images st ++ [image];
       ocr_indices := ocr_indices st ++ [length done];
       ocr_pages_used := S (ocr_pages_used st); warnings := w |}.
Proof.
  intros Hinv Hpg Hn Hmode Hon Himage Hroom.
  pose proof (scan_inv_length _ _ Hinv) as Hlen.
  destruct (scan_inv_pages _ _ rp pg Hinv Hpg Hn) as [H1 H2].
  destruct Hinv as (_ & _ & Hused & Hlim & Hoff & Hpend & Hidx & Hrender).
  unfold scan_inv. cbn [pages_data ocr_images ocr_indices ocr_pages_used].
  split; [exact H1|]. split; [exact H2|]. split; [|split; [|split; [|split; [|split]]]].
  - rewrite length_app, Hused. simpl. lia.
  - intros m Hm. specialize (Hroom m Hm). lia.
  - congruence.
  - intros j pg0 H. split.
    + intros E. apply in_or_app.
      apply lookup_app_Some in H as [H|[Hge H]]; [left; apply (Hpend j pg0 H), E|].
      apply list_lookup_singleton_Some in H as [Hj _]. right. left. lia.
    + intros Hj. apply lookup_app_Some in H as [H|[Hge H]].
      * apply in_app_or in Hj as [Hj|[Hj|[]]]; [apply (Hpend j pg0 H), Hj|].
        apply lookup_lt_Some in H. lia.
      * apply list_lookup_singleton_Some in H as [_ <-]. exact Hmode.
  - apply Forall_app. split.
    + eapply List.Forall_impl; [|exact Hidx]. intros j Hj. cbv beta in Hj. rewrite length_app. simpl. lia.
    + constructor; [|constructor]. rewrite length_app. simpl. lia.
  - apply Forall2_app.
    + eapply Forall2_impl; [exact Hrender|]. intros j im (rp' & Hrp & Hr).
      exists rp'. split; [|exact Hr]. apply lookup_app_l_Some, Hrp.
    + constructor; [|constructor]. exists rp. split; [|exact Himage].
      rewrite lookup_app_r by lia. rewrite Nat.sub_diag. reflexivity.
Qed.

Lemma scan_page_inv (done : list raw_page) (st st' : scan_state) (rp : raw_page) :
  scan_inv done st ->
  scan_page T ocr_enabled max_ocr_pages st (length done) rp = Some st' ->
  scan_inv (done ++ [rp]) st'.
Proof.
  intros Hinv H.
  destruct modes_distinct as (D1 & D2 & D3 & D4 & D5 & D6).
  unfold scan_page in H.
  destruct (extract_blocks T (raw_dict rp)) as [[blocks stats]|] eqn:Eb; [|discriminate].
  destruct (extract_lines T (raw_dict rp)) as [lines|] eqn:El; [|discriminate].
  cbn [mbind option_bind fst snd] in H.
  assert (Hrec : forall m,
             (m = mode_text \/ m = mode_pending \/ m = mode_failed) ->
             is_scanned T (extract_page_text (raw_dict rp)) stats
             = negb (bool_decide (m = mode_text)) ->
             scanned_as rp
               {| page_num := (length done + 1)%nat; page_width := raw_width rp;
                  page_blocks := blocks; page_lines := lines;
                  source_mode := m; confidence := None |}).
  { intros m Hm Hs. unfold scanned_as. cbn.
    repeat split; eauto. unfold judged_scanned. rewrite Eb. cbn. rewrite Hs. reflexivity. }
  assert (Hfailed : bool_decide (mode_failed = mode_text) = false)
    by (apply bool_decide_eq_false; congruence).
  assert (Hpending : bool_decide (mode_pending = mode_text) = false)
    by (apply bool_decide_eq_false; congruence).
  assert (Htext : bool_decide (mode_text = mode_text) = true)
    by (apply bool_decide_eq_true; reflexivity).
  destruct (is_scanned T (extract_page_text (raw_dict rp)) stats) eqn:Es;
    cbn [andb] in H.
  - destruct ocr_enabled eqn:Eo; cbn [negb] in H.
    + destruct (match max_ocr_pages with
                | Some m => (Z.of_nat (ocr_pages_used st) <? m)%Z
                | None => true
                end) eqn:Ec.
      * destruct (rendering rp) as [exc|image] eqn:Er; injection H as <-.
        -- apply extend_unchanged;
             [exact Hinv|apply Hrec; [auto|rewrite Hfailed; reflexivity]
             |reflexivity|cbn; congruence].
        -- apply (extend_pending done st rp _ image);
             [exact Hinv|apply Hrec; [auto|rewrite Hpending; reflexivity]
             |reflexivity|reflexivity|exact Eo|exact Er|].
           intros m Hm. rewrite Hm in Ec. apply Z.ltb_lt, Ec.
      * injection H as <-.
        apply extend_unchanged;
          [exact Hinv|apply Hrec; [auto|rewrite Hfailed; reflexivity]
          |reflexivity|cbn; congruence].
    + injection H as <-.
      apply extend_unchanged;
        [exact Hinv|apply Hrec; [auto|rewrite Hfailed; reflexivity]
        |reflexivity|cbn; congruence].
  - injection H as <-.
    apply extend_unchanged;
      [exact Hinv|apply Hrec; [auto|rewrite Htext; reflexivity]
      |reflexivity|cbn; congruence].
Qed.

Lemma scan_from_inv (rest : list raw_page) :
  forall (done : list raw_page) (st st' : scan_state),
    scan_inv done st ->
    scan_from T ocr_enabled max_ocr_pages (length done) rest st = Some st' ->
    scan_inv (done ++ rest) st'.
Proof.
  induction rest as [|rp rest IH]; intros done st st' Hinv H.
  - injection H as <-. rewrite app_nil_r. exact Hinv.
  - cbn [scan_from] in H.
    destruct (scan_page T ocr_enabled max_ocr_pages st (length done) rp) as [st1|] eqn:E;
      [|discriminate].
    cbn [mbind option_bind] in H.
    apply (scan_page_inv done st st1 rp Hinv) in E.
    replace (S (length done)) with (length (done ++ [rp])) in H
      by (rewrite length_app; simpl; lia).
    apply (IH _ _ _ E) in H. rewrite <- app_assoc in H. exact H.
Qed.

End ScanProperties.

(** ** Where a segment comes from *)

Lemma foldM_inv_In {A S : Type} (P : S -> Prop) (f : S -> A -> option S) (l : list A) :
  (forall s a s', In a l -> P s -> f s a = Some s' -> P s') ->
  forall s s', P s -> foldM f l s = Some s' -> P s'.
Proof.
  induction l as [|a l IH]; intros Hf s s' Hs; simpl.
  - intros [= <-]. exact Hs.
  - destruct (f s a) as [s1|] eqn:E; simpl; [|discriminate].
    apply IH; [intros s2 b s3 Hb; apply Hf; right; exact Hb|].
    exact (Hf s a s1 (or_introl eq_refl) Hs E).
Qed.

(** [order_blocks] returns blocks of its input only. *)
Lemma order_blocks_incl (blocks out : list block) (page_width : float) :
  order_blocks blocks page_width = Some out -> incl out blocks.
Proof.
  unfold order_blocks. intros H.
  destruct blocks as [|b0 blocks0] eqn:Eb; [injection H as <-; intros x []|].
  rewrite <- Eb in *. clear Eb b0 blocks0.
  destruct (split_titles page_width blocks [] []) as [[ts rs]|] eqn:Es;
    simpl in H; [|discriminate].
  apply split_titles_spec in Es as (t1 & r1 & -> & -> & Hp & Ht & Hr).
  cbn [app] in H.
  assert (Hparts : forall x, In x (sorted_by (fun b => top_or_zero (block_bbox b)) t1)
                             \/ In x r1 -> In x blocks).
  { intros x Hx. apply (Permutation_in x Hp). apply in_or_app.
    destruct Hx as [Hx|Hx]; [left|right; exact Hx].
    eapply Permutation_in; [apply sorted_by_perm|exact Hx]. }
  destruct (omap (fun b => x0 <$> block_bbox b) r1) as [|v vs].
  { injection H as <-. intros x Hx. apply Hparts. apply in_app_or in Hx. tauto. }
  remember (v :: vs) as x0s eqn:Ex0s. clear Ex0s.
  destruct (choose_column_count x0s 3) as [k|]; cbn [mbind option_bind] in H;
    [|discriminate].
  destruct (_kmeans_1d x0s k 12) as [[assignments centroids]|];
    cbn [mbind option_bind fst snd] in H; [|discriminate].
  destruct (fill_columns _ assignments 0 r1) as [columns|] eqn:Ef;
    cbn [mbind option_bind] in H; [|discriminate].
  destruct (mapM _ columns) as [columns'|] eqn:Em; cbn [mbind option_bind] in H;
    [|discriminate].
  destruct (sorted_by_opt _ (zip (seq 0 k) columns')) as [ordered|] eqn:Eo;
    cbn [mbind option_bind] in H; [|discriminate].
  injection H as <-.
  apply fill_columns_perm in Ef as [Hf Hlf].
  apply mapM_sorted_perm in Em as [Hm Hlm].
  apply sorted_by_opt_perm in Eo.
  rewrite length_replicate in Hlf.
  assert (Hc : concat (replicate k (@nil block)) = []).
  { clear. induction k; [reflexivity|exact IHk]. }
  rewrite Hc in Hf. cbn [app] in Hf.
  intros x Hx. apply Hparts. apply in_app_or in Hx as [Hx|Hx]; [left; exact Hx|right].
  assert (Hperm : Permutation (concat (map snd ordered)) (List.filter boxed r1)).
  { rewrite (concat_perm _ _ (Permutation_map snd Eo)).
    rewrite snd_zip by (rewrite length_seq; lia).
    rewrite Hm. exact Hf. }
  apply (Permutation_in x Hperm) in Hx. apply filter_In in Hx. tauto.
Qed.

Section Provenance.

Variable T : CharTables.
Variable opts : ScribeOptions.t.
Variable doc_id : str.
Variable repeated_lines : gset str.

(** A segment of a page: its box, source mode and confidence are those of
    a block of the page and of the page, its role is the classifier's for
    its text, and its text went through whitespace normalization when that
    is switched on. *)
Definition segment_of (pg : page) (s : segment) : Prop :=
  seg_page s = page_num pg
  /\ seg_source_mode s = source_mode pg
  /\ seg_confidence s = confidence pg
  /\ (ScribeOptions.normalize_whitespace opts = true ->
      exists p, seg_text s = normalize_whitespace T p)
  /\ exists blk median,
       In blk (page_blocks pg)
       /\ seg_bbox s = block_bbox blk
       /\ classify_role T (seg_text s) (avg_size blk) median (page_width pg)
            (block_bbox blk) repeated_lines (math_hint blk) = Some (seg_role s).

Definition emitted (pg : page) (segs0 : list segment) (st : emit_state) : Prop :=
  exists g, segments st = segs0 ++ g /\ Forall (segment_of pg) g.

Lemma emit_paragraph_emitted pg median blk segs0 st paragraph st' :
  In blk (page_blocks pg) ->
  emitted pg segs0 st ->
  emit_paragraph T opts doc_id repeated_lines pg median blk st paragraph = Some st' ->
  emitted pg segs0 st'.
Proof.
  intros Hblk (g & Hseg & Hall). unfold emit_paragraph.
  destruct (if ScribeOptions.normalize_whitespace opts then _ else _) as [|c p] eqn:Ep.
  - intros [= <-]. exists g. auto.
  - destruct (classify_role _ _ _ _ _ _ _ _) as [r|] eqn:Er; simpl; [|discriminate].
    intros [= <-]. eexists (g ++ [_]). cbn [segments].
    split; [rewrite Hseg, <- app_assoc; reflexivity|].
    apply Forall_app. split; [exact Hall|]. constructor; [|constructor].
    unfold segment_of. cbn. repeat split.
    + intros Hn. rewrite Hn in Ep. eauto.
    + exists blk, median. auto.
Qed.

Lemma emit_block_emitted pg median segs0 st blk st' :
  In blk (page_blocks pg) ->
  emitted pg segs0 st ->
  emit_block T opts doc_id repeated_lines pg median st blk = Some st' ->
  emitted pg segs0 st'.
Proof.
  intros Hblk Hinv. unfold emit_block.
  destruct (block_text blk); [intros [= <-]; exact Hinv|].
  destruct (strip _ _); [intros [= <-]; exact Hinv|].
  apply (foldM_inv (emitted pg segs0)); [|exact Hinv].
  intros s a s'. apply emit_paragraph_emitted, Hblk.
Qed.

Lemma emit_page_emitted segs pg segs' :
  emit_page T opts doc_id repeated_lines segs pg = Some segs' ->
  exists g, segs' = segs ++ g /\ Forall (segment_of pg) g.
Proof.
  unfold emit_page.
  match goal with
  | |- mbind _ ?x = _ -> _ => destruct x as [blocks|] eqn:Eb; [|discriminate]
  end.
  cbn [mbind option_bind].
  destruct (foldM _ blocks _) as [st|] eqn:E; [|discriminate].
  cbn [mbind option_bind].
  intros [= <-].
  assert (Hincl : incl blocks (page_blocks pg)).
  { destruct (_ && _); [eapply order_blocks_incl, Eb|].
    injection Eb as <-. apply incl_refl. }
  assert (H0 : emitted pg segs
                 {| segments := segs; page_paragraphs := []; segment_index := 1 |}).
  { exists []. cbn. rewrite app_nil_r. split; constructor. }
  apply (foldM_inv_In (emitted pg segs)) in E; [exact E| |exact H0].
  intros s a s' Ha. apply emit_block_emitted, Hincl, Ha.
Qed.

Lemma emit_pages_emitted (pages_data : list page) :
  forall segs0 segs,
    foldM (emit_page T opts doc_id repeated_lines) pages_data segs0 = Some segs ->
    exists g, segs = segs0 ++ g
              /\ Forall (fun s => exists pg, In pg pages_data /\ segment_of pg s) g.
Proof.
  induction pages_data as [|pg pages IH]; intros segs0 segs; simpl.
  - intros [= <-]. exists []. rewrite app_nil_r. split; constructor.
  - destruct (emit_page _ _ _ _ _ pg) as [segs1|] eqn:E; simpl; [|discriminate].
    intros H. apply emit_page_emitted in E as (g & -> & Hg).
    apply IH in H as (g' & -> & Hg').
    exists (g ++ g'). rewrite <- app_assoc. split; [reflexivity|].
    apply Forall_app. split.
    + eapply List.Forall_impl; [|exact Hg]. intros s Hs. exists pg. auto.
    + eapply List.Forall_impl; [|exact Hg']. intros s (pg' & Hin & Hs). exists pg'. auto.
Qed.

End Provenance.

Lemma process_pdf_emitted (T : CharTables) (opts : ScribeOptions.t) (doc_id : str)
    (pages_data : list page) (segs : list segment) :
  process_pdf T opts doc_id pages_data = Some segs ->
  exists repeated,
    repeated_of T opts pages_data = Some repeated
    /\ Forall (fun s => exists pg, In pg pages_data /\ segment_of T opts repeated pg s) segs.
Proof.
  unfold process_pdf. intros H.
  destruct (repeated_of T opts pages_data) as [repeated|]; simpl in H; [|discriminate].
  exists repeated. split; [reflexivity|].
  apply emit_pages_emitted in H as (g & -> & Hg). exact Hg.
Qed.

(** X22: every segment that [process_pdf] emits comes from a block of a
    page of the input: it carries the number, the source mode and the
    confidence of the page and the bounding box of the block, and its role is
    what [classify_role] returns for its text, the font size, bounding box
    and math hint of the block, and the repeated lines of the document. *)
Theorem segment_provenance (T : CharTables) (opts : ScribeOptions.t) (doc_id : str)
    (pages_data : list page) (segs : list segment) :
  process_pdf T opts doc_id pages_data = Some segs ->
  exists repeated,
    repeated_of T opts pages_data = Some repeated
    /\ Forall (fun s =>
                 exists pg blk median,
                   In pg pages_data /\ In blk (page_blocks pg)
                   /\ seg_page s = page_num pg
                   /\ seg_source_mode s = source_mode pg
                   /\ seg_confidence s = confidence pg
                   /\ seg_bbox s = block_bbox blk
                   /\ classify_role T (seg_text s) (avg_size blk) median (page_width pg)
                        (block_bbox blk) repeated (math_hint blk)
                      = Some (seg_role s)) segs.
Proof.
  intros H. apply process_pdf_emitted in H as (repeated & Hr & Hs).
  exists repeated. split; [exact Hr|].
  eapply List.Forall_impl; [|exact Hs].
  intros s (pg & Hpg & H1 & H2 & H3 & _ & blk & median & Hblk & H4 & H5).
  exists pg, blk, median. auto 10.
Qed.

Lemma segment_provenance_witness :
  exists segs repeated,
    process_pdf basic_tables default_options (lit "ids") sample_document = Some segs
    /\ repeated_of basic_tables default_options sample_document = Some repeated
    /\ Forall (fun s =>
                 exists pg blk median,
                   In pg sample_document /\ In blk (page_blocks pg)
                   /\ seg_page s = page_num pg
                   /\ seg_source_mode s = source_mode pg
                   /\ seg_confidence s = confidence pg
                   /\ seg_bbox s = block_bbox blk
                   /\ classify_role basic_tables (seg_text s) (avg_size blk) median
                        (page_width pg) (block_bbox blk) repeated (math_hint blk)
                      = Some (seg_role s)) segs.
Proof.
  destruct (process_pdf basic_tables default_options (lit "ids") sample_document)
    as [segs|] eqn:E; [|vm_compute in E; discriminate].
  destruct (segment_provenance basic_tables default_options (lit "ids")
              sample_document segs E) as (repeated & Hr & Hs).
  exists segs, repeated. auto.
Defined.

(** X23: with whitespace normalization switched on (and space, tab and
    newline in the class [\s]), the text of every segment is in normal form:
    normalizing or stripping it again changes nothing, and it holds no tab
    and no two spaces in a row. *)
Theorem segments_whitespace_normal (T : CharTables) (opts : ScribeOptions.t)
    (doc_id : str) (pages_data : list page) (segs : list segment) :
  rx_s T nl = true -> rx_s T space = true -> rx_s T tab = true ->
  ScribeOptions.normalize_whitespace opts = true ->
  process_pdf T opts doc_id pages_data = Some segs ->
  Forall (fun s =>
            normalize_whitespace T (seg_text s) = seg_text s
            /\ strip (isspace T) (seg_text s) = seg_text s
            /\ Forall (fun c => c <> tab) (seg_text s)
            /\ contains2 space space (seg_text s) = false) segs.
Proof.
  intros Hnl Hsp Htab Hopt H. apply process_pdf_emitted in H as (repeated & _ & Hs).
  eapply List.Forall_impl; [|exact Hs].
  intros s (pg & _ & _ & _ & _ & Hn & _). destruct (Hn Hopt) as [p ->].
  pose proof (normalize_whitespace_squeezed T Hnl Hsp Htab p) as Hsq.
  assert (Hstrip : strip (isspace T) (normalize_whitespace T p) = normalize_whitespace T p).
  { rewrite (normalize_whitespace_squeeze T Hnl Hsp Htab). apply strip_idem. }
  split; [apply normalize_whitespace_fixed; assumption|].
  split; [exact Hstrip|]. split; [apply Hsq|].
  eapply squeezed_no_double_space, Hsq.
Qed.

Lemma segments_whitespace_normal_witness :
  exists segs,
    process_pdf basic_tables default_options (lit "ids") sample_document = Some segs
    /\ Forall (fun s =>
                 normalize_whitespace basic_tables (seg_text s) = seg_text s
                 /\ strip (isspace basic_tables) (seg_text s) = seg_text s
                 /\ Forall (fun c => c <> tab) (seg_text s)
                 /\ contains2 space space (seg_text s) = false) segs.
Proof.
  eexists. split; [vm_compute; reflexivity|].
  apply (segments_whitespace_normal basic_tables default_options (lit "ids")
           sample_document);
    [reflexivity|reflexivity|reflexivity|reflexivity|vm_compute; reflexivity].
Defined.

(** ** The OCR pass *)

(** A block as [_ocr_image_array] builds it, and a page as the OCR pass
    leaves it. *)
Definition ocr_shaped (b : block) : Prop :=
  block_bbox b = None /\ avg_size b = None /\ block_type b = KOcr /\ math_hint b = false.

Definition ocr_made (pg : page) : Prop :=
  source_mode pg = mode_paddle
  /\ Forall ocr_shaped (page_blocks pg)
  /\ Forall (fun l => line_bbox l = None) (page_lines pg).

Lemma ocr_image_array_blocks (results : list ocr_line) r :
  _ocr_image_array results = Some r ->
  r.1.1 = join [nl] (List.filter nonempty (map ocr_text results))
  /\ r.2 = map (fun l => ocr_block (ocr_text l)) results
  /\ Forall ocr_shaped r.2.
Proof.
  unfold _ocr_image_array.
  destruct (match omap ocr_conf results with [] => Some None | _ :: _ => _ end)
    as [conf|]; [|discriminate].
  cbn [mbind option_bind]. intros [= <-]. cbn [fst snd].
  split; [reflexivity|]. split; [reflexivity|].
  apply List.Forall_map, List.Forall_forall. intros l _. repeat split.
Qed.

Lemma ocr_images_parallel_spec (images : list (list ocr_line)) results :
  ocr_images_parallel images = Some results ->
  length results = length images /\ Forall (fun r => Forall ocr_shaped r.2) results.
Proof.
  unfold ocr_images_parallel. intros H. split; [symmetry; eapply length_mapM, H|].
  apply mapM_Some in H. induction H as [|im r ims rs Hr _ IH]; constructor; [|exact IH].
  apply ocr_image_array_blocks in Hr. apply Hr.
Qed.

Lemma ocr_page_made (pg : page) r : Forall ocr_shaped r.2 -> ocr_made (ocr_page pg r).
Proof.
  intros H. unfold ocr_made, ocr_page. cbn. split; [reflexivity|]. split; [exact H|].
  apply List.Forall_map, List.Forall_forall. intros l _. reflexivity.
Qed.

Lemma store_results_spec (pairs : list ((str * option float * list block) * nat)) :
  forall pages : list page,
    Forall (fun p => (p.2 < length pages)%nat /\ Forall ocr_shaped p.1.2) pairs ->
    exists pages',
      store_results pages pairs = (pages', false)
      /\ map page_num pages' = map page_num pages
      /\ forall j pg', pages' !! j = Some pg' ->
           (In j (map snd pairs) -> ocr_made pg')
           /\ (~ In j (map snd pairs) -> pages !! j = Some pg').
Proof.
  induction pairs as [|[res i] pairs IH]; intros pages Hall.
  - exists pages. split; [reflexivity|]. split; [reflexivity|].
    intros j pg' Hj. split; [intros []|auto].
  - inversion Hall as [|? ? [Hi Hres] Hrest]; subst. cbn [fst snd] in *.
    destruct (lookup_lt_is_Some_2 pages i Hi) as [pg Hpg].
    cbn [store_results]. rewrite Hpg.
    destruct (IH (<[i := ocr_page pg res]> pages)) as (pages' & E & Hnum & Hlook).
    { eapply List.Forall_impl; [|exact Hrest]. intros p [H1 H2].
      rewrite length_insert. auto. }
    exists pages'. split; [exact E|]. split.
    + rewrite Hnum. apply list_eq. intros j. rewrite !list_lookup_fmap.
      destruct (decide (j = i)) as [->|Hne].
      * rewrite list_lookup_insert_eq by exact Hi. rewrite Hpg. reflexivity.
      * rewrite list_lookup_insert_ne by congruence. reflexivity.
    + intros j pg' Hj. destruct (Hlook j pg' Hj) as [H1 H2]. cbn [map snd]. split.
      * intros [Heq|Hin]; [|auto]. subst j.
        destruct (in_dec Nat.eq_dec i (map snd pairs)) as [Hin|Hnin]; [auto|].
        specialize (H2 Hnin). rewrite list_lookup_insert_eq in H2 by exact Hi.
        injection H2 as <-. apply ocr_page_made, Hres.
      * intros Hnin.
        assert (Hne : i <> j) by (intros ->; apply Hnin; left; reflexivity).
        assert (Hnin' : ~ In j (map snd pairs)) by (intros Hin; apply Hnin; right; exact Hin).
        specialize (H2 Hnin'). rewrite list_lookup_insert_ne in H2 by exact Hne.
        exact H2.
Qed.

Lemma mark_failed_spec (indices : list nat) :
  forall pages : list page,
    Forall (fun j => (j < length pages)%nat) indices ->
    exists pages',
      mark_failed pages indices = Some pages'
      /\ map page_num pages' = map page_num pages
      /\ forall j pg', pages' !! j = Some pg' ->
           (In j indices -> source_mode pg' = mode_failed)
           /\ (~ In j indices -> pages !! j = Some pg').
Proof.
  induction indices as [|i indices IH]; intros pages Hall.
  - exists pages. split; [reflexivity|]. split; [reflexivity|].
    intros j pg' Hj. split; [intros []|auto].
  - inversion Hall as [|? ? Hi Hrest]; subst.
    destruct (lookup_lt_is_Some_2 pages i Hi) as [pg Hpg].
    cbn [mark_failed]. rewrite Hpg. cbn [mbind option_bind].
    destruct (IH (<[i := failed_page pg]> pages)) as (pages' & E & Hnum & Hlook).
    { eapply List.Forall_impl; [|exact Hrest]. intros p H1. cbv beta in H1.
      rewrite length_insert. exact H1. }
    exists pages'. split; [exact E|]. split.
    + rewrite Hnum. apply list_eq. intros j. rewrite !list_lookup_fmap.
      destruct (decide (j = i)) as [->|Hne].
      * rewrite list_lookup_insert_eq by exact Hi. rewrite Hpg. reflexivity.
      * rewrite list_lookup_insert_ne by congruence. reflexivity.
    + intros j pg' Hj. destruct (Hlook j pg' Hj) as [H1 H2]. split.
      * intros [Heq|Hin]; [|auto]. subst j.
        destruct (in_dec Nat.eq_dec i indices) as [Hin|Hnin]; [auto|].
        specialize (H2 Hnin). rewrite list_lookup_insert_eq in H2 by exact Hi.
        injection H2 as <-. reflexivity.
      * intros Hnin.
        assert (Hne : i <> j) by (intros ->; apply Hnin; left; reflexivity).
        assert (Hnin' : ~ In j indices) by (intros Hin; apply Hnin; right; exact Hin).
        specialize (H2 Hnin'). rewrite list_lookup_insert_ne in H2 by exact Hne.
        exact H2.
Qed.

(** The pages after the OCR pass: numbered as before, none pending, and
    the ones OCR has read made of its blocks and lines. *)
Definition settled (n : nat) (pages : list page) : Prop :=
  map page_num pages = seq 1 n
  /\ Forall (fun pg => source_mode pg = mode_text \/ source_mode pg = mode_failed
                       \/ ocr_made pg) pages.

Lemma apply_ocr_settled (T : CharTables) (ocr_enabled : bool) (limit : option Z)
    (doc : list raw_page) (st : scan_state) (engine_error : option str) :
  scan_inv T ocr_enabled limit doc st ->
  exists pages ws,
    apply_ocr engine_error st = Some (pages, ws)
    /\ settled (length doc) pages
    /\ (ws = warnings st
        \/ exists exc, ws = warnings st ++ [lit "OCR parallel failed: " ++ exc]).
Proof.
  intros (Hnum & Hpages & Hused & Hlim & Hoff & Hpend & Hidx & Hrender).
  destruct modes_distinct as (D1 & D2 & D3 & D4 & D5 & D6).
  assert (Hlen : length (pages_data st) = length doc).
  { apply (f_equal (@length nat)) in Hnum. rewrite length_map, length_seq in Hnum.
    exact Hnum. }
  assert (Hmodes : forall j pg, pages_data st !! j = Some pg ->
             ~ In j (ocr_indices st) ->
             source_mode pg = mode_text \/ source_mode pg = mode_failed).
  { intros j pg Hj Hnin.
    destruct (Forall2_lookup_r _ _ _ _ _ Hpages Hj) as (rp & _ & Hs).
    destruct Hs as (_ & _ & _ & _ & _ & [H|[H|H]]); auto.
    exfalso. apply Hnin, (Hpend j pg Hj), H. }
  assert (Hidx' : Forall (fun j => (j < length (pages_data st))%nat) (ocr_indices st))
    by (rewrite Hlen; exact Hidx).
  assert (Hfail : forall pages0,
             map page_num pages0 = map page_num (pages_data st) ->
             length pages0 = length (pages_data st) ->
             (forall j pg, pages0 !! j = Some pg -> ~ In j (ocr_indices st) ->
                           pages_data st !! j = Some pg) ->
             exists pages, mark_failed pages0 (ocr_indices st) = Some pages
                           /\ settled (length doc) pages).
  { intros pages0 Hn0 Hl0 Hsame.
    destruct (mark_failed_spec (ocr_indices st) pages0) as (pages & E & Hn & Hlook);
      [rewrite Hl0; exact Hidx'|].
    exists pages. split; [exact E|]. split; [congruence|].
    apply Forall_lookup_2. intros j pg Hj. destruct (Hlook j pg Hj) as [H1 H2].
    destruct (in_dec Nat.eq_dec j (ocr_indices st)) as [Hin|Hnin]; [auto|].
    destruct (Hmodes j pg (Hsame j pg (H2 Hnin) Hnin) Hnin); auto. }
  assert (Hil : length (ocr_indices st) = length (ocr_images st))
    by (eapply Forall2_length, Hrender).
  unfold apply_ocr. destruct (decide (ocr_images st = [])) as [Eim|Eim].
  { rewrite Eim. exists (pages_data st), (warnings st).
    split; [reflexivity|]. split; [|auto].
    split; [exact Hnum|]. apply Forall_lookup_2. intros j pg Hj.
    rewrite Eim in Hil. destruct (ocr_indices st); [|discriminate].
    destruct (Hmodes j pg Hj ltac:(intros [])); auto. }
  rewrite (match_cons _ _ _ Eim).
  destruct engine_error as [exc|].
  { cbn [snd fst].
    destruct (Hfail (pages_data st) eq_refl eq_refl ltac:(auto)) as (pages & E & Hs).
    rewrite E. cbn [mbind option_bind]. eauto 10. }
  destruct (ocr_images_parallel (ocr_images st)) as [results|] eqn:Er.
  2:{ cbn [snd fst].
      destruct (Hfail (pages_data st) eq_refl eq_refl ltac:(auto)) as (pages & E & Hs).
      rewrite E. cbn [mbind option_bind]. eauto 10. }
  apply ocr_images_parallel_spec in Er as [Hrl Hrs].
  assert (Hsnd : map snd (zip results (ocr_indices st)) = ocr_indices st).
  { apply snd_zip. lia. }
  destruct (store_results_spec (zip results (ocr_indices st)) (pages_data st))
    as (pages & E & Hn & Hlook).
  { apply List.Forall_forall. intros [r i] Hin. cbn [fst snd].
    pose proof (in_map fst _ _ Hin) as Hr. pose proof (in_map snd _ _ Hin) as Hi.
    cbn [fst snd] in Hr, Hi. rewrite Hsnd in Hi.
    rewrite fst_zip in Hr by lia.
    rewrite List.Forall_forall in Hidx', Hrs. auto. }
  rewrite E. cbn [fst snd]. exists pages, (warnings st).
  split; [reflexivity|]. split; [|auto]. split; [congruence|].
  apply Forall_lookup_2. intros j pg Hj. destruct (Hlook j pg Hj) as [H1 H2].
  rewrite Hsnd in H1, H2.
  destruct (in_dec Nat.eq_dec j (ocr_indices st)) as [Hin|Hnin]; [auto|].
  destruct (Hmodes j pg (H2 Hnin) Hnin); auto.
Qed.

Lemma scan_pages_inv (T : CharTables) (ocr_enabled : bool) (opts : RunOptions.t)
    (ws : list str) (doc : list raw_page) (st : scan_state) :
  scan_pages T ocr_enabled opts ws doc = Some st ->
  scan_inv T ocr_enabled (ocr_page_limit opts) doc st.
Proof.
  unfold scan_pages. intros H.
  apply (scan_from_inv T ocr_enabled (ocr_page_limit opts) doc []) in H; [exact H|].
  unfold scan_inv. cbn. repeat split; auto; try constructor.
  - intros m _. lia.
  - destruct j; discriminate.
  - intros [].
Qed.

(** A document of three pages: a page of text, and two pages that hold an
    image only. *)
Definition text_page (text : string) : raw_page :=
  {| raw_width := 600;
     raw_dict :=
       [{| pdf_type := 0;
           pdf_lines :=
             [{| line_spans :=
                   [{| span_text := lit text;
                       span_bbox := Some {| x0 := 72; y0 := 100; x1 := 400; y1 := 112 |};
                       span_size := Some 11%float |}];
                 pdf_line_bbox := Some {| x0 := 72; y0 := 100; x1 := 400; y1 := 112 |} |}];
           pdf_bbox := Some {| x0 := 72; y0 := 100; x1 := 400; y1 := 112 |} |}];
     rendering := inr [] |}.

Definition image_page (read : list string) : raw_page :=
  {| raw_width := 600;
     raw_dict := [{| pdf_type := 1; pdf_lines := []; pdf_bbox := None |}];
     rendering := inr (map (fun s => {| ocr_text := lit s; ocr_conf := Some 0.5%float |})
                           read) |}.

Definition sample_scan : list raw_page :=
  [text_page "A page of running text."; image_page ["Scanned title"; "and a line"];
   image_page ["Another scan"]].

Definition sample_run (limit : option Z) : RunOptions.t :=
  {| RunOptions.mode := lit "local"; RunOptions.simpletex_token := None;
     RunOptions.enable_ocr := true; RunOptions.max_ocr_pages := limit;
     RunOptions.max_pages_ocr := None |}.

(** X24: the page loop of [process_pdf] numbers the pages from 1 and
    marks a page ["extract:text"] exactly when it does not take it for a
    scanned one. The pages marked ["ocr:pending"] are those whose index is in
    [ocr_indices], with one image each; their number is [ocr_pages_used], it
    never exceeds the limit on OCR pages, and it is zero when OCR is
    disabled. *)
Theorem scan_pages_spec (T : CharTables) (ocr_enabled : bool) (opts : RunOptions.t)
    (ws : list str) (doc : list raw_page) (st : scan_state) :
  scan_pages T ocr_enabled opts ws doc = Some st ->
  map page_num (pages_data st) = seq 1 (length doc)
  /\ Forall2 (fun rp pg =>
                page_width pg = raw_width rp
                /\ judged_scanned T rp
                   = Some (negb (bool_decide (source_mode pg = mode_text)))
                /\ (source_mode pg = mode_text \/ source_mode pg = mode_pending
                    \/ source_mode pg = mode_failed))
             doc (pages_data st)
  /\ ocr_pages_used st = length (ocr_indices st)
  /\ length (ocr_images st) = length (ocr_indices st)
  /\ (forall m, ocr_page_limit opts = Some m ->
                (Z.of_nat (length (ocr_indices st)) <= Z.max 0 m)%Z)
  /\ (ocr_enabled = false -> ocr_indices st = [])
  /\ (forall j pg, pages_data st !! j = Some pg ->
                   source_mode pg = mode_pending <-> In j (ocr_indices st)).
Proof.
  intros H. apply scan_pages_inv in H.
  destruct H as (Hnum & Hpages & Hused & Hlim & Hoff & Hpend & Hidx & Hrender).
  split; [exact Hnum|]. split.
  { eapply Forall2_impl; [exact Hpages|]. intros rp pg (H1 & _ & _ & _ & H2 & H3). auto. }
  split; [exact Hused|]. split; [symmetry; eapply Forall2_length, Hrender|].
  split; [intros m Hm; rewrite <- Hused; apply Hlim, Hm|]. auto.
Qed.

Lemma scan_pages_spec_witness :
  exists st,
    scan_pages basic_tables true (sample_run (Some 1%Z)) [] sample_scan = Some st
    /\ map source_mode (pages_data st) = [mode_text; mode_pending; mode_failed]
    /\ ocr_indices st = [1%nat]
    /\ map page_num (pages_data st) = seq 1 (length sample_scan)
    /\ (forall m, ocr_page_limit (sample_run (Some 1%Z)) = Some m ->
                  (Z.of_nat (length (ocr_indices st)) <= Z.max 0 m)%Z).
Proof.
  eexists. split; [vm_compute; reflexivity|].
  split; [vm_compute; reflexivity|]. split; [vm_compute; reflexivity|].
  split;
    apply (scan_pages_spec basic_tables true (sample_run (Some 1%Z)) [] sample_scan);
    vm_compute; reflexivity.
Defined.

(** X25: after the page loop the OCR pass never raises, whether the
    engine fails or not. It keeps the page numbers and leaves no page
    ["ocr:pending"]; a page it marks ["ocr:paddle"] holds only blocks and
    lines without a bounding box, the blocks without a font size or a math
    hint; and it adds at most the warning of a failed batch. *)
Theorem ocr_pass_settles (T : CharTables) (ocr_enabled : bool) (opts : RunOptions.t)
    (ws : list str) (doc : list raw_page) (st : scan_state) (engine_error : option str) :
  scan_pages T ocr_enabled opts ws doc = Some st ->
  exists pages ws',
    apply_ocr engine_error st = Some (pages, ws')
    /\ map page_num pages = seq 1 (length doc)
    /\ Forall (fun pg =>
                 source_mode pg = mode_text \/ source_mode pg = mode_failed
                 \/ (source_mode pg = mode_paddle
                     /\ Forall (fun b => block_bbox b = None /\ avg_size b = None
                                         /\ block_type b = KOcr /\ math_hint b = false)
                               (page_blocks pg)
                     /\ Forall (fun l => line_bbox l = None) (page_lines pg))) pages
    /\ (ws' = warnings st
        \/ exists exc, ws' = warnings st ++ [lit "OCR parallel failed: " ++ exc]).
Proof.
  intros H. apply scan_pages_inv in H.
  destruct (apply_ocr_settled _ _ _ _ _ engine_error H) as (pages & ws' & E & [Hn Hs] & Hw).
  exists pages, ws'. auto.
Qed.

Lemma ocr_pass_settles_witness :
  exists st pages,
    scan_pages basic_tables true (sample_run None) [] sample_scan = Some st
    /\ apply_ocr None st = Some (pages, [])
    /\ map source_mode pages = [mode_text; mode_paddle; mode_paddle]
    /\ exists pages' ws',
         apply_ocr (Some (lit "engine down")) st = Some (pages', ws')
         /\ map page_num pages' = seq 1 (length sample_scan)
         /\ Forall (fun pg =>
                      source_mode pg = mode_text \/ source_mode pg = mode_failed
                      \/ (source_mode pg = mode_paddle
                          /\ Forall (fun b => block_bbox b = None /\ avg_size b = None
                                              /\ block_type b = KOcr
                                              /\ math_hint b = false)
                                    (page_blocks pg)
                          /\ Forall (fun l => line_bbox l = None) (page_lines pg))) pages'
         /\ (ws' = warnings st
             \/ exists exc, ws' = warnings st ++ [lit "OCR parallel failed: " ++ exc]).
Proof.
  eexists _, _. split; [vm_compute; reflexivity|].
  split; [vm_compute; reflexivity|]. split; [vm_compute; reflexivity|].
  apply (ocr_pass_settles basic_tables true (sample_run None) [] sample_scan).
  vm_compute. reflexivity.
Defined.

(** ** The local pipeline *)

Lemma classify_role_title (T : CharTables) (text : str)
    (avg_size page_median_size : option float) (page_width : float)
    (bbox : option bbox) (repeated : gset str) (math_hint : bool) :
  classify_role T text avg_size page_median_size page_width bbox repeated math_hint
  = Some Title ->
  avg_size <> None \/ bbox <> None.
Proof.
  unfold classify_role. destruct (normalize_line T text) as [|c n]; [discriminate|].
  destruct (bool_decide _); [discriminate|].
  destruct (math_hint || _); [destruct (4 <=? _)%nat; discriminate|].
  destruct (_is_list_item T (c :: n)); [discriminate|].
  destruct (_is_table_like T (c :: n)); [discriminate|].
  destruct avg_size as [a|]; [left; discriminate|].
  destruct bbox as [bb|]; [right; discriminate|].
  cbn [andb]. discriminate.
Qed.

(** X26: in local mode, from the opened document on, when
    [process_pdf] returns: the segment identifiers are pairwise distinct, the
    pages are numbered from 1, no page is left ["ocr:pending"], and a segment
    of a page that OCR has read has no bounding box and is never a
    ["title"]. *)
Theorem process_local_spec (T : CharTables) (cleaning : ScribeOptions.t)
    (opts : RunOptions.t) (p : plan) (engine_error : option str) (doc_id : str)
    (doc : list raw_page) (segs : list segment) (pages : list page) (ws : list str) :
  process_local T cleaning opts p engine_error doc_id doc = Some (segs, pages, ws) ->
  NoDup (map seg_segment_id segs)
  /\ map page_num pages = seq 1 (length doc)
  /\ Forall (fun pg => source_mode pg <> mode_pending) pages
  /\ Forall (fun s => seg_source_mode s = mode_paddle ->
                      seg_bbox s = None /\ seg_role s <> Title) segs.
Proof.
  unfold process_local. intros H.
  destruct (scan_pages T (plan_ocr_enabled p) opts (plan_warnings p) doc) as [st|] eqn:Es;
    [|discriminate].
  cbn [mbind option_bind] in H.
  destruct (apply_ocr_settled _ _ _ _ _ engine_error (scan_pages_inv _ _ _ _ _ _ Es))
    as (pages' & ws' & Ea & [Hn Hs] & _).
  rewrite Ea in H. cbn [mbind option_bind fst snd] in H.
  destruct (process_pdf T cleaning doc_id pages') as [segs'|] eqn:Ep; [|discriminate].
  cbn [mbind option_bind] in H. injection H as <- <- <-.
  destruct modes_distinct as (D1 & D2 & D3 & D4 & D5 & D6).
  assert (Hids : NoDup (map seg_segment_id segs')).
  { pose proof Ep as Ep'. unfold process_pdf in Ep'.
    destruct (repeated_of T cleaning pages') as [repeated|]; [|discriminate].
    cbn [mbind option_bind] in Ep'.
    apply emit_pages_numbered in Ep' as (groups & -> & Hg). cbn [app].
    eapply numbered_ids_unique; [exact Hg|]. rewrite Hn. apply NoDup_seq. }
  split; [exact Hids|]. split; [exact Hn|]. split.
  - eapply List.Forall_impl; [|exact Hs].
    intros pg [H|[H|[H _]]]; rewrite H; congruence.
  - apply process_pdf_emitted in Ep as (repeated & _ & Hsegs).
    eapply List.Forall_impl; [|exact Hsegs].
    intros s (pg & Hpg & _ & Hmode & _ & _ & blk & median & Hblk & Hbox & Hrole) Hp.
    rewrite Hmode in Hp. rewrite List.Forall_forall in Hs.
    destruct (Hs pg Hpg) as [H|[H|(_ & Hb & _)]]; [congruence|congruence|].
    rewrite List.Forall_forall in Hb. destruct (Hb blk Hblk) as (Hb1 & Hb2 & _).
    split; [congruence|]. intros Ht. rewrite Ht, Hb1, Hb2 in Hrole.
    apply classify_role_title in Hrole. tauto.
Qed.

Definition sample_plan : plan :=
  {| plan_mode := mode_local; plan_ocr_enabled := true; plan_warnings := [] |}.

Lemma process_local_spec_witness :
  exists segs pages,
    process_local basic_tables default_options (sample_run None) sample_plan None
      (lit "scan") sample_scan = Some (segs, pages, [])
    /\ map seg_segment_id segs
       = [lit "scan-p001-s001"; lit "scan-p002-s001"; lit "scan-p002-s002";
          lit "scan-p003-s001"]
    /\ map seg_role segs = [Paragraph; Paragraph; Paragraph; Paragraph]
    /\ NoDup (map seg_segment_id segs)
    /\ map page_num pages = seq 1 (length sample_scan)
    /\ Forall (fun pg => source_mode pg <> mode_pending) pages
    /\ Forall (fun s => seg_source_mode s = mode_paddle ->
                        seg_bbox s = None /\ seg_role s <> Title) segs.
Proof.
  eexists _, _. split; [vm_compute; reflexivity|].
  split; [vm_compute; reflexivity|]. split; [vm_compute; reflexivity|].
  apply (process_local_spec basic_tables default_options (sample_run None) sample_plan
           None (lit "scan") sample_scan _ _ []).
  vm_compute. reflexivity.
Defined.

(** ** The mode *)

Lemma mode_names_distinct :
  mode_local <> mode_simpletex /\ mode_local <> mode_auto /\ mode_simpletex <> mode_auto.
Proof. repeat split; intros H; vm_compute in H; discriminate. Qed.

(** X27: the mode selection of [process_pdf]. Each exception has its
    cause: the missing file, the SimpleTex mode without its packages or
    without a token, the file that does not open. Otherwise the mode is one
    of the three names, and ["local"] for any requested mode other than
    ["simpletex_markdown"] and ["auto"] (an unknown mode never raises); the
    SimpleTex backend is chosen only when the guards of [_process_simpletex]
    pass; and the mode stays ["auto"] only when it was requested and OCR is
    enabled and available. *)
Theorem resolve_mode_spec (env : environment) (opts : RunOptions.t) :
  match resolve_mode env opts with
  | inl FileNotFound => path_exists env = false
  | inl SimpleTexDepsMissing =>
      RunOptions.mode opts = mode_simpletex /\ simpletex_available env = false
  | inl SimpleTexTokenMissing =>
      RunOptions.mode opts = mode_simpletex
      /\ truthy_str (RunOptions.simpletex_token opts) = false
  | inl OpenFailed => pdf_opens env = false
  | inr p =>
      path_exists env = true /\ pdf_opens env = true
      /\ plan_ocr_enabled p = RunOptions.enable_ocr opts && ocr_available env
      /\ (plan_mode p = mode_local \/ plan_mode p = mode_simpletex
          \/ plan_mode p = mode_auto)
      /\ (plan_mode p = mode_simpletex -> simpletex_guards env opts = None)
      /\ (plan_mode p = mode_auto ->
          RunOptions.mode opts = mode_auto /\ plan_ocr_enabled p = true)
      /\ (RunOptions.mode opts <> mode_simpletex -> RunOptions.mode opts <> mode_auto ->
          plan_mode p = mode_local)
  end.
Proof.
  destruct mode_names_distinct as (D1 & D2 & D3).
  unfold resolve_mode, simpletex_guards.
  destruct (path_exists env); cbn [negb]; [|reflexivity].
  set (m := mode_or_local (RunOptions.mode opts)).
  assert (Hm : m = RunOptions.mode opts \/ (RunOptions.mode opts = [] /\ m = mode_local)).
  { unfold m, mode_or_local. destruct (RunOptions.mode opts); auto. }
  assert (Hne : RunOptions.mode opts <> mode_simpletex -> m <> mode_simpletex).
  { intros H. destruct Hm as [->|[_ ->]]; [exact H|exact D1]. }
  assert (Hna : RunOptions.mode opts <> mode_auto -> m <> mode_auto).
  { intros H. destruct Hm as [->|[_ ->]]; [exact H|exact D2]. }
  assert (Hs : m = mode_simpletex -> RunOptions.mode opts = mode_simpletex).
  { intros H. destruct Hm as [<-|[_ Hl]]; [exact H|congruence]. }
  assert (Ha : m = mode_auto -> RunOptions.mode opts = mode_auto).
  { intros H. destruct Hm as [<-|[_ Hl]]; [exact H|congruence]. }
  clearbody m. clear Hm.
  destruct (decide (m = mode_local)) as [->|Hl];
    [|destruct (decide (m = mode_simpletex)) as [->|Hsx];
      [|destruct (decide (m = mode_auto)) as [->|Hau]]].
  - destruct (simpletex_available env), (truthy_str (RunOptions.simpletex_token opts)),
      (RunOptions.enable_ocr opts), (ocr_available env), (pdf_opens env);
      vm_compute; repeat split; intros; try discriminate; try reflexivity; auto.
  - specialize (Hs eq_refl).
    destruct (simpletex_available env), (truthy_str (RunOptions.simpletex_token opts)),
      (RunOptions.enable_ocr opts), (ocr_available env), (pdf_opens env);
      vm_compute; repeat split; intros; try discriminate; try reflexivity;
      try exact Hs; try solve [auto]; exfalso; auto.
  - specialize (Ha eq_refl).
    destruct (simpletex_available env), (truthy_str (RunOptions.simpletex_token opts)),
      (RunOptions.enable_ocr opts), (ocr_available env), (pdf_opens env);
      vm_compute; repeat split; intros; try discriminate; try reflexivity;
      try exact Ha; try solve [auto]; exfalso; auto.
  - rewrite (bool_decide_eq_false_2 (m = mode_local) Hl).
    rewrite (bool_decide_eq_false_2 (m = mode_simpletex) Hsx).
    rewrite (bool_decide_eq_false_2 (m = mode_auto) Hau). cbn [orb].
    destruct (simpletex_available env), (truthy_str (RunOptions.simpletex_token opts)),
      (RunOptions.enable_ocr opts), (ocr_available env), (pdf_opens env);
      vm_compute; repeat split; intros; try discriminate; try reflexivity; auto.
Qed.

(** ** A document that OCR has read throughout *)

(** X28: in a document whose lines all lack a bounding box, as the OCR
    pass leaves them, no header or footer line is detected: the set of
    repeated lines is empty. *)
Theorem ocr_document_no_repeated_lines (T : CharTables) (opts : ScribeOptions.t)
    (pages_data : list page) (repeated : gset str) :
  Forall (fun pg => Forall (fun l => line_bbox l = None) (page_lines pg)) pages_data ->
  repeated_of T opts pages_data = Some repeated ->
  repeated = ∅.
Proof.
  intros Hocr. unfold repeated_of.
  destruct (ScribeOptions.remove_headers_footers opts); [|intros [= <-]; reflexivity].
  set (pages_lines := map _ pages_data).
  assert (Hempty : Forall (fun lines => lines = []) pages_lines).
  { unfold pages_lines. apply List.Forall_map.
    eapply List.Forall_impl; [|exact Hocr]. intros pg Hpg. cbv beta.
    induction Hpg as [|l ls Hl _ IH]; [reflexivity|].
    simpl. rewrite Hl. rewrite bool_decide_eq_false_2; [exact IH|].
    intros [x Hx]. discriminate. }
  intros Hd.
  destruct (length pages_lines =? 0)%nat eqn:E0.
  { unfold detect_header_footer_lines in Hd. rewrite E0 in Hd.
    injection Hd as <-. reflexivity. }
  assert (Hthr : exists thr, repetition_threshold (length pages_lines)
                               (ScribeOptions.min_repetition_ratio opts) = Some thr).
  { unfold detect_header_footer_lines in Hd. rewrite E0 in Hd.
    destruct (repetition_threshold _ _) as [thr|]; [eauto|discriminate]. }
  destruct Hthr as [thr Hthr].
  destruct (detect_spec T (ScribeOptions.header_max_lines opts)
              (ScribeOptions.footer_max_lines opts) pages_lines _ thr Hthr)
    as (repeated' & E & Hiff).
  rewrite E in Hd. injection Hd as ->.
  pose proof (repetition_threshold_ge _ _ _ Hthr) as Hge.
  apply leibniz_equiv. intros text. split; [|intros H; inversion H].
  intros Hin. apply Hiff in Hin as [_ Hocc]. exfalso.
  assert (Hc : candidate_texts T (ScribeOptions.header_max_lines opts)
                 (ScribeOptions.footer_max_lines opts) pages_lines = []).
  { clear -Hempty. induction Hempty as [|lines ls -> _ IH]; [reflexivity|].
    unfold candidate_texts in *. cbn [flat_map]. rewrite IH. reflexivity. }
  rewrite Hc in Hocc. unfold occurrences in Hocc. simpl in Hocc. lia.
Qed.

Definition ocr_read_pages : list page :=
  [ {| page_num := 1; page_width := 600; page_blocks := [ocr_block (lit "Running head")];
       page_lines := [{| line_text := lit "Running head"; line_bbox := None |};
                      {| line_text := lit "one"; line_bbox := None |};
                      {| line_text := lit "1"; line_bbox := None |}];
       source_mode := mode_paddle; confidence := Some 0.9%float |};
    {| page_num := 2; page_width := 600; page_blocks := [ocr_block (lit "Running head")];
       page_lines := [{| line_text := lit "Running head"; line_bbox := None |};
                      {| line_text := lit "two"; line_bbox := None |};
                      {| line_text := lit "2"; line_bbox := None |}];
       source_mode := mode_paddle; confidence := Some 0.9%float |} ].

Definition one_line_margins : ScribeOptions.t :=
  {| ScribeOptions.multicolumn := true;
     ScribeOptions.remove_headers_footers := true;
     ScribeOptions.header_max_lines := 1;
     ScribeOptions.footer_max_lines := 1;
     ScribeOptions.min_repetition_ratio := 0.6;
     ScribeOptions.remove_page_numbers := true;
     ScribeOptions.dehyphenate := true;
     ScribeOptions.normalize_whitespace := true;
     ScribeOptions.merge_paragraphs := true |}.

Lemma ocr_document_no_repeated_lines_witness :
  exists repeated,
    repeated_of basic_tables one_line_margins ocr_read_pages = Some repeated
    /\ repeated = ∅.
Proof.
  destruct (repeated_of basic_tables one_line_margins ocr_read_pages)
    as [repeated|] eqn:E; [|vm_compute in E; discriminate].
  exists repeated. split; [reflexivity|].
  apply (ocr_document_no_repeated_lines basic_tables one_line_margins
           ocr_read_pages repeated); [|exact E].
  repeat constructor.
Defined.

(** ** The retry loop of the SimpleTex backend *)

Lemma ocr_attempts_spec (replies : nat -> list N + (list N * option (list N)))
    (budget : nat) :
  forall attempt last_err,
    match ocr_attempts replies budget attempt last_err with
    | (Some content, _, at_end) =>
        (attempt <= at_end < attempt + budget)%nat
        /\ replies at_end = inr content
        /\ forall k, (attempt <= k < at_end)%nat -> exists exc, replies k = inl exc
    | (None, err, at_end) =>
        at_end = (attempt + budget)%nat
        /\ (forall k, (attempt <= k < attempt + budget)%nat ->
                      exists exc, replies k = inl exc)
        /\ match budget with
           | O => err = last_err
           | S b => replies (attempt + b)%nat = inl (default [] err) /\ err <> None
           end
    end.
Proof.
  induction budget as [|b IH]; intros attempt last_err; cbn [ocr_attempts].
  - split; [lia|]. split; [intros k Hk; lia|reflexivity].
  - destruct (replies attempt) as [exc|content] eqn:E.
    + specialize (IH (S attempt) (Some exc)).
      destruct (ocr_attempts replies b (S attempt) (Some exc)) as [[[content|] err] at_end].
      * destruct IH as (H1 & H2 & H3). split; [lia|]. split; [exact H2|].
        intros k Hk. destruct (decide (k = attempt)) as [->|Hne]; [eauto|].
        apply H3. lia.
      * destruct IH as (H1 & H2 & H3). split; [lia|]. split.
        -- intros k Hk. destruct (decide (k = attempt)) as [->|Hne]; [eauto|].
           apply H2. lia.
        -- destruct b as [|b'].
           ++ subst err. rewrite Nat.add_0_r. split; [exact E|discriminate].
           ++ replace (attempt + S b')%nat with (S attempt + b')%nat by lia. exact H3.
    + split; [lia|]. split; [exact E|]. intros k Hk. lia.
Qed.

Section SimpleTexProperties.

Variable T : CharTables.
Variable max_retries : Z.
Variable replies : nat -> nat -> list N + (list N * option (list N)).

Abbreviation budget := (Z.to_nat (max_retries + 1)).

(** A page that was read: a request within the budget succeeded, it was
    the first to succeed, and the record holds its content. *)
Definition page_read (p : page_md) : Prop :=
  exists i attempt,
    md_page p = (i + 1)%nat /\ (attempt < budget)%nat
    /\ replies i attempt = inr (md_markdown p, md_request_id p)
    /\ forall k, (k < attempt)%nat -> exists exc, replies i k = inl exc.

(** A page that was given up: every request of the budget failed, and the
    record holds the message of the last one. *)
Definition page_given_up (e : page_error) : Prop :=
  exists i,
    err_page e = (i + 1)%nat
    /\ (forall k, (k < budget)%nat -> exists exc, replies i k = inl exc)
    /\ match budget with
       | O => err_error e = None
       | S b => exists exc, err_error e = Some exc /\ replies i b = inl exc
       end.

Definition pages_done (n : nat) (acc : list page_md * list page_error) : Prop :=
  Forall page_read acc.1 /\ Forall page_given_up acc.2
  /\ Permutation (map md_page acc.1 ++ map err_page acc.2) (seq 1 n)
  /\ Forall (fun q => (q <= n)%nat) (map md_page acc.1)
  /\ Sorted lt (map md_page acc.1) /\ Sorted lt (map err_page acc.2)
  /\ Forall (fun q => (q <= n)%nat) (map err_page acc.2).

Lemma Sorted_snoc (l : list nat) (x : nat) :
  Sorted lt l -> Forall (fun q => (q < x)%nat) l -> Sorted lt (l ++ [x]).
Proof.
  induction l as [|a l IH]; intros Hs Hf; simpl; [repeat constructor|].
  inversion Hs as [|? ? Hs' Hhd]; subst. inversion Hf as [|? ? Ha Hf']; subst.
  constructor; [apply IH; assumption|].
  destruct l as [|b l]; simpl; constructor; [exact Ha|].
  inversion Hhd; subst. assumption.
Qed.

Lemma ocr_one_page_done (n : nat) (acc : list page_md * list page_error) :
  pages_done n acc -> pages_done (S n) (ocr_one_page max_retries replies acc n).
Proof.
  intros (Hr & Hg & Hp & Hb1 & Hs1 & Hs2 & Hb2). unfold ocr_one_page.
  pose proof (ocr_attempts_spec (replies n) budget 0 None) as Hspec.
  assert (Hseq : seq 1 (S n) = seq 1 n ++ [(n + 1)%nat]).
  { rewrite seq_S. rewrite Nat.add_comm. reflexivity. }
  assert (Hlt : forall l, Forall (fun q => (q <= n)%nat) l ->
                          Forall (fun q => (q < n + 1)%nat) l).
  { intros l Hl. eapply List.Forall_impl; [|exact Hl]. intros q Hq. cbv beta in *. lia. }
  assert (Hle : forall l, Forall (fun q => (q <= n)%nat) l ->
                          Forall (fun q => (q <= S n)%nat) l).
  { intros l Hl. eapply List.Forall_impl; [|exact Hl]. intros q Hq. cbv beta in *. lia. }
  destruct (ocr_attempts (replies n) budget 0 None) as [[[content|] err] at_end];
    cbn [fst snd]; unfold pages_done; cbn [fst snd].
  - destruct Hspec as (H1 & H2 & H3).
    split; [|split; [exact Hg|split; [|split; [|split; [|split; [exact Hs2|auto]]]]]].
    + apply Forall_app. split; [exact Hr|]. constructor; [|constructor].
      exists n, at_end. cbn. repeat split; auto; try lia.
      * destruct content; exact H2.
      * intros k Hk. apply H3. lia.
    + rewrite map_app, Hseq. cbn [map md_page]. rewrite <- app_assoc.
      rewrite (Permutation_app_comm [(n + 1)%nat]), app_assoc.
      apply Permutation_app_tail, Hp.
    + rewrite map_app. apply Forall_app. split; [auto|]. cbn [map md_page err_page].
      constructor; [lia|constructor].
    + rewrite map_app. apply Sorted_snoc; auto.
  - destruct Hspec as (H1 & H2 & H3).
    split; [exact Hr|split; [|split; [|split; [auto|split; [exact Hs1|split]]]]].
    + apply Forall_app. split; [exact Hg|]. constructor; [|constructor].
      exists n. cbn. split; [reflexivity|]. split; [intros k Hk; apply H2; lia|].
      destruct budget as [|b]; [exact H3|]. destruct H3 as [H3 H4].
      destruct err as [exc|]; [|congruence]. exists exc. split; [reflexivity|exact H3].
    + rewrite map_app, Hseq, app_assoc. apply Permutation_app_tail, Hp.
    + rewrite map_app. apply Sorted_snoc; auto.
    + rewrite map_app. apply Forall_app. split; [auto|]. cbn [map md_page err_page].
      constructor; [lia|constructor].
Qed.

Lemma fold_pages_done (n : nat) :
  pages_done n (fold_left (ocr_one_page max_retries replies) (seq 0 n) ([], [])).
Proof.
  induction n as [|n IH].
  - unfold pages_done. cbn. repeat split; constructor.
  - rewrite seq_S, fold_left_app. cbn [fold_left Nat.add]. apply ocr_one_page_done, IH.
Qed.

End SimpleTexProperties.

(** X29: [pdf_to_markdown] accounts for every page once: the page
    numbers of [pages_md] and of [errors] together are 1 to [page_count],
    each list in ascending order. A page of [pages_md] holds the content and
    the request id of the first request that succeeded, one of the first
    [max_retries + 1]; a page is in [errors] only if all of these failed. *)
Theorem pdf_to_markdown_pages (T : CharTables) (max_retries : Z)
    (replies : nat -> nat -> list N + (list N * option (list N))) (page_count : nat) :
  let r := pdf_to_markdown T max_retries replies page_count in
  res_pages r = page_count
  /\ Permutation (map md_page (res_pages_md r) ++ map err_page (res_errors r))
                 (seq 1 page_count)
  /\ Sorted lt (map md_page (res_pages_md r))
  /\ Sorted lt (map err_page (res_errors r))
  /\ Forall (fun p =>
               exists i attempt,
                 md_page p = (i + 1)%nat /\ (Z.of_nat attempt <= max_retries)%Z
                 /\ replies i attempt = inr (md_markdown p, md_request_id p)
                 /\ forall k, (k < attempt)%nat -> exists exc, replies i k = inl exc)
            (res_pages_md r)
  /\ Forall (fun e =>
               exists i,
                 err_page e = (i + 1)%nat
                 /\ forall k, (Z.of_nat k <= max_retries)%Z ->
                              exists exc, replies i k = inl exc)
            (res_errors r).
Proof.
  intros r. unfold r, pdf_to_markdown. cbn [res_pages res_pages_md res_errors].
  destruct (fold_pages_done max_retries replies page_count)
    as (Hr & Hg & Hp & _ & Hs1 & Hs2 & _).
  split; [reflexivity|]. split; [exact Hp|]. split; [exact Hs1|]. split; [exact Hs2|].
  split.
  - eapply List.Forall_impl; [|exact Hr]. intros p (i & a & H1 & H2 & H3 & H4).
    exists i, a. repeat split; auto. lia.
  - eapply List.Forall_impl; [|exact Hg]. intros e (i & H1 & H2 & _).
    exists i. split; [exact H1|]. intros k Hk. apply H2. lia.
Qed.

(** ** Where the segment loop returns *)

Lemma foldM_total {A S : Type} (f : S -> A -> option S) (l : list A) :
  (forall s a, is_Some (f s a)) -> forall s, is_Some (foldM f l s).
Proof.
  intros Hf. induction l as [|a l IH]; intros s; simpl; [eauto|].
  destruct (Hf s a) as [s' ->]. apply IH.
Qed.

Lemma emit_block_total (T : CharTables) (opts : ScribeOptions.t) (doc_id : str)
    (repeated : gset str) (pg : page) (median : option float) (st : emit_state)
    (blk : block) :
  is_Some (emit_block T opts doc_id repeated pg median st blk).
Proof.
  unfold emit_block. destruct (block_text blk); [eauto|].
  destruct (strip _ _); [eauto|]. apply foldM_total. intros s p.
  unfold emit_paragraph.
  destruct (if ScribeOptions.normalize_whitespace opts then _ else _) as [|c t]; [eauto|].
  destruct (classify_role_total T (c :: t) (avg_size blk) median (page_width pg)
              (block_bbox blk) repeated (math_hint blk)) as [r ->].
  cbn [mbind option_bind]. eauto.
Qed.

Lemma emit_page_total (T : CharTables) (opts : ScribeOptions.t) (doc_id : str)
    (repeated : gset str) (segs : list segment) (pg : page) :
  ScribeOptions.multicolumn opts = false
  \/ Forall (fun b => block_bbox b = None) (page_blocks pg) ->
  is_Some (emit_page T opts doc_id repeated segs pg).
Proof.
  intros H. unfold emit_page.
  assert (E : ScribeOptions.multicolumn opts
              && existsb (fun b => bool_decide (is_Some (block_bbox b))) (page_blocks pg)
              = false).
  { destruct H as [->|H]; [reflexivity|]. apply andb_false_iff. right.
    induction H as [|b bs Hb _ IH]; [reflexivity|]. simpl. rewrite Hb, IH.
    rewrite bool_decide_eq_false_2; [reflexivity|]. intros [x Hx]. discriminate. }
  rewrite E. cbn [mbind option_bind].
  destruct (foldM_total (emit_block T opts doc_id repeated pg
                           (median_font_size (page_blocks pg)))
              (page_blocks pg)
              ltac:(intros s a; apply emit_block_total)
              {| segments := segs; page_paragraphs := []; segment_index := 1 |})
    as [st ->].
  cbn [mbind option_bind]. eauto.
Qed.

(** X30: with the removal of headers and footers off, [process_pdf]
    returns on every document on whose pages the blocks are not reordered
    (multi-column ordering off, or no block with a bounding box): the segment
    loop itself cannot raise. *)
Theorem process_pdf_returns (T : CharTables) (opts : ScribeOptions.t) (doc_id : str)
    (pages_data : list page) :
  ScribeOptions.remove_headers_footers opts = false ->
  Forall (fun pg => ScribeOptions.multicolumn opts = false
                    \/ Forall (fun b => block_bbox b = None) (page_blocks pg))
         pages_data ->
  is_Some (process_pdf T opts doc_id pages_data).
Proof.
  intros Hhf Hpages. unfold process_pdf, repeated_of. rewrite Hhf.
  cbn [mbind option_bind]. generalize (@nil segment).
  induction Hpages as [|pg pages Hpg _ IH]; intros segs; simpl; [eauto|].
  destruct (emit_page_total T opts doc_id ∅ segs pg Hpg) as [segs' ->].
  cbn [mbind option_bind]. apply IH.
Qed.

Definition keep_margins : ScribeOptions.t :=
  {| ScribeOptions.multicolumn := true;
     ScribeOptions.remove_headers_footers := false;
     ScribeOptions.header_max_lines := 3;
     ScribeOptions.footer_max_lines := 3;
     ScribeOptions.min_repetition_ratio := 0.6;
     ScribeOptions.remove_page_numbers := true;
     ScribeOptions.dehyphenate := true;
     ScribeOptions.normalize_whitespace := true;
     ScribeOptions.merge_paragraphs := true |}.

Lemma process_pdf_returns_witness :
  is_Some (process_pdf basic_tables keep_margins (lit "scan") ocr_read_pages).
Proof.
  apply (process_pdf_returns basic_tables keep_margins (lit "scan") ocr_read_pages).
  - reflexivity.
  - constructor; [right; repeat constructor|].
    constructor; [right; repeat constructor|constructor].
Defined.
